(** * pycargoebuild.ebuild: rendering and patching of ebuild documents

    A shallow embedding of [src/pycargoebuild/ebuild.py].  Text is a list of
    characters, Python exceptions are an error monad, the mutable match
    counters of the substitution objects are threaded explicitly, and the
    regular expressions of the module are values of a small regex syntax
    that is run by a backtracking matcher. *)

From Stdlib Require Import Ascii String Decimal DecimalString.
From stdpp Require Import base tactics option list sorting gmap strings.

Set Default Proof Using "Type".

(** ** Text *)

Module Text.

(** A Python [str]: the sequence of its characters, each with a code point
    below 256. *)
Abbreviation text := (list ascii).

(** A literal of the source. *)
Definition lit (s : string) : text := list_ascii_of_string s.

Definition nl : ascii := "010"%char.
Definition tab : ascii := "009"%char.
Definition dq : ascii := "034"%char.
Definition sq : ascii := "039"%char.
Definition bslash : ascii := "092"%char.

(** A line of a template: a literal and its newline. *)
Definition line (s : string) : text := lit s ++ [nl].

(** [sep.join(l)] *)
Fixpoint join (sep : text) (l : list text) : text :=
  match l with
  | [] => []
  | x :: l' =>
      match l' with
      | [] => x
      | _ :: _ => x ++ sep ++ join sep l'
      end
  end.

(** [str(n)] for a non-negative integer. *)
Definition str_of_nat (n : nat) : text :=
  lit (NilZero.string_of_uint (Nat.to_uint n)).

(** Comparison of two [str]: lexicographic on the characters' codes, a
    proper prefix before its extensions. *)
Fixpoint leb (a b : text) : bool :=
  match a, b with
  | [], _ => true
  | _ :: _, [] => false
  | x :: a', y :: b' =>
      if (N_of_ascii x <? N_of_ascii y)%N then true
      else if (N_of_ascii x =? N_of_ascii y)%N then leb a' b'
      else false
  end.

Definition le (a b : text) : Prop := leb a b = true.

Global Instance le_dec : RelDecision le.
Proof. intros a b. unfold le. apply _. Defined.

(** [sorted(l)] on a list of [str].  The order is total and antisymmetric,
    so the sorted list is determined by the elements alone: any sorting
    algorithm returns what Python's does. *)
Definition sorted (l : list text) : list text := merge_sort le l.

(** [s.startswith(p)] *)
Fixpoint startswith (p s : text) : bool :=
  match p, s with
  | [], _ => true
  | _ :: _, [] => false
  | a :: p', b :: s' => if decide (a = b) then startswith p' s' else false
  end.

(** The whitespace characters of a [text], for [str.isspace] and for the
    class [\s] of a pattern over [str]: the six of the ASCII range, the four
    separators U+001C to U+001F, the next-line character U+0085 and the
    no-break space U+00A0. *)
Definition whitespace : text :=
  ["009"; "010"; "011"; "012"; "013"; "028"; "029"; "030"; "031"; "032";
   "133"; "160"]%char.

Definition is_space (c : ascii) : bool := bool_decide (c ∈ whitespace).

(** [s.lstrip()] *)
Fixpoint lstrip (s : text) : text :=
  match s with
  | [] => []
  | c :: s' => if is_space c then lstrip s' else s
  end.

(** [s.split()]: the maximal runs of characters that are not whitespace.
    [cur] is the run being read, in reverse. *)
Fixpoint split_go (cur : text) (s : text) : list text :=
  match s with
  | [] => match cur with [] => [] | _ :: _ => [reverse cur] end
  | c :: s' =>
      if is_space c
      then match cur with
           | [] => split_go [] s'
           | _ :: _ => reverse cur :: split_go [] s'
           end
      else split_go (c :: cur) s'
  end.
Definition split (s : text) : list text := split_go [] s.

Definition hex_digit (n : N) : ascii :=
  if (n <? 10)%N then ascii_of_N (48 + n) else ascii_of_N (55 + n).

End Text.
Export Text.

(** ** Exceptions *)

Inductive exn :=
| RuntimeError (msg : text)
| ExpressionError (msg : text)   (* raised by the license-expression parser *)
| OSError (msg : text)           (* archive and manifest reading *)
| AttributeError (msg : text)    (* a method called on [None] *)
| IndexError (msg : text)        (* [match.group] of an unknown group *)
| KeyError (msg : text).         (* [TarFile.extractfile] of a missing member *)

Inductive result (A : Type) :=
| Ok (a : A)
| Raise (e : exn).
Arguments Ok {A} a.
Arguments Raise {A} e.

Global Instance result_ret : MRet result := @Ok.
Global Instance result_bind : MBind result := λ A B k m,
  match m with
  | Ok a => k a
  | Raise e => Raise e
  end.
Global Instance result_fmap : FMap result := λ A B f m,
  match m with
  | Ok a => Ok (f a)
  | Raise e => Raise e
  end.

(** ** The collaborators of the module

    [pycargoebuild.cargo] is not part of this file.  A crate is one of two
    variants; the attributes below are the ones [ebuild.py] reads. *)

Inductive Crate :=
| FileCrate (name : text) (filename : text) (crate_entry : text)
| GitCrate (name : text) (filename : text).

Definition crate_name (c : Crate) : text :=
  match c with
  | FileCrate n _ _ => n
  | GitCrate n _ => n
  end.

Definition crate_filename (c : Crate) : text :=
  match c with
  | FileCrate _ f _ => f
  | GitCrate _ f => f
  end.

Record PackageMetadata := {
  pm_name : text;
  pm_license : option text;
  pm_license_file : option text;
  pm_description : option text;
  pm_homepage : option text;
}.

(** [isinstance(c, GitCrate)] *)
Definition is_git_crate (c : Crate) : bool :=
  match c with
  | GitCrate _ _ => true
  | FileCrate _ _ _ => false
  end.

(** ** CRATES *)

Definition file_entries (crates : list Crate) : list text :=
  omap (λ c, match c with
             | FileCrate _ _ e => Some e
             | GitCrate _ _ => None
             end) crates.

Definition get_CRATES (crates : list Crate) : text :=
  match crates with
  | [] =>
      (* cargo.eclass rejects empty crates, we need some whitespace *)
      [nl]
  | _ :: _ =>
      [nl] ++ join [nl] (sorted ((λ e, tab :: e) <$> file_entries crates))
           ++ [nl]
  end.

(** ** GIT_CRATES *)

(** A path: [ebuild.py] reads the final component of the tarball path. *)
Record Path := { path_name : text }.

(** The download directory, as the crates' accessors and the archive reader
    see it.  [get_git_crate_entry] is the entry that a git crate formats; it
    opens the crate's archive to find the directory of the package, and
    raises when that fails.  [get_package_directory] is the directory of the
    package inside the archive, for the messages.  [read_manifest] is what
    [get_license_from_crate] does up to the call of [get_package_metadata]:
    [Ok None] when [TarFile.extractfile] returns [None] (the member at the
    place of the manifest is not a regular file or a link), [Ok (Some m)]
    when the manifest is read, and [Raise] when one of the steps raises:
    finding the directory of the package or the workspace manifest, opening
    the archive, looking up the member ([KeyError] when the archive has no
    member of that name), parsing the manifest. *)
Record Distdir := {
  get_git_crate_entry : Crate → result text;
  get_package_directory : Crate → text;
  read_manifest : Crate → result (option PackageMetadata);
}.

(** [shlex.quote] of the standard library:
    [_find_unsafe = re.compile(r'[^\w@%+=:,./-]', re.ASCII).search]. *)
Definition shlex_safe (c : ascii) : bool :=
  let n := N_of_ascii c in
  ((48 <=? n) && (n <=? 57) || (65 <=? n) && (n <=? 90)
   || (97 <=? n) && (n <=? 122))%N
  || bool_decide (c ∈ lit "_@%+=:,./-").

Definition shlex_quote (s : text) : text :=
  match s with
  | [] => [sq; sq]
  | _ :: _ =>
      if forallb shlex_safe s then s
      else [sq] ++ flat_map (λ c, if decide (c = sq)
                                  then [sq; dq; sq; dq; sq] else [c]) s
                ++ [sq]
  end.

(** The line of one git crate; reading its entry can raise. *)
Definition git_line (distdir : Distdir) (c : Crate) : result text :=
  entry ← get_git_crate_entry distdir c;
  Ok ([tab] ++ lit "[" ++ crate_name c ++ lit "]=" ++ shlex_quote entry).

(** The generator that [sorted] consumes: the lines of the git crates, in
    the order of the list; the first entry that cannot be read raises. *)
Definition git_lines (crates : list Crate) (distdir : Distdir)
  : result (list text) :=
  mapM (git_line distdir) (List.filter is_git_crate crates).

(** The assignment for the given lines. *)
Definition GIT_CRATES_block (lines : list text) : text :=
  let values := join [nl] (sorted lines) in
  match values with
  | _ :: _ =>
      [nl; nl] ++ lit "declare -A GIT_CRATES=(" ++ [nl] ++ values
               ++ [nl] ++ lit ")"
  | [] => []
  end.

Definition get_GIT_CRATES (crates : list Crate) (distdir : Distdir)
  : result text :=
  GIT_CRATES_block <$> git_lines crates distdir.

(** ** LICENSE *)

(** The license-expression library and the two helpers of this package that
    render its result ([pycargoebuild.license.spdx_to_ebuild] and
    [pycargoebuild.format.format_license_var]); none of them is in this
    module. *)
Class Licensing := {
  LicenseExpression : Type;
  (** [spdx.parse(s, strict=True)] *)
  spdx_parse : text → result (option LicenseExpression);
  simplify : LicenseExpression → LicenseExpression;
  spdx_to_ebuild : LicenseExpression → text;
  (** [format_license_var(value, prefix=...)] *)
  format_license_var : text → text → text;
}.

(** What the interpreter decides: the order in which a [set] is iterated,
    today's year, and the version of the package. *)
Class Runtime := {
  set_iter : gset (option text) → list (option text);
  today_year : nat;
  prog_version : text;
}.

(** An iteration of a set visits each of its members once. *)
Definition set_iter_ok (iter : gset (option text) → list (option text)) : Prop :=
  ∀ s, NoDup (iter s) ∧ ∀ x, x ∈ iter s ↔ x ∈ s.

Section License.
Context `{Licensing} `{Runtime}.

Definition get_package_LICENSE (license_str : option text) : result text :=
  match license_str with
  | Some license_str =>
      parsed ← spdx_parse license_str;
      match parsed with
      | None => Raise (AttributeError (lit "simplify"))
      | Some parsed =>
          let parsed_pkg_license := simplify parsed in
          Ok (format_license_var (spdx_to_ebuild parsed_pkg_license)
                (lit "LICENSE=" ++ [dq]))
      end
  | None => Ok []
  end.

(** The warnings of the source go to the log and do not change what is
    returned. *)
Definition get_license_from_crate (crate : Crate) (distdir : Distdir)
  : result (option text) :=
  let filename := crate_filename crate in
  let base_dir := get_package_directory distdir crate in
  tarf ← read_manifest distdir crate;
  match tarf with
  | None =>
      Raise (RuntimeError
               (base_dir ++ lit "/Cargo.toml not found in " ++ filename))
  | Some crate_metadata => Ok (pm_license crate_metadata)
  end.

(** [f"{x}"] of a member of the set. *)
Definition format_member (x : option text) : text :=
  match x with
  | Some x => x
  | None => lit "None"
  end.

Definition combine_licenses (crate_licenses : list (option text)) : text :=
  join (lit " AND ")
    ((λ x, lit "( " ++ format_member x ++ lit " )") <$> crate_licenses).

Definition contributed_licenses (crates : list Crate) (distdir : Distdir)
    (license_overrides : gmap text text) : result (list (option text)) :=
  mapM (λ crate,
          match license_overrides !! crate_name crate with
          | None => get_license_from_crate crate distdir
          | Some l => Ok (Some l)
          end) crates.

Definition get_crate_LICENSE (crates : list Crate) (distdir : Distdir)
    (license_overrides : gmap text text) : result text :=
  members ← contributed_licenses crates distdir license_overrides;
  let crate_licenses : gset (option text) := list_to_set members in
  let crate_licenses := crate_licenses ∖ {[None]} in
  (* combine crate licenses and simplify the result *)
  let combined_license := combine_licenses (set_iter crate_licenses) in
  parsed_license ← spdx_parse combined_license;
  match parsed_license with
  | None => Ok []
  | Some parsed_license =>
      let final_license := simplify parsed_license in
      let crate_licenses_str :=
        format_license_var (spdx_to_ebuild final_license)
          (lit "LICENSE+=" ++ [dq] ++ lit " ") in
      (* if it's not a multiline string, we need to prepend " " *)
      if startswith [nl] crate_licenses_str then Ok crate_licenses_str
      else Ok (lit " " ++ crate_licenses_str)
  end.

End License.



(** The library returns [None] for an empty expression. *)
Definition parse_empty_is_none `{Licensing} : Prop :=
  spdx_parse [] = Ok None.

(** ** Regular expressions

    The fragment of Python's [re] syntax that the module uses, under the
    flags it uses ([DOTALL]: the dot matches every character; [MULTILINE]:
    the anchors match at every line). *)

Inductive regex :=
| Lit (s : text)                     (* a sequence of literal characters *)
| CharSet (cs : text)                (* [[...]] *)
| Bol                                (* [^] *)
| Eol                                (* [$] *)
| Seq (r1 r2 : regex)
| Opt (r : regex)                    (* [r?], greedy *)
| DotStarLazy                        (* [.*?] *)
| DotStarGreedy                      (* [.*] *)
| Group (name : string) (r : regex)  (* [(?P<name>r)] or a numbered group *)
| Backref (name : string).           (* [(?P=name)] *)

Infix "⋅" := Seq (at level 41, right associativity).

Abbreviation groups := (list (string * text)).

Fixpoint group_lookup (g : groups) (name : string) : option text :=
  match g with
  | [] => None
  | (n, t) :: g' => if decide (n = name) then Some t else group_lookup g' name
  end.

(** [^] matches at the start of the text and after every newline. *)
Definition bol (prev : option ascii) : bool :=
  match prev with
  | None => true
  | Some c => bool_decide (c = nl)
  end.

(** [$] matches at the end of the text and before every newline. *)
Definition eol (s : text) : bool :=
  match s with
  | [] => true
  | c :: _ => bool_decide (c = nl)
  end.

(** The character before the position reached after reading [t]. *)
Definition last_char (prev : option ascii) (t : text) : option ascii :=
  match last t with
  | Some c => Some c
  | None => prev
  end.

(** The lazy star of the dot: what follows is tried at the position itself
    first, then one character further, and so on. *)
Fixpoint lazy_star {R} (k : option ascii → text → option R)
    (prev : option ascii) (s : text) : option R :=
  match k prev s with
  | Some x => Some x
  | None =>
      match s with
      | [] => None
      | c :: s' => lazy_star k (Some c) s'
      end
  end.

(** The greedy star of the dot: what follows is tried at the farthest
    position first. *)
Fixpoint greedy_star {R} (k : option ascii → text → option R)
    (prev : option ascii) (s : text) : option R :=
  match s with
  | [] => k prev s
  | c :: s' =>
      match greedy_star k (Some c) s' with
      | Some x => Some x
      | None => k prev s
      end
  end.

(** A backtracking matcher in continuation-passing style.  The position is
    the character before it ([prev]) and the text from it on ([s]); [k] is
    what remains to be matched, and the first success is the result. *)
Fixpoint exec {R} (r : regex) (prev : option ascii) (s : text) (g : groups)
    (k : option ascii → text → groups → option R) : option R :=
  match r with
  | Lit t =>
      if startswith t s
      then k (last_char prev t) (drop (length t) s) g
      else None
  | CharSet cs =>
      match s with
      | c :: s' => if bool_decide (c ∈ cs) then k (Some c) s' g else None
      | [] => None
      end
  | Bol => if bol prev then k prev s g else None
  | Eol => if eol s then k prev s g else None
  | Seq r1 r2 => exec r1 prev s g (λ prev' s' g', exec r2 prev' s' g' k)
  | Opt r1 =>
      match exec r1 prev s g k with
      | Some x => Some x
      | None => k prev s g
      end
  | DotStarLazy => lazy_star (λ prev' s', k prev' s' g) prev s
  | DotStarGreedy => greedy_star (λ prev' s', k prev' s' g) prev s
  | Group name r1 =>
      exec r1 prev s g
        (λ prev' s' g',
           k prev' s' ((name, take (length s - length s') s) :: g'))
  | Backref name =>
      match group_lookup g name with
      | Some t =>
          if startswith t s
          then k (last_char prev t) (drop (length t) s) g
          else None
      | None => None
      end
  end.

(** A match object: the text matched ([match.group(0)]) and the groups. *)
Record Match := {
  m_text : text;
  m_groups : groups;
}.

Definition m_len (m : Match) : nat := length (m_text m).

(** [pattern.match] at a position. *)
Definition re_match (r : regex) (prev : option ascii) (s : text)
  : option Match :=
  exec r prev s []
    (λ _ s' g, Some {| m_text := take (length s - length s') s;
                       m_groups := g |}).

(** [match.group(name)] *)
Definition group (m : Match) (name : string) : result text :=
  match group_lookup (m_groups m) name with
  | Some t => Ok t
  | None => Raise (IndexError (lit "no such group"))
  end.

(** [pattern.sub(repl, s)] for a callable [repl] that carries a state [S]:
    the text is scanned from the left, each match is replaced by what the
    callable returns for it, and the scan goes on after the match.  [skip]
    counts the characters of the last match that are still to be passed.

    The patterns of this module match no empty text
    ([re_match_nonempty]); for an empty match the replacement is inserted
    and the scan moves on by one character. *)
Fixpoint sub_scan {S} (re : regex) (call : S → Match → result (S * text))
    (st : S) (prev : option ascii) (s : text) (skip : nat)
  : result (S * text) :=
  match skip with
  | S skip' =>
      match s with
      | [] => Ok (st, [])
      | c :: s' => sub_scan re call st (Some c) s' skip'
      end
  | 0 =>
      match re_match re prev s with
      | Some m =>
          '(st', r) ← call st m;
          match s with
          | [] => Ok (st', r)
          | c :: s' =>
              match m_len m with
              | 0 =>
                  '(st'', out) ← sub_scan re call st' (Some c) s' 0;
                  Ok (st'', r ++ c :: out)
              | S skip' =>
                  '(st'', out) ← sub_scan re call st' (Some c) s' skip';
                  Ok (st'', r ++ out)
              end
          end
      | None =>
          match s with
          | [] => Ok (st, [])
          | c :: s' =>
              '(st', out) ← sub_scan re call st (Some c) s' 0;
              Ok (st', c :: out)
          end
      end
  end.

Definition re_sub {S} (re : regex) (call : S → Match → result (S * text))
    (st : S) (s : text) : result (S * text) :=
  sub_scan re call st None s 0.

(** [pattern.finditer(s)]: the matches that [sub] replaces, each with the
    position it starts at. *)
Fixpoint find_scan (re : regex) (prev : option ascii) (s : text)
    (skip pos : nat) : list (nat * Match) :=
  match skip with
  | S skip' =>
      match s with
      | [] => []
      | c :: s' => find_scan re (Some c) s' skip' (S pos)
      end
  | 0 =>
      match re_match re prev s with
      | Some m =>
          (pos, m) ::
          match s with
          | [] => []
          | c :: s' => find_scan re (Some c) s' (pred (m_len m)) (S pos)
          end
      | None =>
          match s with
          | [] => []
          | c :: s' => find_scan re (Some c) s' 0 (S pos)
          end
      end
  end.

Definition finditer (re : regex) (s : text) : list (nat * Match) :=
  find_scan re None s 0 0.

(** The text that [sub] returns when the callable returns [r m] for the
    match [m], whatever its state. *)
Fixpoint replace_scan (re : regex) (r : Match → text) (prev : option ascii)
    (s : text) (skip : nat) : text :=
  match skip with
  | S skip' =>
      match s with
      | [] => []
      | c :: s' => replace_scan re r (Some c) s' skip'
      end
  | 0 =>
      match re_match re prev s with
      | Some m =>
          r m ++
          match s with
          | [] => []
          | c :: s' =>
              match m_len m with
              | 0 => c :: replace_scan re r (Some c) s' 0
              | S skip' => replace_scan re r (Some c) s' skip'
              end
          end
      | None =>
          match s with
          | [] => []
          | c :: s' => c :: replace_scan re r (Some c) s' 0
          end
      end
  end.

(** How many times a pattern matches in a document. *)
Definition match_count (re : regex) (s : text) : nat :=
  length (finditer re s).

(** Two patterns match the same way, whatever follows them. *)
Definition re_equiv (r r' : regex) : Prop :=
  ∀ R prev s g (k : option ascii → text → groups → option R),
    exec r prev s g k = exec r' prev s g k.

(** *** What the patterns of this module match

    The patterns below end in a lazy [.*?] followed by a closing delimiter
    and [$].  [find_close q s] is the number of characters of [s] before
    the first [q] that ends a line. *)

Fixpoint find_close (q : ascii) (s : text) : option nat :=
  match s with
  | [] => None
  | c :: s' =>
      if bool_decide (c = q) && eol s' then Some 0
      else S <$> find_close q s'
  end.

(** A closing delimiter [q] after [body] is the first one that ends a
    line. *)
Definition first_close (q : ascii) (body rest : text) : Prop :=
  eol rest = true ∧
  ∀ b1 b2, body = b1 ++ q :: b2 → eol (b2 ++ q :: rest) = false.

(** A region [head q body q] at the start of a line, the quote [q] being
    either one; the groups are those of [CRATES_RE] and
    [CRATE_LICENSE_RE]. *)
Definition quoted_region (head : text) (prev : option ascii) (s : text)
  : option Match :=
  if bol prev && startswith head s then
    match drop (length head) s with
    | q :: s' =>
        if bool_decide (q ∈ [sq; dq]) then
          n ← find_close q s';
          Some {| m_text := head ++ q :: take n s' ++ [q];
                  m_groups := [("start", head ++ [q]); ("delim", [q])] |}
        else None
    | [] => None
    end
  else None.

(** The same region with the groups of [GIT_CRATES_APPEND_RE]. *)
Definition quoted_region_tail (head : text) (prev : option ascii) (s : text)
  : option Match :=
  if bol prev && startswith head s then
    match drop (length head) s with
    | q :: s' =>
        if bool_decide (q ∈ [sq; dq]) then
          n ← find_close q s';
          Some {| m_text := head ++ q :: take n s' ++ [q];
                  m_groups := [("delim", []);
                               ("start", head ++ q :: take n s' ++ [q]);
                               ("delim2", [q])] |}
        else None
    | [] => None
    end
  else None.

(** A block [ws declare -A GIT_CRATES=( body )]. *)
Definition git_block (ws : text) (s : text) : option Match :=
  let head := ws ++ lit "declare -A GIT_CRATES=(" in
  if startswith head s then
    let s' := drop (length head) s in
    n ← find_close ")" s';
    Some {| m_text := head ++ take n s' ++ lit ")";
            m_groups := [("ws", ws)] |}
  else None.

Definition git_region (s : text) : option Match :=
  match git_block [nl; nl] s with
  | Some m => Some m
  | None => git_block [nl] s
  end.

(** *** Where a pattern can match

    Each pattern of the patcher starts with literal text, and three of them
    with [^].  [may_start] is the test that a match at a position needs:
    [at_bol] tells whether the position is at the start of a line, and
    [heads] are the texts one of which the match starts with. *)

Definition may_start (anchored : bool) (heads : list text) (at_bol : bool)
    (s : text) : bool :=
  (negb anchored || at_bol) && existsb (λ h, startswith h s) heads.

Definition GIT_CRATES_heads : list text :=
  [[nl; nl] ++ lit "declare -A GIT_CRATES=(";
   [nl] ++ lit "declare -A GIT_CRATES=("].

Definition CRATE_LICENSE_head : text :=
  line "# Dependent crate licenses" ++ lit "LICENSE+=".

(** Whether the position after [a] is at the start of a line, [pb] telling
    it for the position before [a]. *)
Definition bol_after (pb : bool) (a : text) : bool :=
  match last a with
  | Some c => bool_decide (c = nl)
  | None => pb
  end.

(** No position inside [a], in the text [a ++ b], can start a match. *)
Definition quiet (anchored : bool) (heads : list text) (pb : bool)
    (a b : text) : Prop :=
  ∀ a1 c a2,
    a = a1 ++ c :: a2 →
    may_start anchored heads (bol_after pb a1) (c :: a2 ++ b) = false.

(** [h] and [s] differ at a position that both have: [h] is no prefix of
    any extension of [s]. *)
Fixpoint conflict (h s : text) : bool :=
  match h, s with
  | a :: h', b :: s' => if decide (a = b) then conflict h' s' else true
  | _, _ => false
  end.

(** The test for a known text [a] followed by the known text [la]. *)
Fixpoint quiet_lit (anchored : bool) (heads : list text) (pb : bool)
    (a la : text) : bool :=
  match a with
  | [] => true
  | c :: a' =>
      (anchored && negb pb || forallb (λ h, conflict h (a ++ la)) heads)
      && quiet_lit anchored heads (bool_decide (c = nl)) a' la
  end.

(** The same test for a known text [a] at the end of the document. *)
Fixpoint quiet_last (anchored : bool) (heads : list text) (pb : bool)
    (a : text) : bool :=
  match a with
  | [] => true
  | c :: a' =>
      negb (may_start anchored heads pb a)
      && quiet_last anchored heads (bool_decide (c = nl)) a'
  end.

(** Every line of [v] that starts inside [v] is empty or starts with a
    tab; [pb] tells whether [v] itself starts a line. *)
Fixpoint indented (pb : bool) (v : text) : bool :=
  match v with
  | [] => true
  | c :: v' =>
      (negb pb || bool_decide (c = tab) || bool_decide (c = nl))
      && indented (bool_decide (c = nl)) v'
  end.

(** Some [q] in [v] is followed by a newline. *)
Fixpoint ends_line (q : ascii) (v : text) : bool :=
  match v with
  | [] => false
  | c :: v' =>
      bool_decide (c = q) && bool_decide (head v' = Some nl)
      || ends_line q v'
  end.

(** *** Documents made of known text and of values

    A rendered document is known text around values of which only the
    indentation is known.  [quiet_segs] is the test that no match can start
    in such a document: [la] is the known text after it, and [pb] may be
    [true] where the position is not known to be inside a line. *)

Inductive segment :=
| Known (a : text)
| Value (v : text).

Definition segment_text (s : segment) : text :=
  match s with
  | Known a => a
  | Value v => v
  end.

Fixpoint flatten (segs : list segment) : text :=
  match segs with
  | [] => []
  | s :: r => segment_text s ++ flatten r
  end.

(** The known text that [segs], followed by [la], starts with. *)
Fixpoint known (segs : list segment) (la : text) : text :=
  match segs with
  | [] => la
  | Known a :: r => a ++ known r la
  | Value _ :: _ => []
  end.

Definition value_ok (s : segment) : Prop :=
  match s with
  | Known _ => True
  | Value v => indented false v = true
  end.

Definition quiet_value (anchored : bool) (heads : list text) (pb : bool)
    (la : text) : bool :=
  if anchored then
    negb pb
    && forallb (λ h, match h with
                     | c :: _ => negb (bool_decide (c = tab))
                                 && negb (bool_decide (c = nl))
                     | [] => false
                     end) heads
  else
    bool_decide (heads = GIT_CRATES_heads)
    && forallb (λ h, conflict h (nl :: la)) heads
    && forallb (λ h, conflict h (nl :: nl :: la)) heads.

Fixpoint quiet_segs (anchored : bool) (heads : list text) (pb : bool)
    (segs : list segment) (la : text) : bool :=
  match segs with
  | [] => true
  | Known a :: r =>
      quiet_lit anchored heads pb a (known r la)
      && quiet_segs anchored heads (bol_after pb a) r la
  | Value _ :: r =>
      quiet_value anchored heads pb (known r la)
      && quiet_segs anchored heads true r la
  end.

(** A line that starts with a tab, and a line of the GIT_CRATES block. *)
Definition tab_line (l : text) : Prop := ∃ e, l = tab :: e ∧ (nl ∉ e).

Definition git_line_ok (l : text) : Prop :=
  tab_line l ∧ (nl ∉ l) ∧ (last l ≠ Some ")"%char).

(** A value that can stand between double quotes in the document: it has
    no double quote, and its lines after the first are empty or
    indented. *)
Definition plain_value (v : text) : Prop :=
  (dq ∉ v) ∧ (indented false v = true).

(** [may_start] is necessary for a match of [re]. *)
Definition guarded (re : regex) (anchored : bool) (heads : list text)
  : Prop :=
  ∀ prev s m,
    re_match re prev s = Some m →
    may_start anchored heads (bol prev) s = true.

(** The matches of a scan, without their positions. *)
Definition scan_matches (re : regex) (prev : option ascii) (s : text)
    (skip : nat) : list Match :=
  (find_scan re prev s skip 0).*2.

(** The text [a ++ t ++ b] in which the pattern matches once: at [t], with
    the match [m], and nowhere in [a] and [b]. *)
Definition single_match (re : regex) (a t b : text) (m : Match) : Prop :=
  ∃ anchored heads,
    guarded re anchored heads ∧
    Forall (λ h : text, h ≠ []) heads ∧
    quiet anchored heads true a (t ++ b) ∧
    re_match re (last_char None a) (t ++ b) = Some m ∧
    m_text m = t ∧
    t ≠ [] ∧
    quiet anchored heads (bol_after true (a ++ t)) b [].

(** The match of [GIT_CRATES_APPEND_RE] where [CRATES_RE] has the match
    [m]. *)
Definition append_match (m : Match) : Match :=
  {| m_text := m_text m;
     m_groups := [("delim", []); ("start", m_text m);
                  ("delim2", default [] (group_lookup (m_groups m) "delim"))] |}.

(** ** Escaping *)

Definition DQUOTE_SPECIAL_RE : regex :=
  Group "1" (CharSet (lit "$`" ++ [dq; bslash])).

Definition DQUOTE_SPECIAL_PLUS_WS_RE : regex :=
  CharSet (lit "$`" ++ [dq; bslash] ++ whitespace).

(** Collapse sequences of whitespace into a single space *)
Definition collapse_whitespace (value : text) : text :=
  join (lit " ") (split value).

(** Escape all characters with special meaning in bash double-quotes.  The
    replacement template is a backslash and the first group. *)
Definition bash_dquote_escape (value : text) : result text :=
  snd <$> re_sub DQUOTE_SPECIAL_RE
            (λ (_ : unit) m, g1 ← group m "1"; Ok (tt, bslash :: g1))
            tt value.

(** [urllib.parse.quote_plus]: letters, digits and [_.-~] are kept, a space
    becomes a plus sign, every other character is percent-encoded, byte by
    byte of its UTF-8 encoding: one byte below U+0080, two bytes from there
    to U+00FF. *)
Definition url_unreserved (c : ascii) : bool :=
  let n := N_of_ascii c in
  ((48 <=? n) && (n <=? 57) || (65 <=? n) && (n <=? 90)
   || (97 <=? n) && (n <=? 122))%N
  || bool_decide (c ∈ lit "_.-~").

Definition percent_byte (b : N) : text :=
  lit "%" ++ [hex_digit (b / 16); hex_digit (b mod 16)].

Definition quote_plus (s : text) : text :=
  flat_map (λ c,
    if decide (c = " "%char) then lit "+"
    else if url_unreserved c then [c]
    else let n := N_of_ascii c in
         if (n <? 128)%N then percent_byte n
         else percent_byte (192 + n / 64) ++ percent_byte (128 + n mod 64)) s.

(** URL-encode whitespace and special chars to use in bash double-quotes *)
Definition url_dquote_escape (value : text) : result text :=
  snd <$> re_sub DQUOTE_SPECIAL_PLUS_WS_RE
            (λ (_ : unit) x, Ok (tt, quote_plus (m_text x)))
            tt value.

(** *** Reading an escaped text

    A text in which every backslash stands before one of the four special
    characters of [DQUOTE_SPECIAL_RE], and in which these characters occur
    only after such a backslash, is read as the text without the escaping
    backslashes; any other text is not read. *)

Definition dquote_special : text := lit "$`" ++ [dq; bslash].

Fixpoint dquote_read (s : text) : option text :=
  match s with
  | [] => Some []
  | c :: s' =>
      if decide (c = bslash) then
        match s' with
        | c' :: s'' =>
            if bool_decide (c' ∈ dquote_special)
            then (c' ::.) <$> dquote_read s''
            else None
        | [] => None
        end
      else if bool_decide (c ∈ dquote_special) then None
      else (c ::.) <$> dquote_read s'
  end.

(** ** The templates

    Each template is the function that [str.format] makes of it. *)

Definition EBUILD_TEMPLATE_START
    (year prog_version crates opt_git_crates description homepage
     opt_crate_tarball pkg_license : text) : text :=
  lit "# Copyright " ++ year ++ line " Gentoo Authors"
  ++ line "# Distributed under the terms of the GNU General Public License v2"
  ++ [nl]
  ++ lit "# Autogenerated by pycargoebuild " ++ prog_version ++ [nl]
  ++ [nl]
  ++ line "EAPI=8"
  ++ [nl]
  ++ lit "CRATES=" ++ [dq] ++ crates ++ [dq] ++ opt_git_crates ++ [nl]
  ++ [nl]
  ++ line "inherit cargo"
  ++ [nl]
  ++ lit "DESCRIPTION=" ++ [dq] ++ description ++ [dq] ++ [nl]
  ++ lit "HOMEPAGE=" ++ [dq] ++ homepage ++ [dq] ++ [nl]
  ++ lit "SRC_URI=" ++ [dq] ++ [nl]
  ++ [tab] ++ line "${CARGO_CRATE_URIS}"
  ++ [dq] ++ opt_crate_tarball ++ [nl]
  ++ [nl]
  ++ lit "LICENSE=" ++ [dq] ++ pkg_license ++ [dq] ++ [nl].

Definition EBUILD_TEMPLATE_CRATE_TARBALL (name : text) : text :=
  [nl]
  ++ line "if [[ ${PKGBUMPING} != ${PVR} ]]; then"
  ++ [tab] ++ lit "SRC_URI+=" ++ [dq] ++ [nl]
  ++ [tab; tab] ++ name ++ [nl]
  ++ [tab] ++ [dq] ++ [nl]
  ++ lit "fi".

Definition EBUILD_TEMPLATE_CRATE_LICENSE (crate_licenses : text) : text :=
  line "# Dependent crate licenses"
  ++ lit "LICENSE+=" ++ [dq] ++ crate_licenses ++ [dq] ++ [nl].

Definition EBUILD_TEMPLATE_END : text :=
  lit "SLOT=" ++ [dq] ++ lit "0" ++ [dq] ++ [nl]
  ++ lit "KEYWORDS=" ++ [dq] ++ lit "~amd64" ++ [dq] ++ [nl].

(** [x or ""] *)
Definition or_empty (x : option text) : text := default [] x.

(** The text of the templates between their fields. *)
Module Segment.

Definition copyright : text := lit "# Copyright ".

Definition authors : text :=
  line " Gentoo Authors"
  ++ line "# Distributed under the terms of the GNU General Public License v2"
  ++ [nl]
  ++ lit "# Autogenerated by pycargoebuild ".

Definition eapi : text := [nl; nl] ++ line "EAPI=8" ++ [nl].

Definition inherit : text :=
  [nl; nl] ++ line "inherit cargo" ++ [nl] ++ lit "DESCRIPTION=" ++ [dq].

Definition homepage : text := [dq; nl] ++ lit "HOMEPAGE=" ++ [dq].

Definition src_uri : text :=
  [dq; nl] ++ lit "SRC_URI=" ++ [dq; nl; tab] ++ line "${CARGO_CRATE_URIS}"
  ++ [dq].

Definition license : text := [nl; nl] ++ lit "LICENSE=" ++ [dq].

Definition tarball_open : text :=
  [nl] ++ line "if [[ ${PKGBUMPING} != ${PVR} ]]; then"
  ++ [tab] ++ lit "SRC_URI+=" ++ [dq; nl; tab; tab].

Definition tarball_close : text := [nl; tab; dq; nl] ++ lit "fi".

Definition git_open : text := [nl; nl] ++ lit "declare -A GIT_CRATES=(".

(** The rendered document: known text around the values. *)

Definition front (year version : text) : list segment :=
  [Known copyright; Value year; Known authors; Value version; Known eapi].

Definition crates (v : text) : list segment :=
  [Known (lit "CRATES=" ++ [dq]); Value v; Known [dq]].

Definition git (body : option text) : list segment :=
  match body with
  | Some b => [Known git_open; Value b; Known (lit ")")]
  | None => []
  end.

Definition tarball (name : option text) : list segment :=
  match name with
  | Some n => [Known tarball_open; Value n; Known tarball_close]
  | None => []
  end.

Definition middle (desc home : text) (name : option text) (plv : text)
  : list segment :=
  [Known inherit; Value desc; Known homepage; Value home; Known src_uri]
  ++ tarball name ++ [Known license; Value plv; Known [dq; nl]].

Definition license_block (clv : option text) : list segment :=
  match clv with
  | Some v => [Known (CRATE_LICENSE_head ++ [dq]); Value v; Known [dq; nl]]
  | None => []
  end.

Definition document (year version crates_v : text) (git_body : option text)
    (desc home : text) (name : option text) (plv : text) (clv : option text)
  : text :=
  flatten (front year version ++ crates crates_v ++ git git_body
           ++ middle desc home name plv ++ license_block clv)
  ++ EBUILD_TEMPLATE_END.

(** The matches of the three patterns in the rendered document. *)

Definition CRATES_match (v : text) : Match :=
  {| m_text := lit "CRATES=" ++ dq :: v ++ [dq];
     m_groups := [("start", lit "CRATES=" ++ [dq]); ("delim", [dq])] |}.

Definition GIT_CRATES_match (body : text) : Match :=
  {| m_text := ([nl; nl] ++ lit "declare -A GIT_CRATES=(") ++ body ++ lit ")";
     m_groups := [("ws", [nl; nl])] |}.

Definition CRATE_LICENSE_match (v : text) : Match :=
  {| m_text := CRATE_LICENSE_head ++ dq :: v ++ [dq];
     m_groups := [("start", CRATE_LICENSE_head ++ [dq]); ("delim", [dq])] |}.

End Segment.

(** ** The patterns of the patcher *)

Definition CRATES_RE : regex :=
  Bol ⋅ Group "start" (Lit (lit "CRATES=") ⋅ Group "delim" (CharSet [sq; dq]))
      ⋅ DotStarLazy ⋅ Backref "delim" ⋅ Eol.

Definition GIT_CRATES_RE : regex :=
  Group "ws" (Lit [nl] ⋅ Opt (Lit [nl]))
    ⋅ Lit (lit "declare -A GIT_CRATES=") ⋅ CharSet (lit "(")
    ⋅ DotStarLazy ⋅ CharSet (lit ")") ⋅ Eol.

Definition CRATE_LICENSE_RE : regex :=
  Bol ⋅ Group "start" (Lit (line "# Dependent crate licenses")
                        ⋅ Lit (lit "LICENSE") ⋅ CharSet (lit "+")
                        ⋅ Lit (lit "=") ⋅ Group "delim" (CharSet [sq; dq]))
      ⋅ DotStarLazy ⋅ Backref "delim" ⋅ Eol.

Definition GIT_CRATES_APPEND_RE : regex :=
  Bol ⋅ Group "start" (Lit (lit "CRATES=") ⋅ Group "delim2" (CharSet [sq; dq])
                        ⋅ DotStarLazy ⋅ Backref "delim2")
      ⋅ Group "delim" (Lit []) ⋅ Eol.




(** ** The counting substitutions *)

Record CountingSubst := {
  count : nat;
  repl : unit → result text;
}.

Definition new_subst (repl : unit → result text) : CountingSubst :=
  {| count := 0; repl := repl |}.

Definition incr (self : CountingSubst) : CountingSubst :=
  {| count := count self + 1; repl := repl self |}.

(** [CountingSubst.__call__] *)
Definition CountingSubst_call (self : CountingSubst) (m : Match)
  : result (CountingSubst * text) :=
  let self := incr self in
  start ← group m "start";
  r ← repl self ();
  delim ← group m "delim";
  Ok (self, start ++ r ++ delim).

Definition count_message (desc : text) (found expected : nat) : text :=
  desc ++ lit " matched " ++ str_of_nat found ++ lit " times, "
       ++ str_of_nat expected ++ lit " expected".

(** [CountingSubst.assert_count] *)
Definition assert_count (self : CountingSubst) (desc : text) (expected : nat)
  : result unit :=
  if decide (count self ≠ expected)
  then Raise (RuntimeError (count_message desc (count self) expected))
  else Ok ().

(** [GitCratesSubst.__call__] *)
Definition GitCratesSubst_call (self : CountingSubst) (m : Match)
  : result (CountingSubst * text) :=
  let self := incr self in
  r ← repl self ();
  match lstrip r with
  | (_ :: _) as repl => ws ← group m "ws"; Ok (self, ws ++ repl)
  | [] => Ok (self, [])
  end.

(** What [CountingSubst.__call__] returns for a match when the replacement
    value is [v], and what [GitCratesSubst.__call__] returns. *)
Definition counting_repl (v : text) (m : Match) : text :=
  default [] (group_lookup (m_groups m) "start") ++ v
    ++ default [] (group_lookup (m_groups m) "delim").

Definition git_repl (v : text) (m : Match) : text :=
  match lstrip v with
  | (_ :: _) as repl => default [] (group_lookup (m_groups m) "ws") ++ repl
  | [] => []
  end.

(** ** Rendering and updating *)

Section Ebuild.
Context `{Licensing} `{Runtime}.

(** The value of CRATES that both entry points compute. *)
Definition crates_value (crates : list Crate) (crate_tarball : option Path)
  : text :=
  get_CRATES (match crate_tarball with None => crates | Some _ => [] end).

Definition get_ebuild (pkg_meta : PackageMetadata) (crates : list Crate)
    (distdir : Distdir) (crate_license : bool) (crate_tarball : option Path)
    (license_overrides : gmap text text) : result text :=
  let template_tail :=
    (if crate_license then EBUILD_TEMPLATE_CRATE_LICENSE else λ _, [])
  in
  let crates_v := crates_value crates crate_tarball in
  crate_licenses ← get_crate_LICENSE crates distdir license_overrides;
  description ←
    bash_dquote_escape (collapse_whitespace
                          (or_empty (pm_description pkg_meta)));
  homepage ← url_dquote_escape (or_empty (pm_homepage pkg_meta));
  let opt_crate_tarball :=
    match crate_tarball with
    | Some crate_tarball => EBUILD_TEMPLATE_CRATE_TARBALL (path_name crate_tarball)
    | None => []
    end in
  opt_git_crates ← get_GIT_CRATES crates distdir;
  pkg_license ← get_package_LICENSE (pm_license pkg_meta);
  Ok (EBUILD_TEMPLATE_START (str_of_nat today_year) prog_version crates_v
        opt_git_crates description homepage opt_crate_tarball pkg_license
      ++ template_tail crate_licenses
      ++ EBUILD_TEMPLATE_END).

Definition update_ebuild (ebuild : text) (pkg_meta : PackageMetadata)
    (crates : list Crate) (distdir : Distdir) (crate_license : bool)
    (crate_tarball : option Path) (license_overrides : gmap text text)
  : result text :=
  let crates_repl :=
    new_subst (λ _, Ok (crates_value crates crate_tarball)) in
  let git_crates_repl :=
    new_subst (λ _, get_GIT_CRATES crates distdir) in
  let crate_license_repl :=
    new_subst (λ _, get_crate_LICENSE crates distdir license_overrides) in
  '(crates_repl, ebuild) ←
    re_sub CRATES_RE CountingSubst_call crates_repl ebuild;
  '(git_crates_repl, ebuild) ←
    re_sub GIT_CRATES_RE GitCratesSubst_call git_crates_repl ebuild;
  '(crate_license_repl, ebuild) ←
    re_sub CRATE_LICENSE_RE CountingSubst_call crate_license_repl ebuild;
  _ ← assert_count crates_repl (lit "CRATES=") 1;
  _ ← assert_count crate_license_repl
        (lit "Crate LICENSE+= (with marker comment)")
        (if crate_license then 1 else 0);
  if decide (count git_crates_repl = 0) then
    git_crates ← repl git_crates_repl ();
    match git_crates with
    | _ :: _ =>
        let git_crates_append := new_subst (λ _, Ok git_crates) in
        '(git_crates_append, ebuild) ←
          re_sub GIT_CRATES_APPEND_RE CountingSubst_call git_crates_append
            ebuild;
        _ ← assert_count git_crates_append
              (lit "CRATES= (while appending GIT_CRATES=)") 1;
        Ok ebuild
    | [] => Ok ebuild
    end
  else
    _ ← assert_count git_crates_repl (lit "GIT_CRATES=") 1;
    Ok ebuild.

(** The patcher without its state: each substitution is the text that it
    returns and the number of matches that it counts
    ([update_ebuild_unfold] proves that [update_ebuild] is this). *)

Definition check_count (desc : text) (found expected : nat) : result unit :=
  if decide (found ≠ expected)
  then Raise (RuntimeError (count_message desc found expected))
  else Ok ().

(** The substitution of the crate licenses calls [get_crate_LICENSE] once
    per match; when that raises, the substitution raises, unless there is
    no match. *)
Definition license_patch (crate_licenses : result text) (doc : text)
  : result text :=
  match crate_licenses with
  | Ok v => Ok (replace_scan CRATE_LICENSE_RE (counting_repl v) None doc 0)
  | Raise e =>
      if decide (match_count CRATE_LICENSE_RE doc = 0) then Ok doc
      else Raise e
  end.

(** The substitution of the git crates calls [get_GIT_CRATES] once per
    match, in the same way. *)
Definition git_patch (git_crates : result text) (doc : text) : result text :=
  match git_crates with
  | Ok v => Ok (replace_scan GIT_CRATES_RE (git_repl v) None doc 0)
  | Raise e =>
      if decide (match_count GIT_CRATES_RE doc = 0) then Ok doc
      else Raise e
  end.

Definition update_ebuild_pure (ebuild : text) (crates : list Crate)
    (distdir : Distdir) (crate_license : bool) (crate_tarball : option Path)
    (license_overrides : gmap text text) : result text :=
  let crates_v := crates_value crates crate_tarball in
  let doc1 := replace_scan CRATES_RE (counting_repl crates_v) None ebuild 0 in
  doc2 ← git_patch (get_GIT_CRATES crates distdir) doc1;
  doc3 ← license_patch
           (get_crate_LICENSE crates distdir license_overrides) doc2;
  _ ← check_count (lit "CRATES=") (match_count CRATES_RE ebuild) 1;
  _ ← check_count (lit "Crate LICENSE+= (with marker comment)")
        (match_count CRATE_LICENSE_RE doc2) (if crate_license then 1 else 0);
  if decide (match_count GIT_CRATES_RE doc1 = 0) then
    git_crates ← get_GIT_CRATES crates distdir;
    match git_crates with
    | _ :: _ =>
        _ ← check_count (lit "CRATES= (while appending GIT_CRATES=)")
              (match_count GIT_CRATES_APPEND_RE doc3) 1;
        Ok (replace_scan GIT_CRATES_APPEND_RE (counting_repl git_crates)
              None doc3 0)
    | [] => Ok doc3
    end
  else
    _ ← check_count (lit "GIT_CRATES=") (match_count GIT_CRATES_RE doc1) 1;
    Ok doc3.

End Ebuild.

(** ** Plain inputs

    The inputs for which the values that are rendered keep the layout of
    the document: no newline in the version of the program, in the entries
    of the crates, in the names and entries of the git crates and in the name
    of the tarball; no double quote in the entries of the crates; license
    values whose lines after the first are empty or start with a tab, and
    no double quote in the value of the crate licenses. *)

Definition plain_crates (crates : list Crate) (distdir : Distdir) : Prop :=
  Forall (λ e, (nl ∉ e) ∧ (dq ∉ e)) (file_entries crates) ∧
  Forall (λ c, is_git_crate c = true →
               (nl ∉ crate_name c) ∧
               (∀ e, get_git_crate_entry distdir c = Ok e → nl ∉ e))
    crates.

Section Plain.
Context `{Licensing} `{Runtime}.

Definition plain_inputs (pkg_meta : PackageMetadata) (crates : list Crate)
    (distdir : Distdir) (crate_license : bool) (crate_tarball : option Path)
    (license_overrides : gmap text text) : Prop :=
  (nl ∉ prog_version) ∧
  plain_crates crates distdir ∧
  (∀ p, crate_tarball = Some p → nl ∉ path_name p) ∧
  (∀ v, get_package_LICENSE (pm_license pkg_meta) = Ok v →
        indented false v = true) ∧
  (∀ v, crate_license = true →
        get_crate_LICENSE crates distdir license_overrides = Ok v →
        plain_value v).

End Plain.

(** ** A small licensing library

    A concrete [Licensing] and [Runtime] on which the functions above can be
    run: expressions are conjunctions of identifiers, written with [AND] and
    parentheses; simplifying sorts the identifiers and drops the repeated
    ones; a value is rendered on one line. *)

Module Conj.

Definition is_identifier (t : text) : bool :=
  bool_decide (t ∉ [lit "("; lit ")"; lit "AND"]).

Definition parse (s : text) : result (option (list text)) :=
  match filter (λ t, is_identifier t = true) (split s) with
  | [] => Ok None
  | ids => Ok (Some ids)
  end.

Definition canon (ids : list text) : list text :=
  sorted (elements (list_to_set ids : gset text)).

Definition licensing : Licensing := {|
  LicenseExpression := list text;
  spdx_parse := parse;
  simplify := canon;
  spdx_to_ebuild := join (lit " ");
  format_license_var := λ value _, value;
|}.

(** A set is iterated in the order of its sorted members, or in the reverse
    of it. *)
Definition runtime (rev : bool) : Runtime := {|
  set_iter := λ s, if rev then reverse (elements s) else elements s;
  today_year := 2024;
  prog_version := lit "0.13";
|}.

Definition distdir (licenses : gmap text text) : Distdir := {|
  get_git_crate_entry := λ c,
    Ok (lit "https://example.org/" ++ crate_name c
          ++ lit ";0123abcd;" ++ crate_name c ++ lit "-%commit%");
  get_package_directory := λ c, crate_name c;
  read_manifest := λ c,
    Ok (Some {| pm_name := crate_name c;
                pm_license := licenses !! crate_name c;
                pm_license_file := None;
                pm_description := None;
                pm_homepage := None |});
|}.

Definition file_crate (name version : string) : Crate :=
  FileCrate (lit name) (lit name ++ lit "-" ++ lit version ++ lit ".crate")
    (lit name ++ lit "@" ++ lit version).

Definition git_crate (name : string) : Crate :=
  GitCrate (lit name) (lit name ++ lit ".gh.tar.gz").

Definition pkg : PackageMetadata := {|
  pm_name := lit "demo";
  pm_license := Some (lit "MIT");
  pm_license_file := None;
  pm_description := Some (lit "A  demo package");
  pm_homepage := Some (lit "https://example.org/demo");
|}.

Definition licenses : gmap text text :=
  {[ lit "foo" := lit "MIT"; lit "bar" := lit "Apache-2.0";
     lit "baz" := lit "MIT" ]}.

(** Two short documents: one with a GIT_CRATES block, one without. *)
Definition ebuild_with_git : text :=
  line "EAPI=8" ++ [nl]
  ++ lit "CRATES=" ++ [dq; nl; tab] ++ line "old@0.1" ++ [dq; nl; nl]
  ++ line "declare -A GIT_CRATES=(" ++ [tab] ++ line "[baz]='x'"
  ++ line ")" ++ [nl] ++ line "inherit cargo".

Definition ebuild_without_git : text :=
  line "EAPI=8" ++ [nl]
  ++ lit "CRATES=" ++ [dq; nl; tab] ++ line "old@0.1" ++ [dq; nl; nl]
  ++ line "inherit cargo".

(** The document rendered for [pkg], the file crate [foo] and the git crate
    [baz], with the licenses of the crates. *)
Definition rendered : text :=
  line "# Copyright 2024 Gentoo Authors"
  ++ line "# Distributed under the terms of the GNU General Public License v2"
  ++ [nl]
  ++ line "# Autogenerated by pycargoebuild 0.13"
  ++ [nl]
  ++ line "EAPI=8"
  ++ [nl]
  ++ lit "CRATES=" ++ [dq; nl; tab] ++ line "foo@1.0" ++ [dq; nl; nl]
  ++ line "declare -A GIT_CRATES=("
  ++ [tab] ++ line "[baz]='https://example.org/baz;0123abcd;baz-%commit%'"
  ++ line ")"
  ++ [nl]
  ++ line "inherit cargo"
  ++ [nl]
  ++ lit "DESCRIPTION=" ++ [dq] ++ lit "A demo package" ++ [dq; nl]
  ++ lit "HOMEPAGE=" ++ [dq] ++ lit "https://example.org/demo" ++ [dq; nl]
  ++ lit "SRC_URI=" ++ [dq; nl; tab] ++ line "${CARGO_CRATE_URIS}"
  ++ [dq; nl; nl]
  ++ lit "LICENSE=" ++ [dq] ++ lit "MIT" ++ [dq; nl]
  ++ line "# Dependent crate licenses"
  ++ lit "LICENSE+=" ++ [dq] ++ lit " MIT" ++ [dq; nl]
  ++ lit "SLOT=" ++ [dq] ++ lit "0" ++ [dq; nl]
  ++ lit "KEYWORDS=" ++ [dq] ++ lit "~amd64" ++ [dq; nl].

(** A download directory in which the member at the place of the manifest
    is a directory in every archive: [TarFile.extractfile] returns [None]. *)
Definition bare_distdir : Distdir := {|
  get_git_crate_entry := λ c, Ok (crate_name c);
  get_package_directory := λ c, crate_name c;
  read_manifest := λ _, Ok None;
|}.

(** A download directory whose archives have no member at the place of the
    manifest: [TarFile.extractfile] raises [KeyError]. *)
Definition memberless_distdir : Distdir := {|
  get_git_crate_entry := λ c, Ok (crate_name c);
  get_package_directory := λ c, crate_name c;
  read_manifest := λ c,
    Raise (KeyError (lit "filename '" ++ crate_name c
                       ++ lit "/Cargo.toml' not found"));
|}.

(** A download directory in which no archive can be opened. *)
Definition unreadable_distdir : Distdir := {|
  get_git_crate_entry := λ c,
    Raise (OSError (lit "No such file or directory: " ++ crate_filename c));
  get_package_directory := λ c, crate_name c;
  read_manifest := λ c,
    Raise (OSError (lit "No such file or directory: " ++ crate_filename c));
|}.

(** A document without a CRATES assignment that has the marked LICENSE
    assignment. *)
Definition ebuild_without_CRATES : text :=
  line "EAPI=8" ++ [nl]
  ++ line "inherit cargo" ++ [nl]
  ++ line "# Dependent crate licenses"
  ++ lit "LICENSE+=" ++ [dq] ++ lit " MIT" ++ [dq; nl].


(** A document with two GIT_CRATES blocks. *)
Definition ebuild_two_git : text :=
  line "EAPI=8" ++ [nl]
  ++ lit "CRATES=" ++ [dq; nl; tab] ++ line "old@0.1" ++ [dq; nl; nl]
  ++ line "declare -A GIT_CRATES=(" ++ [tab] ++ line "[baz]='x'"
  ++ line ")" ++ [nl]
  ++ line "declare -A GIT_CRATES=(" ++ [tab] ++ line "[foo]='y'"
  ++ line ")" ++ [nl] ++ line "inherit cargo".

(** A document whose CRATES assignment is written with single quotes. *)
Definition ebuild_single_quoted : text :=
  line "EAPI=8" ++ [nl]
  ++ lit "CRATES=" ++ [sq; nl; tab] ++ line "old@0.1" ++ [sq; nl; nl]
  ++ line "inherit cargo".

(** A crate whose entry ends in a double quote. *)
Definition quoted_crate : Crate :=
  FileCrate (lit "foo") (lit "foo-1.0.crate") (lit "foo@1.0" ++ [dq]).

End Conj.

(** ** A licensing library with precedence

    A second small library, nearer to the one that the package uses: an
    expression has conjunctions and disjunctions, [AND] binds tighter than
    [OR], parentheses group, and [simplify] gives the disjunctive normal
    form of the expression. *)

Module Prec.

Inductive expr :=
| Sym (a : text)
| And (e1 e2 : expr)
| Or (e1 e2 : expr).

Inductive token :=
| TOpen
| TClose
| TAnd
| TOr
| TId (a : text).

Definition classify (t : text) : token :=
  if decide (t = lit "(") then TOpen
  else if decide (t = lit ")") then TClose
  else if decide (t = lit "AND") then TAnd
  else if decide (t = lit "OR") then TOr
  else TId t.

Definition mk_and (ands : option expr) (e : expr) : expr :=
  match ands with
  | Some a => And a e
  | None => e
  end.

Definition mk_or (ors : option expr) (e : expr) : expr :=
  match ors with
  | Some o => Or o e
  | None => e
  end.

(** The parser reads the tokens from left to right.  It is in front of an
    operand ([Want]) or behind one ([Have]); [ors] has the terms of the
    disjunction that are read, [ands] the factors of the term that is being
    read, and the stack has the two for every parenthesis that is open. *)
Inductive state :=
| Want (ors ands : option expr) (stack : list (option expr * option expr))
| Have (ors : option expr) (term : expr)
       (stack : list (option expr * option expr)).

Definition step (st : state) (t : token) : option state :=
  match st with
  | Want ors ands stack =>
      match t with
      | TOpen => Some (Want None None ((ors, ands) :: stack))
      | TId a => Some (Have ors (mk_and ands (Sym a)) stack)
      | _ => None
      end
  | Have ors term stack =>
      match t with
      | TAnd => Some (Want ors (Some term) stack)
      | TOr => Some (Want (Some (mk_or ors term)) None stack)
      | TClose =>
          match stack with
          | (ors', ands') :: stack =>
              Some (Have ors' (mk_and ands' (mk_or ors term)) stack)
          | [] => None
          end
      | _ => None
      end
  end.

Fixpoint run (st : state) (ts : list token) : option state :=
  match ts with
  | [] => Some st
  | t :: ts =>
      match step st t with
      | Some st' => run st' ts
      | None => None
      end
  end.

Definition parse (s : text) : result (option expr) :=
  match classify <$> split s with
  | [] => Ok None
  | ts =>
      match run (Want None None []) ts with
      | Some (Have ors term []) => Ok (Some (mk_or ors term))
      | _ => Raise (ExpressionError (lit "Invalid license expression: " ++ s))
      end
  end.

(** The disjunctive normal form: a set of clauses, each the set of the
    licenses that it asks for. *)
Definition cross (A B : gset (gset text)) : gset (gset text) :=
  set_bind (λ a, set_map (λ b, a ∪ b) B) A.

Fixpoint dnf (e : expr) : gset (gset text) :=
  match e with
  | Sym a => {[ {[ a ]} ]}
  | And e1 e2 => cross (dnf e1) (dnf e2)
  | Or e1 e2 => dnf e1 ∪ dnf e2
  end.

Definition of_clause (c : gset text) : expr :=
  match sorted (elements c) with
  | [] => Sym []
  | a :: l => foldl (λ e b, And e (Sym b)) (Sym a) l
  end.

Definition of_dnf (d : gset (gset text)) : expr :=
  match elements d with
  | [] => Sym []
  | c :: l => foldl (λ e c', Or e (of_clause c')) (of_clause c) l
  end.

Definition group (e : expr) (rendered : text) : text :=
  match e with
  | And _ _ => lit "( " ++ rendered ++ lit " )"
  | _ => rendered
  end.

Fixpoint render (e : expr) : text :=
  match e with
  | Sym a => a
  | And e1 e2 => render e1 ++ lit " " ++ render e2
  | Or e1 e2 =>
      lit "|| ( " ++ group e1 (render e1) ++ lit " "
        ++ group e2 (render e2) ++ lit " )"
  end.

Definition licensing : Licensing := {|
  LicenseExpression := expr;
  spdx_parse := parse;
  simplify := λ e, of_dnf (dnf e);
  spdx_to_ebuild := render;
  format_license_var := λ value _, value;
|}.

Definition licenses : gmap text text :=
  {[ lit "foo" := lit "MIT OR Apache-2.0"; lit "bar" := lit "BSD-3-Clause" ]}.






End Prec.


(** * Properties *)

(** ** The order on text *)

Section Order.

Lemma N_of_ascii_inj a b : N_of_ascii a = N_of_ascii b → a = b.
Proof.
  intros E. rewrite <- (ascii_N_embedding a), <- (ascii_N_embedding b).
  by rewrite E.
Qed.

Lemma leb_refl a : leb a a = true.
Proof.
  induction a as [|x a IH]; simpl; [done|].
  by rewrite N.ltb_irrefl, N.eqb_refl.
Qed.

Lemma leb_cons x a y b :
  leb (x :: a) (y :: b) = true ↔
  (N_of_ascii x < N_of_ascii y)%N ∨ x = y ∧ leb a b = true.
Proof.
  simpl. destruct (N.ltb_spec (N_of_ascii x) (N_of_ascii y)) as [Hlt|Hge].
  - split; auto.
  - destruct (N.eqb_spec (N_of_ascii x) (N_of_ascii y)) as [Heq|Hne].
    + apply N_of_ascii_inj in Heq. split; [auto|]. intros [?|[_ ?]]; [lia|done].
    + split; [done|]. intros [?|[-> _]]; [lia|done].
Qed.

Lemma leb_trans a b c : leb a b = true → leb b c = true → leb a c = true.
Proof.
  revert b c. induction a as [|x a IH]; intros [|y b] [|z c]; try done.
  rewrite !leb_cons. intros [H1|[-> H1]] [H2|[-> H2]]; eauto.
  left. lia.
Qed.

Lemma leb_antisym a b : leb a b = true → leb b a = true → a = b.
Proof.
  revert b. induction a as [|x a IH]; intros [|y b]; try done.
  rewrite !leb_cons. intros [H1|[-> H1]] [H2|[E H2]]; try lia.
  - subst. lia.
  - f_equal. auto.
Qed.

Lemma leb_total a b : leb a b = true ∨ leb b a = true.
Proof.
  revert b. induction a as [|x a IH]; intros [|y b]; auto.
  rewrite !leb_cons.
  destruct (N.lt_trichotomy (N_of_ascii x) (N_of_ascii y)) as [?|[E|?]]; auto.
  apply N_of_ascii_inj in E as ->. destruct (IH b); auto.
Qed.

Global Instance le_po : PartialOrder le.
Proof.
  split; [split|].
  - intros a. apply leb_refl.
  - intros a b c. apply leb_trans.
  - intros a b. apply leb_antisym.
Qed.

Global Instance le_total : Total le.
Proof. intros a b. apply leb_total. Qed.

Lemma Sorted_sorted l : Sorted le (sorted l).
Proof. apply (Sorted_merge_sort le). Qed.

Lemma sorted_Permutation l : sorted l ≡ₚ l.
Proof. apply merge_sort_Permutation. Qed.

(** The sorted list depends on the elements only. *)
Lemma sorted_perm l1 l2 : l1 ≡ₚ l2 → sorted l1 = sorted l2.
Proof.
  intros Hp. apply (Sorted_unique le); try apply Sorted_sorted.
  by rewrite !sorted_Permutation.
Qed.

Lemma sorted_of_Sorted l : Sorted le l → sorted l = l.
Proof.
  intros Hs. apply (Sorted_unique le); [apply Sorted_sorted|done|].
  apply sorted_Permutation.
Qed.

(** Sorting commutes with a common first character. *)
Lemma sorted_cons_fmap c l :
  sorted ((λ e, c :: e) <$> l) = (λ e, c :: e) <$> sorted l.
Proof.
  rewrite <- (sorted_of_Sorted ((λ e, c :: e) <$> sorted l)).
  - apply sorted_perm. by rewrite sorted_Permutation.
  - apply (Sorted_fmap _ le), Sorted_sorted.
    intros a b Hab. apply leb_cons. by right.
Qed.

End Order.

(** ** CRATES *)

Section Crates.

Lemma file_entries_perm crates crates' :
  crates ≡ₚ crates' → file_entries crates ≡ₚ file_entries crates'.
Proof. intros Hp. unfold file_entries. by rewrite Hp. Qed.

Lemma get_CRATES_cons c crates :
  get_CRATES (c :: crates) =
  [nl] ++ join [nl] ((λ e, tab :: e) <$> sorted (file_entries (c :: crates)))
       ++ [nl].
Proof. unfold get_CRATES. by rewrite sorted_cons_fmap. Qed.

(** C7: the entries of the CRATES value are the entries of the file crates
    in lexicographic order, each indented by a tab, and the value is the
    same for every permutation of the crate list. *)
Theorem get_CRATES_sorted_stable (crates crates' : list Crate) :
  crates ≡ₚ crates' →
  get_CRATES crates' = get_CRATES crates ∧
  (crates = [] ∧ get_CRATES crates = [nl] ∨
   crates ≠ [] ∧
   ∃ entries,
     entries ≡ₚ file_entries crates ∧ Sorted le entries ∧
     get_CRATES crates =
       [nl] ++ join [nl] ((λ e, tab :: e) <$> entries) ++ [nl]).
Proof.
  intros Hp. split.
  - destruct crates as [|c crates], crates' as [|c' crates'].
    + done.
    + by apply Permutation_nil_cons in Hp.
    + symmetry in Hp. by apply Permutation_nil_cons in Hp.
    + rewrite !get_CRATES_cons.
      by rewrite (sorted_perm _ _ (file_entries_perm _ _ Hp)).
  - destruct crates as [|c crates]; [by left|right].
    split; [done|]. exists (sorted (file_entries (c :: crates))).
    split; [apply sorted_Permutation|].
    split; [apply Sorted_sorted|apply get_CRATES_cons].
Qed.

Lemma get_CRATES_sorted_stable_witness :
  let crates := [Conj.file_crate "foo" "1.0"; Conj.git_crate "baz";
                 Conj.file_crate "bar" "0.2"] in
  get_CRATES (reverse crates) = get_CRATES crates ∧
  get_CRATES crates = [nl] ++ [tab] ++ lit "bar@0.2" ++ [nl]
                        ++ [tab] ++ lit "foo@1.0" ++ [nl].
Proof.
  intros crates.
  destruct (get_CRATES_sorted_stable crates (reverse crates)) as [Heq _].
  - symmetry. apply reverse_Permutation.
  - split; [exact Heq|reflexivity].
Defined.

(** C10: a crate list that is not empty and has git crates only gives two
    newlines. *)
Theorem get_CRATES_git_only (crates : list Crate) :
  crates ≠ [] →
  forallb is_git_crate crates = true →
  get_CRATES crates = [nl; nl].
Proof.
  intros Hne Hgit.
  assert (file_entries crates = []) as Hnone.
  { clear Hne. induction crates as [|[] crates IH]; simpl in *; try done.
    auto. }
  destruct crates as [|c crates]; [done|].
  unfold get_CRATES. by rewrite Hnone.
Qed.

Lemma get_CRATES_git_only_witness :
  get_CRATES [Conj.git_crate "baz"; Conj.git_crate "qux"] = [nl; nl].
Proof. apply get_CRATES_git_only; [discriminate|reflexivity]. Defined.

End Crates.

(** ** Rendering *)

Section Render.
Context `{Licensing} `{Runtime}.

(** C8: the CRATES value of an empty crate list is one newline, and with
    [crate_tarball] set the rendered document has that value whatever the
    crate list. *)
Theorem get_ebuild_tarball_CRATES (pkg_meta : PackageMetadata)
    (crates : list Crate) (distdir : Distdir) (crate_license : bool)
    (crate_tarball : Path) (license_overrides : gmap text text) (doc : text) :
  get_ebuild pkg_meta crates distdir crate_license (Some crate_tarball)
    license_overrides = Ok doc →
  get_CRATES [] = [nl] ∧
  crates_value crates (Some crate_tarball) = [nl] ∧
  ∃ rest,
    doc = lit "# Copyright " ++ str_of_nat today_year ++ line " Gentoo Authors"
          ++ line "# Distributed under the terms of the GNU General Public License v2"
          ++ [nl]
          ++ lit "# Autogenerated by pycargoebuild " ++ prog_version ++ [nl]
          ++ [nl]
          ++ line "EAPI=8"
          ++ [nl]
          ++ lit "CRATES=" ++ [dq] ++ [nl] ++ [dq] ++ rest.
Proof.
  intros Hdoc. split_and!; [done..|].
  unfold get_ebuild in Hdoc.
  destruct (get_crate_LICENSE crates distdir license_overrides) as [cl|];
    [|done].
  destruct (bash_dquote_escape _) as [description|]; [|done].
  destruct (url_dquote_escape _) as [homepage|]; [|done].
  destruct (get_GIT_CRATES crates distdir) as [opt_git_crates|]; [|done].
  destruct (get_package_LICENSE _) as [pkg_license|]; [|done].
  cbn [mbind result_bind] in Hdoc.
  apply (f_equal (λ r, match r with Ok d => d | Raise _ => [] end)) in Hdoc.
  cbv beta iota in Hdoc. subst doc.
  change (crates_value crates (Some crate_tarball)) with [nl].
  unfold EBUILD_TEMPLATE_START. rewrite <- !(assoc_L (++)).
  eexists. reflexivity.
Qed.

End Render.

Lemma get_ebuild_tarball_CRATES_witness :
  ∃ rest,
    @get_ebuild Conj.licensing (Conj.runtime false) Conj.pkg
      [Conj.file_crate "foo" "1.0"; Conj.git_crate "baz"]
      (Conj.distdir Conj.licenses) true
      (Some {| path_name := lit "crates.tar.xz" |}) ∅
    = Ok (line "# Copyright 2024 Gentoo Authors"
          ++ line "# Distributed under the terms of the GNU General Public License v2"
          ++ [nl]
          ++ line "# Autogenerated by pycargoebuild 0.13"
          ++ [nl]
          ++ line "EAPI=8"
          ++ [nl]
          ++ lit "CRATES=" ++ [dq] ++ [nl] ++ [dq] ++ rest).
Proof.
  destruct (@get_ebuild Conj.licensing (Conj.runtime false) Conj.pkg
              [Conj.file_crate "foo" "1.0"; Conj.git_crate "baz"]
              (Conj.distdir Conj.licenses) true
              (Some {| path_name := lit "crates.tar.xz" |}) ∅)
    as [doc|] eqn:Hdoc; [|by vm_compute in Hdoc].
  destruct (get_ebuild_tarball_CRATES _ _ _ _ _ _ _ Hdoc)
    as (_ & _ & rest & ->).
  by exists rest.
Defined.

(** ** LICENSE *)

Section LicenseProps.

Lemma mapM_cons_Ok {A B} (f : A → result B) x l bs :
  mapM f (x :: l) = Ok bs ↔
  ∃ b bs0, f x = Ok b ∧ mapM f l = Ok bs0 ∧ bs = b :: bs0.
Proof.
  simpl. destruct (f x) as [b|e]; simpl.
  - destruct (mapM f l) as [bs0|e]; simpl.
    + split; [intros [= <-]; eauto|]. by intros (? & ? & [= <-] & [= <-] & ->).
    + split; [done|]. by intros (? & ? & _ & ? & _).
  - split; [done|]. by intros (? & ? & ? & _).
Qed.

(** A comprehension over a permuted list gives the permuted results. *)
Lemma mapM_perm {A B} (f : A → result B) l l' bs :
  l ≡ₚ l' → mapM f l = Ok bs → ∃ bs', mapM f l' = Ok bs' ∧ bs ≡ₚ bs'.
Proof.
  intros Hp. revert bs.
  induction Hp as [|x l l' Hp IH|x y l|l l' l'' _ IH1 _ IH2]; intros bs.
  - intros [= <-]. by exists [].
  - rewrite mapM_cons_Ok. intros (b & bs0 & Hx & Hl & ->).
    destruct (IH _ Hl) as (bs' & Hl' & Hbs). exists (b :: bs').
    split; [|by constructor]. apply mapM_cons_Ok. eauto.
  - rewrite !mapM_cons_Ok.
    intros (b & bs0 & Hy & (b' & bs1 & Hx & Hl & ->)%mapM_cons_Ok & ->).
    exists (b' :: b :: bs1). split; [|by constructor].
    apply mapM_cons_Ok. exists b', (b :: bs1). split_and!; [done| |done].
    apply mapM_cons_Ok. eauto.
  - intros Hl. destruct (IH1 _ Hl) as (bs' & Hl' & Hbs).
    destruct (IH2 _ Hl') as (bs'' & Hl'' & Hbs').
    exists bs''. split; [done|]. by etrans.
Qed.


Lemma set_iter_empty (iter : gset (option text) → list (option text)) :
  set_iter_ok iter → iter ∅ = [].
Proof.
  intros Hok. destruct (Hok ∅) as [_ He].
  destruct (iter ∅) as [|x l]; [done|].
  exfalso. eapply (not_elem_of_empty (C:=gset (option text)) x), He. by left.
Qed.



(** C9: when no crate contributes a license, the set is empty and
    [get_crate_LICENSE] returns the empty string, given that the library
    parses the empty expression to [None]. *)
Theorem get_crate_LICENSE_empty `{Licensing} `{Runtime}
    (crates : list Crate) (distdir : Distdir)
    (license_overrides : gmap text text) (members : list (option text)) :
  parse_empty_is_none →
  set_iter_ok set_iter →
  contributed_licenses crates distdir license_overrides = Ok members →
  Forall (λ x, x = None) members →
  get_crate_LICENSE crates distdir license_overrides = Ok [].
Proof.
  intros Hparse Hiter Hm Hnone. unfold get_crate_LICENSE. rewrite Hm. simpl.
  assert (list_to_set members ∖ {[None]} = (∅ : gset (option text))) as ->.
  { apply set_eq. intros x.
    rewrite elem_of_difference, elem_of_list_to_set, elem_of_singleton.
    rewrite Forall_forall in Hnone. split; [|by intros ?%not_elem_of_empty].
    intros [Hx Hne]. by apply Hnone in Hx. }
  rewrite (set_iter_empty _ Hiter). unfold combine_licenses. simpl.
  by rewrite Hparse.
Qed.

(** *** The small licensing library keeps the contract *)

Lemma split_go_app_space cur a c b :
  is_space c = true →
  split_go cur (a ++ c :: b) = split_go cur a ++ split b.
Proof.
  intros Hc. revert cur. induction a as [|x a IH]; intros cur; simpl.
  - rewrite Hc. by destruct cur.
  - destruct (is_space x); [|apply IH].
    destruct cur; rewrite IH; done.
Qed.

Lemma split_app_space a b :
  split (a ++ " "%char :: b) = split a ++ split b.
Proof. by apply split_go_app_space. Qed.



(** *** The library with precedence keeps the contract *)










(** *** The normal form of a conjunction *)








Lemma Conj_set_iter_ok rev : set_iter_ok (@set_iter (Conj.runtime rev)).
Proof.
  intros s. cbn. destruct rev.
  - split; [rewrite reverse_Permutation; apply NoDup_elements|].
    intros x. by rewrite elem_of_reverse, elem_of_elements.
  - split; [apply NoDup_elements|]. intros x. apply elem_of_elements.
Qed.



Lemma get_crate_LICENSE_empty_witness :
  @get_crate_LICENSE Conj.licensing (Conj.runtime false)
    [Conj.file_crate "nolicense" "1.0"; Conj.git_crate "unknown"]
    (Conj.distdir Conj.licenses) ∅ = Ok [].
Proof.
  apply (get_crate_LICENSE_empty _ _ _ [None; None]).
  - reflexivity.
  - apply Conj_set_iter_ok.
  - vm_compute. reflexivity.
  - repeat constructor.
Defined.

End LicenseProps.

(** ** The matcher on the patterns of the module *)

Section Matching.

Lemma startswith_app p s : startswith p (p ++ s) = true.
Proof. induction p; simpl; [done|]. by rewrite decide_True. Qed.

Lemma startswith_spec p s : startswith p s = true → s = p ++ drop (length p) s.
Proof.
  revert s. induction p as [|a p IH]; intros [|b s]; simpl; try done.
  case_decide; [|done]. intros Hs. subst. f_equal. auto.
Qed.

Lemma startswith_iff p s : startswith p s = true ↔ ∃ t, s = p ++ t.
Proof.
  split; [intros Hs; eexists; by apply startswith_spec|].
  intros [t ->]. apply startswith_app.
Qed.

Lemma find_close_Some q s n :
  find_close q s = Some n →
  ∃ body rest, s = body ++ q :: rest ∧ length body = n ∧
               first_close q body rest.
Proof.
  revert n. induction s as [|c s IH]; intros n; simpl; [done|].
  destruct (bool_decide (c = q) && eol s) eqn:Hc.
  - intros [= <-]. apply andb_true_iff in Hc as [->%bool_decide_eq_true Heol].
    exists [], s. split_and!; [done..|]. split; [done|]. by intros [|??] ?.
  - destruct (find_close q s) as [n'|] eqn:Hf; [|done]. intros [= <-].
    destruct (IH _ eq_refl) as (body & rest & -> & Hlen & Heol & Hmin).
    exists (c :: body), rest. simpl. split_and!; [done|by rewrite Hlen|].
    split; [done|]. intros [|x b1] b2; simpl.
    + intros [= -> <-]. by rewrite bool_decide_eq_true_2 in Hc.
    + intros [= -> Hb2]. eauto.
Qed.

Lemma find_close_first q body rest :
  first_close q body rest → find_close q (body ++ q :: rest) = Some (length body).
Proof.
  intros [Heol Hmin]. induction body as [|c body IH]; simpl.
  - by rewrite bool_decide_eq_true_2, Heol.
  - rewrite IH; [|intros b1 b2 ->; by apply (Hmin (c :: b1))].
    destruct (bool_decide (c = q)) eqn:Hc; [|done].
    apply bool_decide_eq_true in Hc as ->.
    by rewrite (Hmin [] body).
Qed.

(** The lazy star followed by a test that succeeds exactly where a closing
    delimiter ends a line stops at the first such place. *)
Lemma lazy_star_close {R} q (F : text → R)
    (k : option ascii → text → option R) prev s :
  (∀ p t, k p t = match t with
                  | c :: t' => if bool_decide (c = q) && eol t'
                               then Some (F t') else None
                  | [] => None
                  end) →
  lazy_star k prev s = n ← find_close q s; Some (F (drop (S n) s)).
Proof.
  intros Hk. revert prev. induction s as [|c s IH]; intros prev; simpl.
  - by rewrite Hk.
  - rewrite Hk. destruct (bool_decide (c = q) && eol s); [done|].
    rewrite IH. by destruct (find_close q s).
Qed.

Lemma find_close_None_or q s :
  find_close q s = None ∨
  ∃ body rest, s = body ++ q :: rest ∧ find_close q s = Some (length body) ∧
               first_close q body rest.
Proof.
  destruct (find_close q s) as [n|] eqn:Hf; [right|by left].
  destruct (find_close_Some _ _ _ Hf) as (body & rest & -> & <- & Hfc). eauto.
Qed.

Lemma take_sub_length {A} (a b : list A) :
  take (length (a ++ b) - length b) (a ++ b) = a.
Proof. rewrite length_app. apply take_app_length'. lia. Qed.

Lemma take_sub_length_cons {A} (a : list A) x b :
  take (length (a ++ x :: b) - length b) (a ++ x :: b) = a ++ [x].
Proof. rewrite (cons_middle x a b), (assoc_L (++)). apply take_sub_length. Qed.

Lemma take_one_sub {A} (x : A) l :
  take (length (x :: l) - length l) (x :: l) = [x].
Proof. apply (take_sub_length [x] l). Qed.

Lemma drop_S_app_cons {A} (a : list A) x b :
  drop (S (length a)) (a ++ x :: b) = b.
Proof. induction a; simpl; [by rewrite drop_0|done]. Qed.

Lemma take_app_cons_length {A} (a : list A) x b :
  take (length a) (a ++ x :: b) = a.
Proof. apply take_app_length. Qed.

Lemma group_lookup_eq n t g : group_lookup ((n, t) :: g) n = Some t.
Proof. simpl. by rewrite decide_True. Qed.

Lemma group_lookup_ne n n' t g :
  n ≠ n' → group_lookup ((n, t) :: g) n' = group_lookup g n'.
Proof. intros. simpl. by rewrite decide_False. Qed.

(** What follows the lazy star in a quoted region: the closing quote and
    the end of a line. *)
Lemma backref_eol_test {R} (mk : text → R) q (t : text) :
  (if startswith [q] t
   then if eol (drop (length [q]) t) then Some (mk (drop (length [q]) t))
        else None
   else None)
  = match t with
    | c :: t' => if bool_decide (c = q) && eol t' then Some (mk t') else None
    | [] => None
    end.
Proof.
  destruct t as [|c t]; simpl; [done|].
  case_decide; subst.
  - by rewrite bool_decide_eq_true_2, drop_0.
  - by rewrite bool_decide_eq_false_2.
Qed.

(** *** Patterns that match the same *)

Lemma lazy_star_ext {R} (k k' : option ascii → text → option R) prev s :
  (∀ p t, k p t = k' p t) → lazy_star k prev s = lazy_star k' prev s.
Proof.
  intros Hk. revert prev. induction s as [|c s IH]; intros prev; simpl.
  - by rewrite Hk.
  - by rewrite Hk, IH.
Qed.

Lemma greedy_star_ext {R} (k k' : option ascii → text → option R) prev s :
  (∀ p t, k p t = k' p t) → greedy_star k prev s = greedy_star k' prev s.
Proof.
  intros Hk. revert prev. induction s as [|c s IH]; intros prev; simpl.
  - by rewrite Hk.
  - by rewrite Hk, IH.
Qed.

Lemma exec_ext {R} r prev s g (k k' : option ascii → text → groups → option R) :
  (∀ p t g', k p t g' = k' p t g') →
  exec r prev s g k = exec r prev s g k'.
Proof.
  revert prev s g k k'.
  induction r as [t|cs| | |r1 IH1 r2 IH2|r1 IH1| | |name r1 IH1|name];
    intros prev s g k k' Hk; cbn [exec]; rewrite ?Hk; try done.
  - destruct s; [done|]. by rewrite Hk.
  - apply IH1. intros. by apply IH2.
  - by rewrite (IH1 _ _ _ k k' Hk).
  - apply lazy_star_ext. intros. apply Hk.
  - apply greedy_star_ext. intros. apply Hk.
  - apply IH1. intros. apply Hk.
  - destruct (group_lookup g name); [|done]. by rewrite Hk.
Qed.

Lemma re_equiv_refl r : re_equiv r r.
Proof. by intros R prev s g k. Qed.

Lemma re_equiv_sym r r' : re_equiv r r' → re_equiv r' r.
Proof. by intros Hr R prev s g k. Qed.

Lemma re_equiv_trans r1 r2 r3 : re_equiv r1 r2 → re_equiv r2 r3 → re_equiv r1 r3.
Proof. intros H1 H2 R prev s g k. by rewrite H1. Qed.

Lemma re_equiv_Seq r1 r1' r2 r2' :
  re_equiv r1 r1' → re_equiv r2 r2' → re_equiv (r1 ⋅ r2) (r1' ⋅ r2').
Proof.
  intros H1 H2 R prev s g k. cbn [exec]. rewrite H1.
  apply exec_ext. intros. apply H2.
Qed.

Lemma re_equiv_Group name r r' :
  re_equiv r r' → re_equiv (Group name r) (Group name r').
Proof. intros H1 R prev s g k. cbn [exec]. apply H1. Qed.

Lemma re_equiv_Seq_assoc r1 r2 r3 :
  re_equiv ((r1 ⋅ r2) ⋅ r3) (r1 ⋅ r2 ⋅ r3).
Proof. by intros R prev s g k. Qed.

Lemma startswith_app_split a b s :
  startswith (a ++ b) s = startswith a s && startswith b (drop (length a) s).
Proof.
  revert s. induction a as [|x a IH]; intros s; simpl.
  - by rewrite drop_0.
  - destruct s as [|y s]; [done|]. case_decide; [apply IH|done].
Qed.

Lemma last_char_app prev a b :
  last_char (last_char prev a) b = last_char prev (a ++ b).
Proof.
  unfold last_char. rewrite last_app. by destruct (last b), (last a).
Qed.

Lemma re_equiv_Lit_Lit a b : re_equiv (Lit a ⋅ Lit b) (Lit (a ++ b)).
Proof.
  intros R prev s g k. cbn [exec]. rewrite startswith_app_split.
  destruct (startswith a s); [|done]. cbn [andb].
  destruct (startswith b _); [|done].
  by rewrite last_char_app, drop_drop, length_app.
Qed.

Lemma re_equiv_CharSet_Lit c : re_equiv (CharSet [c]) (Lit [c]).
Proof.
  intros R prev s g k. cbn [exec]. destruct s as [|x s]; simpl; [done|].
  case_decide; subst.
  - by rewrite bool_decide_eq_true_2, drop_0 by (by left).
  - rewrite bool_decide_eq_false_2; [done|]. by intros ->%list_elem_of_singleton.
Qed.

Lemma re_match_equiv r r' prev s :
  re_equiv r r' → re_match r prev s = re_match r' prev s.
Proof. intros Hr. apply Hr. Qed.

(** A quoted region after a literal head, in the shape of [CRATES_RE]. *)
Lemma quoted_re_match head prev s :
  re_match (Bol ⋅ Group "start" (Lit head ⋅ Group "delim" (CharSet [sq; dq]))
                ⋅ DotStarLazy ⋅ Backref "delim" ⋅ Eol) prev s
  = quoted_region head prev s.
Proof.
  unfold re_match, quoted_region. cbn [exec].
  destruct (bol prev); [|done]. cbn [andb].
  destruct (startswith head s) eqn:Hs; [|done].
  apply startswith_spec in Hs. set (s1 := drop (length head) s) in *.
  destruct s1 as [|q s']; [done|].
  destruct (bool_decide (q ∈ [sq; dq])); [|done].
  rewrite take_one_sub.
  replace (take (length s - length s') s) with (head ++ [q])
    by (rewrite Hs; symmetry; apply take_sub_length_cons).
  rewrite group_lookup_ne, group_lookup_eq by done.
  erewrite (lazy_star_close q
    (λ t', {| m_text := take (length s - length t') s;
              m_groups := [("start", head ++ [q]); ("delim", [q])] |})).
  - destruct (find_close_None_or q s') as [->|(body & rest & -> & -> & _)];
      [done|].
    cbn [mbind option_bind]. rewrite drop_S_app_cons, take_app_cons_length.
    f_equal. f_equal. rewrite Hs.
    change (q :: body ++ q :: rest) with ((q :: body) ++ q :: rest).
    rewrite (assoc_L (++) head), take_sub_length_cons.
    by rewrite <- (assoc_L (++)).
  - intros p t.
    apply (backref_eol_test
             (λ t', Build_Match (take (length s - length t') s) _)).
Qed.

Lemma CRATES_RE_match prev s :
  re_match CRATES_RE prev s = quoted_region (lit "CRATES=") prev s.
Proof. apply quoted_re_match. Qed.

Lemma re_equiv_Lit_Seq a b r : re_equiv (Lit a ⋅ Lit b ⋅ r) (Lit (a ++ b) ⋅ r).
Proof.
  eapply re_equiv_trans; [apply re_equiv_sym, re_equiv_Seq_assoc|].
  apply re_equiv_Seq; [apply re_equiv_Lit_Lit|apply re_equiv_refl].
Qed.

Lemma re_equiv_Lit_CharSet a c r :
  re_equiv (Lit a ⋅ CharSet [c] ⋅ r) (Lit (a ++ [c]) ⋅ r).
Proof.
  eapply re_equiv_trans; [|apply re_equiv_Lit_Seq].
  apply re_equiv_Seq; [apply re_equiv_refl|].
  apply re_equiv_Seq; [apply re_equiv_CharSet_Lit|apply re_equiv_refl].
Qed.

Lemma CRATE_LICENSE_RE_match prev s :
  re_match CRATE_LICENSE_RE prev s
  = quoted_region (line "# Dependent crate licenses" ++ lit "LICENSE+=")
      prev s.
Proof.
  rewrite <- quoted_re_match. apply re_match_equiv.
  apply re_equiv_Seq; [apply re_equiv_refl|].
  apply re_equiv_Seq; [|apply re_equiv_refl].
  apply re_equiv_Group.
  eapply re_equiv_trans; [apply re_equiv_Lit_Seq|].
  eapply re_equiv_trans; [apply (re_equiv_Lit_CharSet _ "+")|].
  eapply re_equiv_trans; [apply re_equiv_Lit_Seq|].
  exact (re_equiv_refl _).
Qed.

(** The tail of a CRATES assignment, for the pattern that appends. *)
Lemma GIT_CRATES_APPEND_RE_match prev s :
  re_match GIT_CRATES_APPEND_RE prev s
  = quoted_region_tail (lit "CRATES=") prev s.
Proof.
  unfold re_match, GIT_CRATES_APPEND_RE, quoted_region_tail. cbn [exec].
  destruct (bol prev); [|done]. cbn [andb].
  destruct (startswith (lit "CRATES=") s) eqn:Hs; [|done].
  apply startswith_spec in Hs. set (s1 := drop (length (lit "CRATES=")) s) in *.
  destruct s1 as [|q s']; [done|].
  destruct (bool_decide (q ∈ [sq; dq])); [|done].
  rewrite take_one_sub, group_lookup_eq.
  erewrite (lazy_star_close q
    (λ t', {| m_text := take (length s - length t') s;
              m_groups := [("delim", []);
                           ("start", take (length s - length t') s);
                           ("delim2", [q])] |})).
  - destruct (find_close_None_or q s') as [->|(body & rest & -> & -> & _)];
      [done|].
    cbn [mbind option_bind]. rewrite drop_S_app_cons, take_app_cons_length.
    assert (take (length s - length rest) s = lit "CRATES=" ++ q :: body ++ [q])
      as ->; [|done].
    rewrite Hs.
    change (q :: body ++ q :: rest) with ((q :: body) ++ q :: rest).
    rewrite (assoc_L (++) (lit "CRATES=")), take_sub_length_cons.
    by rewrite <- (assoc_L (++)).
  - intros p [|c t]; simpl; [done|].
    case_decide; subst.
    + rewrite bool_decide_eq_true_2, !drop_0, Nat.sub_diag by done. simpl.
      by destruct (eol t).
    + by rewrite bool_decide_eq_false_2.
Qed.

(** The separator of a GIT_CRATES block: two newlines are tried first. *)
Lemma ws_group_exec {R} T prev s
    (k : option ascii → text → groups → option R) :
  exec (Group "ws" (Lit [nl] ⋅ Opt (Lit [nl])) ⋅ T) prev s [] k
  = match s with
    | c :: s1 =>
        if decide (c = nl) then
          match
            match s1 with
            | c' :: s2 =>
                if decide (c' = nl)
                then exec T (Some nl) s2 [("ws", [nl; nl])] k
                else None
            | [] => None
            end
          with
          | Some x => Some x
          | None => exec T (Some nl) s1 [("ws", [nl])] k
          end
        else None
    | [] => None
    end.
Proof.
  cbn [exec]. destruct s as [|c s1]; [done|]. simpl startswith.
  rewrite (decide_ext (nl = c) (c = nl)) by done.
  case_decide; subst; [|done]. cbn [length drop last_char last].
  rewrite !drop_0.
  change (S (length s1)) with (length (nl :: s1)). rewrite take_one_sub.
  destruct s1 as [|c' s2]; [done|].
  rewrite (decide_ext (nl = c') (c' = nl)) by done.
  case_decide; subst; [|done]. cbn [drop]. rewrite drop_0.
  pose proof (take_sub_length_cons [nl] nl s2) as E. cbn [app] in E.
  by rewrite E.
Qed.

Lemma git_tail_exec s p t g :
  exec (Lit (lit "declare -A GIT_CRATES=") ⋅ CharSet (lit "(")
          ⋅ DotStarLazy ⋅ CharSet (lit ")") ⋅ Eol) p t g
    (λ _ s' g', Some {| m_text := take (length s - length s') s;
                        m_groups := g' |})
  = if startswith (lit "declare -A GIT_CRATES=(") t then
      n ← find_close ")" (drop (length (lit "declare -A GIT_CRATES=(")) t);
      Some {| m_text :=
                take (length s
                      - length (drop (S n)
                          (drop (length (lit "declare -A GIT_CRATES=(")) t)))
                  s;
              m_groups := g |}
    else None.
Proof.
  rewrite (re_equiv_Lit_CharSet (lit "declare -A GIT_CRATES=") "(").
  cbn [exec].
  change (lit "declare -A GIT_CRATES=" ++ ["("%char])
    with (lit "declare -A GIT_CRATES=(").
  destruct (startswith _ t); [|done].
  apply (lazy_star_close ")"%char
           (λ t', {| m_text := take (length s - length t') s;
                     m_groups := g |})).
  intros _ [|c t']; [done|].
  destruct (decide (c = ")"%char)) as [->|Hc].
  - by rewrite !bool_decide_eq_true_2 by (done || by left).
  - rewrite !bool_decide_eq_false_2; [done..|].
    by intros ->%list_elem_of_singleton.
Qed.

Lemma git_block_exec ws p t :
  exec (Lit (lit "declare -A GIT_CRATES=") ⋅ CharSet (lit "(")
          ⋅ DotStarLazy ⋅ CharSet (lit ")") ⋅ Eol) p t [("ws", ws)]
    (λ _ s' g', Some {| m_text := take (length (ws ++ t) - length s') (ws ++ t);
                        m_groups := g' |})
  = git_block ws (ws ++ t).
Proof.
  rewrite git_tail_exec. unfold git_block.
  rewrite startswith_app_split, startswith_app. cbn [andb].
  rewrite (length_app ws (lit _)), <- drop_drop, !drop_app_length.
  destruct (startswith _ t) eqn:Ht; [|done].
  apply startswith_spec in Ht.
  set (t' := drop (length (lit "declare -A GIT_CRATES=(")) t) in *.
  destruct (find_close_None_or ")" t') as [->|(body & rest & -> & -> & _)];
    [done|].
  cbn [mbind option_bind]. rewrite drop_S_app_cons, take_app_cons_length.
  f_equal. f_equal. rewrite Ht.
  rewrite !(assoc_L (++) _ _ (")"%char :: rest)).
  rewrite take_sub_length_cons. by rewrite <- !(assoc_L (++)).
Qed.

Lemma git_block_None x ws c s :
  x ≠ c → git_block (x :: ws) (c :: s) = None.
Proof. intros Hc. unfold git_block. simpl. by rewrite decide_False. Qed.

Lemma GIT_CRATES_RE_match prev s :
  re_match GIT_CRATES_RE prev s = git_region s.
Proof.
  unfold re_match, GIT_CRATES_RE. rewrite ws_group_exec.
  unfold git_region.
  destruct s as [|c s1]; [done|].
  case_decide as Hc; [subst c|by rewrite !git_block_None].
  pose proof (git_block_exec [nl] (Some nl) s1) as E1.
  cbn [app] in E1. rewrite E1. clear E1.
  destruct s1 as [|c' s2].
  - by destruct (git_block [nl] [nl]).
  - case_decide as Hc'; [subst c'|].
    + pose proof (git_block_exec [nl; nl] (Some nl) s2) as E2.
      cbn [app] in E2. by rewrite E2.
    + assert (git_block [nl; nl] (nl :: c' :: s2) = None) as ->; [|done].
      unfold git_block. simpl.
      rewrite decide_False; [done|]. by intros <-.
Qed.

(** *** The shape of a match *)

Lemma quoted_region_Some head prev s m :
  quoted_region head prev s = Some m →
  ∃ q body rest,
    bol prev = true ∧ q ∈ [sq; dq] ∧
    s = head ++ q :: body ++ q :: rest ∧
    m = {| m_text := head ++ q :: body ++ [q];
           m_groups := [("start", head ++ [q]); ("delim", [q])] |} ∧
    first_close q body rest.
Proof.
  unfold quoted_region. destruct (bol prev); [|done]. cbn [andb].
  destruct (startswith head s) eqn:Hs; [|done].
  apply startswith_spec in Hs.
  destruct (drop (length head) s) as [|q s']; [done|].
  case_bool_decide as Hq; [|done].
  destruct (find_close_None_or q s') as [->|(body & rest & -> & Hf & Hfc)];
    [done|].
  rewrite Hf. cbn [mbind option_bind]. rewrite take_app_cons_length.
  intros [= <-]. by exists q, body, rest.
Qed.

Lemma quoted_region_intro head prev q body rest :
  bol prev = true → q ∈ [sq; dq] → first_close q body rest →
  quoted_region head prev (head ++ q :: body ++ q :: rest)
  = Some {| m_text := head ++ q :: body ++ [q];
            m_groups := [("start", head ++ [q]); ("delim", [q])] |}.
Proof.
  intros Hb Hq Hfc. unfold quoted_region.
  rewrite Hb, startswith_app, drop_app_length. cbn [andb].
  rewrite bool_decide_eq_true_2 by done.
  rewrite (find_close_first _ _ _ Hfc). cbn [mbind option_bind].
  by rewrite take_app_cons_length.
Qed.

Lemma quoted_region_tail_Some head prev s m :
  quoted_region_tail head prev s = Some m →
  ∃ q body rest,
    bol prev = true ∧ q ∈ [sq; dq] ∧
    s = head ++ q :: body ++ q :: rest ∧
    m = {| m_text := head ++ q :: body ++ [q];
           m_groups := [("delim", []);
                        ("start", head ++ q :: body ++ [q]);
                        ("delim2", [q])] |} ∧
    first_close q body rest.
Proof.
  unfold quoted_region_tail. destruct (bol prev); [|done]. cbn [andb].
  destruct (startswith head s) eqn:Hs; [|done].
  apply startswith_spec in Hs.
  destruct (drop (length head) s) as [|q s']; [done|].
  case_bool_decide as Hq; [|done].
  destruct (find_close_None_or q s') as [->|(body & rest & -> & Hf & Hfc)];
    [done|].
  rewrite Hf. cbn [mbind option_bind]. rewrite take_app_cons_length.
  intros [= <-]. by exists q, body, rest.
Qed.

Lemma git_block_Some ws s m :
  git_block ws s = Some m →
  ∃ body rest,
    s = (ws ++ lit "declare -A GIT_CRATES=(") ++ body ++ ")"%char :: rest ∧
    m = {| m_text := (ws ++ lit "declare -A GIT_CRATES=(") ++ body ++ lit ")";
           m_groups := [("ws", ws)] |} ∧
    first_close ")" body rest.
Proof.
  unfold git_block.
  destruct (startswith _ s) eqn:Hs; [|done]. apply startswith_spec in Hs.
  destruct (find_close_None_or ")" (drop (length (ws ++ lit "declare -A GIT_CRATES=(")) s))
    as [->|(body & rest & Hd & Hf & Hfc)]; [done|].
  rewrite Hf. cbn [mbind option_bind]. rewrite Hd, take_app_cons_length.
  intros [= <-]. exists body, rest. by rewrite <- Hd.
Qed.

Lemma git_block_intro ws body rest :
  first_close ")" body rest →
  git_block ws ((ws ++ lit "declare -A GIT_CRATES=(") ++ body ++ ")"%char :: rest)
  = Some {| m_text := (ws ++ lit "declare -A GIT_CRATES=(") ++ body ++ lit ")";
            m_groups := [("ws", ws)] |}.
Proof.
  intros Hfc. unfold git_block. rewrite startswith_app, drop_app_length.
  rewrite (find_close_first _ _ _ Hfc). cbn [mbind option_bind].
  by rewrite take_app_cons_length.
Qed.

Lemma git_region_Some s m :
  git_region s = Some m →
  ∃ ws body rest,
    ws ∈ [[nl; nl]; [nl]] ∧
    s = (ws ++ lit "declare -A GIT_CRATES=(") ++ body ++ ")"%char :: rest ∧
    m = {| m_text := (ws ++ lit "declare -A GIT_CRATES=(") ++ body ++ lit ")";
           m_groups := [("ws", ws)] |} ∧
    first_close ")" body rest.
Proof.
  unfold git_region. destruct (git_block [nl; nl] s) as [m'|] eqn:H2.
  - intros [= ->]. apply git_block_Some in H2 as (body & rest & ?).
    exists [nl; nl], body, rest. split; [by left|done].
  - intros (body & rest & ?)%git_block_Some.
    exists [nl], body, rest. split; [by right; left|done].
Qed.




End Matching.

(** ** Substitution *)

Section Scanning.

Lemma find_scan_length re prev s skip pos pos' :
  length (find_scan re prev s skip pos)
  = length (find_scan re prev s skip pos').
Proof.
  revert prev skip pos pos'. induction s as [|c s IH]; intros prev skip pos pos'.
  - destruct skip; simpl; [|done]. by destruct (re_match re prev []).
  - destruct skip; simpl; [|apply IH].
    destruct (re_match re prev (c :: s)); simpl; [f_equal|]; apply IH.
Qed.

(** A callable that succeeds on every match of the pattern and counts it:
    [sub] returns the replaced text and has counted the matches. *)
Lemma sub_scan_counting re call f r :
  (∀ prev s m n,
     re_match re prev s = Some m →
     call {| count := n; repl := f |} m
     = Ok ({| count := n + 1; repl := f |}, r m)) →
  ∀ s prev skip n pos,
    sub_scan re call {| count := n; repl := f |} prev s skip
    = Ok ({| count := n + length (find_scan re prev s skip pos); repl := f |},
          replace_scan re r prev s skip).
Proof.
  intros Hcall. induction s as [|c s IH]; intros prev skip n pos.
  - destruct skip; simpl; [|by rewrite Nat.add_0_r].
    destruct (re_match re prev []) as [m|] eqn:Hm; simpl.
    + rewrite (Hcall _ _ _ _ Hm). simpl. by rewrite app_nil_r.
    + by rewrite Nat.add_0_r.
  - destruct skip; simpl; [|apply IH].
    destruct (re_match re prev (c :: s)) as [m|] eqn:Hm; simpl.
    + rewrite (Hcall _ _ _ _ Hm). simpl.
      destruct (m_len m); simpl; rewrite (IH _ _ _ (S pos)); simpl;
        do 2 f_equal; f_equal; lia.
    + by rewrite (IH _ _ _ (S pos)).
Qed.

Lemma re_sub_counting re call f r s :
  (∀ prev s m n,
     re_match re prev s = Some m →
     call {| count := n; repl := f |} m
     = Ok ({| count := n + 1; repl := f |}, r m)) →
  re_sub re call (new_subst f) s
  = Ok ({| count := match_count re s; repl := f |},
        replace_scan re r None s 0).
Proof.
  intros Hcall. unfold re_sub, new_subst.
  by rewrite (sub_scan_counting _ _ _ _ Hcall _ _ _ _ 0).
Qed.

(** The matcher calls what remains to be matched on a suffix of the text. *)
Lemma lazy_star_suffix {R} (k : option ascii → text → option R) prev s x :
  lazy_star k prev s = Some x → ∃ p a t, s = a ++ t ∧ k p t = Some x.
Proof.
  revert prev. induction s as [|c s IH]; intros prev; simpl.
  - destruct (k prev []) eqn:Hk; [|done]. intros [= ->]. by exists prev, [], [].
  - destruct (k prev (c :: s)) eqn:Hk.
    + intros [= ->]. by exists prev, [], (c :: s).
    + intros (p & a & t & -> & Hx)%IH. by exists p, (c :: a), t.
Qed.

Lemma greedy_star_suffix {R} (k : option ascii → text → option R) prev s x :
  greedy_star k prev s = Some x → ∃ p a t, s = a ++ t ∧ k p t = Some x.
Proof.
  revert prev. induction s as [|c s IH]; intros prev; simpl.
  - intros Hk. by exists prev, [], [].
  - destruct (greedy_star k (Some c) s) eqn:Hg.
    + intros [= ->]. destruct (IH _ Hg) as (p & a & t & -> & Hx).
      by exists p, (c :: a), t.
    + intros Hk. by exists prev, [], (c :: s).
Qed.

Lemma exec_suffix {R} r prev s g
    (k : option ascii → text → groups → option R) x :
  exec r prev s g k = Some x →
  ∃ p a t g', s = a ++ t ∧ k p t g' = Some x.
Proof.
  revert prev s g k.
  induction r as [t0|cs| | |r1 IH1 r2 IH2|r1 IH1| | |name r1 IH1|name];
    intros prev s g k; cbn [exec].
  - destruct (startswith t0 s); [|done]. intros Hk.
    exists (last_char prev t0), (take (length t0) s), (drop (length t0) s), g.
    by rewrite take_drop.
  - destruct s as [|c s]; [done|]. case_bool_decide; [|done]. intros Hk.
    by exists (Some c), [c], s, g.
  - destruct (bol prev); [|done]. intros Hk. by exists prev, [], s, g.
  - destruct (eol s); [|done]. intros Hk. by exists prev, [], s, g.
  - intros (p & a & t & g' & -> & (p' & a' & t' & g'' & -> & Hk)%IH2)%IH1.
    exists p', (a ++ a'), t', g''. by rewrite <- app_assoc.
  - destruct (exec r1 prev s g k) eqn:H1.
    + intros [= ->]. by apply IH1 in H1.
    + intros Hk. by exists prev, [], s, g.
  - intros (p & a & t & -> & Hk)%lazy_star_suffix. by exists p, a, t, g.
  - intros (p & a & t & -> & Hk)%greedy_star_suffix. by exists p, a, t, g.
  - intros (p & a & t & g' & -> & Hk)%IH1. by eexists p, a, t, _.
  - destruct (group_lookup g name) as [t0|]; [|done].
    destruct (startswith t0 s); [|done]. intros Hk.
    exists (last_char prev t0), (take (length t0) s), (drop (length t0) s), g.
    by rewrite take_drop.
Qed.

(** The text of a match is the text at the position of the match. *)
Lemma re_match_text re prev s m :
  re_match re prev s = Some m → ∃ b, s = m_text m ++ b.
Proof.
  intros (p & a & t & g' & -> & [= <-])%exec_suffix. exists t. simpl.
  by rewrite take_sub_length.
Qed.

Lemma last_char_cons prev c a : last_char prev (c :: a) = last_char (Some c) a.
Proof.
  unfold last_char. destruct a as [|x a]; [done|].
  rewrite last_cons. by destruct (last (x :: a)) eqn:E.
Qed.

(** No match: [sub] returns the text. *)
Lemma replace_scan_none re r s prev skip pos :
  find_scan re prev s skip pos = [] →
  replace_scan re r prev s skip = drop skip s.
Proof.
  revert prev skip pos. induction s as [|c s IH]; intros prev skip pos.
  - destruct skip; simpl; [|done]. by destruct (re_match re prev []).
  - destruct skip; simpl; [|apply IH].
    destruct (re_match re prev (c :: s)); [done|].
    intros Hf. by rewrite (IH _ _ _ Hf).
Qed.

(** One match: [sub] replaces it and returns the text around it. *)
Lemma replace_scan_single re r s prev skip pos i m :
  find_scan re prev s skip pos = [(i, m)] →
  ∃ a b,
    s = a ++ m_text m ++ b ∧ i = pos + length a ∧ skip ≤ length a ∧
    re_match re (last_char prev a) (m_text m ++ b) = Some m ∧
    replace_scan re r prev s skip = drop skip a ++ r m ++ b.
Proof.
  revert prev skip pos. induction s as [|c s IH]; intros prev skip pos.
  - destruct skip; simpl; [|done].
    destruct (re_match re prev []) as [m'|] eqn:Hm; [|done].
    intros [= <- <-]. destruct (re_match_text _ _ _ _ Hm) as [b Hb].
    symmetry in Hb. apply app_eq_nil in Hb as [Ht ->].
    exists [], []. rewrite Ht. simpl. rewrite Nat.add_0_r.
    by rewrite app_nil_r.
  - destruct skip; simpl.
    + destruct (re_match re prev (c :: s)) as [m'|] eqn:Hm.
      * intros [= <- <- Hnil].
        destruct (re_match_text _ _ _ _ Hm) as [b Hb].
        exists [], b. simpl. rewrite Nat.add_0_r, <- Hb.
        split_and!; [done|done|lia|done|]. f_equal.
        unfold m_len in *. destruct (m_text m') as [|x t]; simpl in *.
        { by rewrite (replace_scan_none _ _ _ _ _ _ Hnil), drop_0, Hb. }
        injection Hb as -> ->.
        by rewrite (replace_scan_none _ _ _ _ _ _ Hnil), drop_app_length.
      * intros (a & b & -> & -> & _ & Hm' & ->)%IH.
        exists (c :: a), b. rewrite last_char_cons, drop_0. simpl.
        split_and!; [done|lia|lia|done|done].
    + intros (a & b & -> & -> & Hle & Hm' & ->)%IH.
      exists (c :: a), b. rewrite last_char_cons. simpl.
      split_and!; [done|lia|lia|done|done].
Qed.

(** *** The callables on the matches of the module's patterns *)

Lemma CountingSubst_call_Ok n f v m a b :
  f () = Ok v →
  group_lookup (m_groups m) "start" = Some a →
  group_lookup (m_groups m) "delim" = Some b →
  CountingSubst_call {| count := n; repl := f |} m
  = Ok ({| count := n + 1; repl := f |}, counting_repl v m).
Proof.
  intros Hf Ha Hb. unfold CountingSubst_call, counting_repl, group. simpl.
  by rewrite Ha, Hb, Hf.
Qed.

Lemma CountingSubst_call_Raise n f e m a :
  f () = Raise e →
  group_lookup (m_groups m) "start" = Some a →
  CountingSubst_call {| count := n; repl := f |} m = Raise e.
Proof.
  intros Hf Ha. unfold CountingSubst_call, group. simpl. by rewrite Ha, Hf.
Qed.

Lemma GitCratesSubst_call_Ok n f v m a :
  f () = Ok v →
  group_lookup (m_groups m) "ws" = Some a →
  GitCratesSubst_call {| count := n; repl := f |} m
  = Ok ({| count := n + 1; repl := f |}, git_repl v m).
Proof.
  intros Hf Ha. unfold GitCratesSubst_call, git_repl, group. simpl.
  rewrite Hf. simpl. destruct (lstrip v); [done|]. by rewrite Ha.
Qed.

Lemma GitCratesSubst_call_Raise n f e m :
  f () = Raise e →
  GitCratesSubst_call {| count := n; repl := f |} m = Raise e.
Proof. intros Hf. unfold GitCratesSubst_call. simpl. by rewrite Hf. Qed.

Lemma CRATES_RE_groups prev s m :
  re_match CRATES_RE prev s = Some m →
  ∃ a b, group_lookup (m_groups m) "start" = Some a ∧
         group_lookup (m_groups m) "delim" = Some b.
Proof.
  rewrite CRATES_RE_match.
  intros (q & body & rest & _ & _ & _ & -> & _)%quoted_region_Some.
  by eexists _, _.
Qed.

Lemma CRATE_LICENSE_RE_groups prev s m :
  re_match CRATE_LICENSE_RE prev s = Some m →
  ∃ a b, group_lookup (m_groups m) "start" = Some a ∧
         group_lookup (m_groups m) "delim" = Some b.
Proof.
  rewrite CRATE_LICENSE_RE_match.
  intros (q & body & rest & _ & _ & _ & -> & _)%quoted_region_Some.
  by eexists _, _.
Qed.

Lemma GIT_CRATES_APPEND_RE_groups prev s m :
  re_match GIT_CRATES_APPEND_RE prev s = Some m →
  group_lookup (m_groups m) "start" = Some (m_text m) ∧
  group_lookup (m_groups m) "delim" = Some [].
Proof.
  rewrite GIT_CRATES_APPEND_RE_match.
  by intros (q & body & rest & _ & _ & _ & -> & _)%quoted_region_tail_Some.
Qed.

Lemma GIT_CRATES_RE_groups prev s m :
  re_match GIT_CRATES_RE prev s = Some m →
  ∃ ws, group_lookup (m_groups m) "ws" = Some ws.
Proof.
  rewrite GIT_CRATES_RE_match.
  intros (ws & body & rest & _ & _ & -> & _)%git_region_Some. by eexists.
Qed.

Lemma re_sub_CRATES v ebuild :
  re_sub CRATES_RE CountingSubst_call (new_subst (λ _, Ok v)) ebuild
  = Ok ({| count := match_count CRATES_RE ebuild; repl := λ _, Ok v |},
        replace_scan CRATES_RE (counting_repl v) None ebuild 0).
Proof.
  apply re_sub_counting. intros prev s m n (a & b & Ha & Hb)%CRATES_RE_groups.
  by eapply CountingSubst_call_Ok.
Qed.

Lemma re_sub_GIT_CRATES f v ebuild :
  f () = Ok v →
  re_sub GIT_CRATES_RE GitCratesSubst_call (new_subst f) ebuild
  = Ok ({| count := match_count GIT_CRATES_RE ebuild; repl := f |},
        replace_scan GIT_CRATES_RE (git_repl v) None ebuild 0).
Proof.
  intros Hf. apply re_sub_counting.
  intros prev s m n [ws Hws]%GIT_CRATES_RE_groups.
  by eapply GitCratesSubst_call_Ok.
Qed.

Lemma re_sub_CRATE_LICENSE f v ebuild :
  f () = Ok v →
  re_sub CRATE_LICENSE_RE CountingSubst_call (new_subst f) ebuild
  = Ok ({| count := match_count CRATE_LICENSE_RE ebuild; repl := f |},
        replace_scan CRATE_LICENSE_RE (counting_repl v) None ebuild 0).
Proof.
  intros Hf. apply re_sub_counting.
  intros prev s m n (a & b & Ha & Hb)%CRATE_LICENSE_RE_groups.
  by eapply CountingSubst_call_Ok.
Qed.

Lemma re_sub_GIT_CRATES_APPEND v ebuild :
  re_sub GIT_CRATES_APPEND_RE CountingSubst_call (new_subst (λ _, Ok v)) ebuild
  = Ok ({| count := match_count GIT_CRATES_APPEND_RE ebuild;
           repl := λ _, Ok v |},
        replace_scan GIT_CRATES_APPEND_RE (counting_repl v) None ebuild 0).
Proof.
  apply re_sub_counting.
  intros prev s m n [Ha Hb]%GIT_CRATES_APPEND_RE_groups.
  by eapply CountingSubst_call_Ok.
Qed.

Lemma assert_count_Ok n f desc :
  assert_count {| count := n; repl := f |} desc n = Ok ().
Proof. unfold assert_count. simpl. by rewrite decide_False by (by intros []). Qed.

Lemma assert_count_check n f desc expected :
  assert_count {| count := n; repl := f |} desc expected
  = check_count desc n expected.
Proof. done. Qed.

Lemma check_count_Raise desc n expected :
  n ≠ expected →
  check_count desc n expected
  = Raise (RuntimeError (count_message desc n expected)).
Proof. intros Hn. unfold check_count. by rewrite decide_True. Qed.

Lemma check_count_Ok desc n : check_count desc n n = Ok ().
Proof. unfold check_count. by rewrite decide_False by (by intros []). Qed.

(** A callable that raises on every match: [sub] raises at the first
    match. *)
Lemma sub_scan_raising re call f e :
  (∀ prev s m n,
     re_match re prev s = Some m →
     call {| count := n; repl := f |} m = Raise e) →
  ∀ s prev skip pos n,
    sub_scan re call {| count := n; repl := f |} prev s skip
    = match find_scan re prev s skip pos with
      | [] => Ok ({| count := n; repl := f |}, drop skip s)
      | _ :: _ => Raise e
      end.
Proof.
  intros Hcall. induction s as [|c s IH]; intros prev skip pos n.
  - destruct skip; simpl; [|done].
    destruct (re_match re prev []) as [m|] eqn:Hm; simpl; [|done].
    by rewrite (Hcall _ _ _ _ Hm).
  - destruct skip; simpl; [|apply IH].
    destruct (re_match re prev (c :: s)) as [m|] eqn:Hm; simpl.
    + by rewrite (Hcall _ _ _ _ Hm).
    + rewrite (IH _ _ (S pos)).
      by destruct (find_scan re (Some c) s 0 (S pos)).
Qed.

End Scanning.

(** ** The patcher *)

Section Update.
Context `{Licensing} `{Runtime}.

(** A substitution whose value cannot be computed raises at the first
    match, and returns the document when there is none. *)
Lemma re_sub_CRATE_LICENSE_Raise f e doc :
  f () = Raise e →
  re_sub CRATE_LICENSE_RE CountingSubst_call (new_subst f) doc
  = if decide (match_count CRATE_LICENSE_RE doc = 0)
    then Ok ({| count := 0; repl := f |}, doc) else Raise e.
Proof.
  intros Hf. unfold re_sub, new_subst.
  rewrite (sub_scan_raising _ _ f e) with (pos := 0).
  - unfold match_count, finditer.
    destruct (find_scan CRATE_LICENSE_RE None doc 0 0); [|done].
    simpl. by rewrite drop_0.
  - intros prev s m n (a & b & Ha & Hb)%CRATE_LICENSE_RE_groups.
    by eapply CountingSubst_call_Raise.
Qed.

Lemma re_sub_GIT_CRATES_Raise f e doc :
  f () = Raise e →
  re_sub GIT_CRATES_RE GitCratesSubst_call (new_subst f) doc
  = if decide (match_count GIT_CRATES_RE doc = 0)
    then Ok ({| count := 0; repl := f |}, doc) else Raise e.
Proof.
  intros Hf. unfold re_sub, new_subst.
  rewrite (sub_scan_raising _ _ f e) with (pos := 0).
  - unfold match_count, finditer.
    destruct (find_scan GIT_CRATES_RE None doc 0 0); [|done].
    simpl. by rewrite drop_0.
  - intros prev s m n _. by apply GitCratesSubst_call_Raise.
Qed.

Lemma re_sub_CRATE_LICENSE_patch f doc :
  (λ '(st, d), (count st, d)) <$>
    re_sub CRATE_LICENSE_RE CountingSubst_call (new_subst f) doc
  = (λ d, (match_count CRATE_LICENSE_RE doc, d)) <$> license_patch (f ()) doc.
Proof.
  unfold license_patch. destruct (f ()) as [v|e] eqn:Hf.
  - by rewrite (re_sub_CRATE_LICENSE _ v).
  - rewrite (re_sub_CRATE_LICENSE_Raise _ e) by done.
    case_decide as Hc; [|done]. simpl. by rewrite Hc.
Qed.

Lemma re_sub_GIT_CRATES_patch f doc :
  (λ '(st, d), (count st, repl st (), d)) <$>
    re_sub GIT_CRATES_RE GitCratesSubst_call (new_subst f) doc
  = (λ d, (match_count GIT_CRATES_RE doc, f (), d)) <$> git_patch (f ()) doc.
Proof.
  unfold git_patch. destruct (f ()) as [v|e] eqn:Hf.
  - rewrite (re_sub_GIT_CRATES _ v) by done. simpl. by rewrite Hf.
  - rewrite (re_sub_GIT_CRATES_Raise _ e) by done.
    case_decide as Hc; [|done]. simpl. by rewrite Hc, Hf.
Qed.

(** [update_ebuild] in terms of the texts and the counts. *)
Lemma update_ebuild_unfold ebuild pkg_meta crates distdir crate_license
    crate_tarball license_overrides :
  update_ebuild ebuild pkg_meta crates distdir crate_license crate_tarball
    license_overrides
  = update_ebuild_pure ebuild crates distdir crate_license crate_tarball
      license_overrides.
Proof.
  unfold update_ebuild, update_ebuild_pure.
  rewrite re_sub_CRATES. cbn [mbind result_bind].
  set (d1 := replace_scan CRATES_RE _ _ _ _).
  pose proof (re_sub_GIT_CRATES_patch
                (λ _, get_GIT_CRATES crates distdir) d1) as Hg.
  destruct (re_sub GIT_CRATES_RE _ _ d1) as [[g d2]|e];
    destruct (git_patch _ d1) as [d2'|e']; simplify_eq/=; [|done].
  destruct g as [ng fg]; simpl in *.
  pose proof (re_sub_CRATE_LICENSE_patch
                (λ _, get_crate_LICENSE crates distdir license_overrides) d2')
    as Hl.
  destruct (re_sub CRATE_LICENSE_RE _ _ d2') as [[l d3]|e];
    destruct (license_patch _ d2') as [d3'|e']; simplify_eq/=; [|done].
  destruct l as [n f]; simpl in *. subst n.
  rewrite !assert_count_check.
  destruct (check_count _ (match_count CRATES_RE ebuild) 1); [|done].
  cbn [mbind result_bind].
  destruct (check_count _ _ (if crate_license then 1 else 0)); [|done].
  cbn [mbind result_bind].
  case_decide; [|done].
  match goal with E : fg () = _ |- _ => rewrite E end.
  destruct (get_GIT_CRATES crates distdir) as [[|c g]|e] eqn:Hg; [done| |done].
  cbn [mbind result_bind]. by rewrite re_sub_GIT_CRATES_APPEND.
Qed.

Lemma filter_no_git crates :
  existsb is_git_crate crates = false → List.filter is_git_crate crates = [].
Proof.
  induction crates as [|c crates IH]; simpl; [done|].
  destruct (is_git_crate c); [done|]. apply IH.
Qed.

Lemma get_GIT_CRATES_no_git crates distdir :
  existsb is_git_crate crates = false →
  get_GIT_CRATES crates distdir = Ok [].
Proof.
  intros Hg. unfold get_GIT_CRATES, git_lines.
  by rewrite (filter_no_git _ Hg).
Qed.

Lemma join_nonempty sep x l : x ≠ [] → join sep (x :: l) ≠ [].
Proof. intros Hx. simpl. destruct l; [done|]. by destruct x. Qed.

Lemma get_GIT_CRATES_Ok crates distdir g :
  get_GIT_CRATES crates distdir = Ok g ↔
  ∃ lines, git_lines crates distdir = Ok lines ∧ g = GIT_CRATES_block lines.
Proof.
  unfold get_GIT_CRATES. destruct (git_lines crates distdir) as [lines|e].
  - simpl. split.
    + intros [= <-]. by exists lines.
    + by intros (? & [= <-] & ->).
  - simpl. split; [done|]. by intros (? & ? & _).
Qed.

Lemma git_line_inv distdir c l :
  git_line distdir c = Ok l ↔
  ∃ e, get_git_crate_entry distdir c = Ok e ∧
       l = [tab] ++ lit "[" ++ crate_name c ++ lit "]=" ++ shlex_quote e.
Proof.
  unfold git_line. destruct (get_git_crate_entry distdir c) as [e|]; simpl.
  - split; [intros [= <-]; by exists e|]. by intros (? & [= <-] & ->).
  - split; [done|]. by intros (? & ? & _).
Qed.

(** The lines are as many as the git crates, and none is empty. *)
Lemma git_lines_nonempty crates distdir lines :
  git_lines crates distdir = Ok lines →
  Forall (λ l, l ≠ []) lines ∧
  (existsb is_git_crate crates = true → lines ≠ []).
Proof.
  unfold git_lines. revert lines.
  induction crates as [|c crates IH]; intros lines;
    cbn [List.filter existsb].
  - by intros [= <-].
  - destruct (is_git_crate c); cbn [orb]; [|apply IH].
    rewrite mapM_cons_Ok.
    intros (l & ls & (e & _ & ->)%git_line_inv & [Hne _]%IH & ->).
    split; [by constructor|done].
Qed.

Lemma get_GIT_CRATES_git crates distdir g :
  existsb is_git_crate crates = true →
  get_GIT_CRATES crates distdir = Ok g →
  ∃ values,
    values ≠ [] ∧
    g = [nl; nl] ++ lit "declare -A GIT_CRATES=(" ++ [nl] ++ values
          ++ [nl] ++ lit ")".
Proof.
  intros Hg (ls & Hls & ->)%get_GIT_CRATES_Ok.
  destruct (git_lines_nonempty _ _ _ Hls) as [Hne0 Hnil].
  specialize (Hnil Hg). unfold GIT_CRATES_block.
  set (lines := sorted ls).
  assert (Forall (λ l, l ≠ []) lines) as Hne.
  { unfold lines. by rewrite sorted_Permutation. }
  assert (lines ≠ []) as Hlines.
  { unfold lines. intros Hn.
    pose proof (sorted_Permutation ls) as Hp.
    rewrite Hn in Hp. by apply Permutation_nil in Hp. }
  destruct lines as [|l lines]; [done|]. inversion_clear Hne as [|?? Hl _].
  pose proof (join_nonempty [nl] l lines Hl) as Hj.
  destruct (join [nl] (l :: lines)) as [|c v] eqn:Ej; [done|].
  by exists (c :: v).
Qed.


(** C6, as the code has it.  The crate list has a git crate and the entries
    of its git crates can be read; the document has the CRATES assignment
    exactly once and, once its CRATES value is replaced, no GIT_CRATES
    block; the replacement of the crate licenses succeeds and finds the
    marked LICENSE assignment as often as [crate_license] asks.  Then the
    block is inserted right after the closing quote of the CRATES
    assignment of the document that the substitutions returned, and nothing
    else of that document changes; when the assignment is not found exactly
    once there, the error that names it is raised. *)
Theorem update_ebuild_inserts_GIT_CRATES (ebuild : text)
    (pkg_meta : PackageMetadata) (crates : list Crate) (distdir : Distdir)
    (crate_license : bool) (crate_tarball : option Path)
    (license_overrides : gmap text text)
    (crates_repl crate_license_repl : CountingSubst)
    (doc1 doc3 git_crates : text) :
  existsb is_git_crate crates = true →
  get_GIT_CRATES crates distdir = Ok git_crates →
  re_sub CRATES_RE CountingSubst_call
    (new_subst (λ _, Ok (crates_value crates crate_tarball))) ebuild
  = Ok (crates_repl, doc1) →
  match_count GIT_CRATES_RE doc1 = 0 →
  re_sub CRATE_LICENSE_RE CountingSubst_call
    (new_subst (λ _, get_crate_LICENSE crates distdir license_overrides)) doc1
  = Ok (crate_license_repl, doc3) →
  count crates_repl = 1 →
  count crate_license_repl = (if crate_license then 1 else 0) →
  ∃ values,
    values ≠ [] ∧
    git_crates
    = [nl; nl] ++ lit "declare -A GIT_CRATES=(" ++ [nl] ++ values
        ++ [nl] ++ lit ")" ∧
    match finditer GIT_CRATES_APPEND_RE doc3 with
    | [_] =>
        ∃ pre q body post,
          doc3 = pre ++ (lit "CRATES=" ++ q :: body ++ [q]) ++ post ∧
          first_close q body post ∧
          update_ebuild ebuild pkg_meta crates distdir crate_license
            crate_tarball license_overrides
          = Ok (pre ++ (lit "CRATES=" ++ q :: body ++ [q])
                    ++ git_crates ++ post)
    | ms =>
        update_ebuild ebuild pkg_meta crates distdir crate_license
          crate_tarball license_overrides
        = Raise (RuntimeError
                   (count_message
                      (lit "CRATES= (while appending GIT_CRATES=)")
                      (length ms) 1))
    end.
Proof.
  intros Hg Hgc Hsub Hcount Hlic Hc Hl.
  destruct (get_GIT_CRATES_git crates distdir _ Hg Hgc)
    as (values & Hv & Hgit).
  exists values. split_and!; [done..|].
  assert (update_ebuild ebuild pkg_meta crates distdir crate_license
            crate_tarball license_overrides
          = (_ ← check_count (lit "CRATES= (while appending GIT_CRATES=)")
                   (match_count GIT_CRATES_APPEND_RE doc3) 1;
             Ok (replace_scan GIT_CRATES_APPEND_RE
                   (counting_repl git_crates) None doc3 0))) as ->.
  { unfold update_ebuild. rewrite Hsub. cbn [mbind result_bind].
    rewrite (re_sub_GIT_CRATES _ git_crates) by done.
    cbn [mbind result_bind].
    rewrite (replace_scan_none _ _ doc1 None 0 0), drop_0
      by (by apply nil_length_inv).
    rewrite Hlic. cbn [mbind result_bind].
    destruct crates_repl as [n1 f1], crate_license_repl as [n3 f3].
    simpl in Hc, Hl. subst n1 n3. rewrite !assert_count_Ok.
    cbn [mbind result_bind count repl]. rewrite decide_True by done.
    rewrite Hgc. cbn [mbind result_bind].
    destruct git_crates as [|gc gv]; [by subst|].
    by rewrite re_sub_GIT_CRATES_APPEND. }
  unfold match_count.
  destruct (finditer GIT_CRATES_APPEND_RE doc3) as [|[i m] [|??]] eqn:Hf.
  - by rewrite check_count_Raise.
  - rewrite check_count_Ok. cbn [mbind result_bind].
    destruct (replace_scan_single _ (counting_repl git_crates)
                _ _ _ _ _ _ Hf)
      as (pre & post & Hdoc & _ & _ & Hm & ->).
    rewrite GIT_CRATES_APPEND_RE_match in Hm.
    apply quoted_region_tail_Some in Hm
      as (q & body & rest & _ & Hq & Hs & Hmt & Hfc).
    assert (m_text m = lit "CRATES=" ++ q :: body ++ [q]) as Htext
      by (by rewrite Hmt).
    rewrite Htext in Hs, Hdoc.
    assert (post = rest) as ->.
    { rewrite <- !(assoc_L (++)) in Hs. apply app_inv_head in Hs.
      injection Hs as Hs. rewrite <- (assoc_L (++)) in Hs.
      apply app_inv_head in Hs. by injection Hs. }
    exists pre, q, body, rest. split_and!; [done..|].
    rewrite drop_0. unfold counting_repl. rewrite Hmt. simpl.
    by rewrite app_nil_r, <- !(assoc_L (++)).
  - by rewrite check_count_Raise.
Qed.

(** C4, as the code has it: a document in which the CRATES pattern does not
    match exactly once is not patched, [update_ebuild] raises.  When the
    three substitutions return, the error is the one that names the
    variable and the two counts.  A substitution raises when its value
    cannot be computed and the document has a region for it: the entries of
    the git crates for a GIT_CRATES block, the licenses of the crates for a
    marked LICENSE assignment; that exception is then the one raised. *)
Theorem update_ebuild_CRATES_count (ebuild : text) (pkg_meta : PackageMetadata)
    (crates : list Crate) (distdir : Distdir) (crate_license : bool)
    (crate_tarball : option Path) (license_overrides : gmap text text) :
  match_count CRATES_RE ebuild ≠ 1 →
  ∃ crates_repl doc1,
    re_sub CRATES_RE CountingSubst_call
      (new_subst (λ _, Ok (crates_value crates crate_tarball))) ebuild
    = Ok (crates_repl, doc1) ∧
    match re_sub GIT_CRATES_RE GitCratesSubst_call
            (new_subst (λ _, get_GIT_CRATES crates distdir)) doc1 with
    | Raise e =>
        get_GIT_CRATES crates distdir = Raise e ∧
        match_count GIT_CRATES_RE doc1 ≠ 0 ∧
        update_ebuild ebuild pkg_meta crates distdir crate_license
          crate_tarball license_overrides = Raise e
    | Ok (_, doc2) =>
        match re_sub CRATE_LICENSE_RE CountingSubst_call
                (new_subst
                   (λ _, get_crate_LICENSE crates distdir license_overrides))
                doc2 with
        | Raise e =>
            get_crate_LICENSE crates distdir license_overrides = Raise e ∧
            match_count CRATE_LICENSE_RE doc2 ≠ 0 ∧
            update_ebuild ebuild pkg_meta crates distdir crate_license
              crate_tarball license_overrides = Raise e
        | Ok _ =>
            update_ebuild ebuild pkg_meta crates distdir crate_license
              crate_tarball license_overrides
            = Raise (RuntimeError
                       (count_message (lit "CRATES=")
                          (match_count CRATES_RE ebuild) 1))
        end
    end.
Proof.
  intros Hn. unfold update_ebuild. rewrite re_sub_CRATES.
  eexists _, _. split; [reflexivity|]. cbn [mbind result_bind].
  set (doc1 := replace_scan CRATES_RE _ _ _ _).
  assert (∀ (l : CountingSubst) (k : result text),
            (_ ← assert_count
                   {| count := match_count CRATES_RE ebuild;
                      repl := λ _, Ok (crates_value crates crate_tarball) |}
                   (lit "CRATES=") 1;
             _ ← assert_count l (lit "Crate LICENSE+= (with marker comment)")
                   (if crate_license then 1 else 0);
             k)
            = Raise (RuntimeError
                       (count_message (lit "CRATES=")
                          (match_count CRATES_RE ebuild) 1))) as Hcheck.
  { intros l k. rewrite assert_count_check.
    by rewrite (check_count_Raise (lit "CRATES=")). }
  assert (∀ doc2 (g : CountingSubst),
    match re_sub CRATE_LICENSE_RE CountingSubst_call
            (new_subst
               (λ _, get_crate_LICENSE crates distdir license_overrides))
            doc2 with
    | Raise e =>
        get_crate_LICENSE crates distdir license_overrides = Raise e ∧
        match_count CRATE_LICENSE_RE doc2 ≠ 0 ∧
        ('(crate_license_repl, ebuild0) ←
           re_sub CRATE_LICENSE_RE CountingSubst_call
             (new_subst
                (λ _, get_crate_LICENSE crates distdir license_overrides))
             doc2;
         _ ← assert_count
               {| count := match_count CRATES_RE ebuild;
                  repl := λ _, Ok (crates_value crates crate_tarball) |}
               (lit "CRATES=") 1;
         _ ← assert_count crate_license_repl
               (lit "Crate LICENSE+= (with marker comment)")
               (if crate_license then 1 else 0);
         if decide (count g = 0) then
           git_crates ← repl g ();
           match git_crates with
           | _ :: _ =>
               '(git_crates_append, ebuild1) ←
                 re_sub GIT_CRATES_APPEND_RE CountingSubst_call
                   (new_subst (λ _, Ok git_crates)) ebuild0;
               _ ← assert_count git_crates_append
                     (lit "CRATES= (while appending GIT_CRATES=)") 1;
               Ok ebuild1
           | [] => Ok ebuild0
           end
         else
           _ ← assert_count g (lit "GIT_CRATES=") 1;
           Ok ebuild0) = Raise e
    | Ok _ =>
        ('(crate_license_repl, ebuild0) ←
           re_sub CRATE_LICENSE_RE CountingSubst_call
             (new_subst
                (λ _, get_crate_LICENSE crates distdir license_overrides))
             doc2;
         _ ← assert_count
               {| count := match_count CRATES_RE ebuild;
                  repl := λ _, Ok (crates_value crates crate_tarball) |}
               (lit "CRATES=") 1;
         _ ← assert_count crate_license_repl
               (lit "Crate LICENSE+= (with marker comment)")
               (if crate_license then 1 else 0);
         if decide (count g = 0) then
           git_crates ← repl g ();
           match git_crates with
           | _ :: _ =>
               '(git_crates_append, ebuild1) ←
                 re_sub GIT_CRATES_APPEND_RE CountingSubst_call
                   (new_subst (λ _, Ok git_crates)) ebuild0;
               _ ← assert_count git_crates_append
                     (lit "CRATES= (while appending GIT_CRATES=)") 1;
               Ok ebuild1
           | [] => Ok ebuild0
           end
         else
           _ ← assert_count g (lit "GIT_CRATES=") 1;
           Ok ebuild0)
        = Raise (RuntimeError
                   (count_message (lit "CRATES=")
                      (match_count CRATES_RE ebuild) 1))
    end) as Hlicense.
  { intros doc2 g.
    destruct (get_crate_LICENSE crates distdir license_overrides)
      as [v|e] eqn:Hl.
    - rewrite (re_sub_CRATE_LICENSE _ v) by done. cbn [mbind result_bind].
      apply Hcheck.
    - rewrite (re_sub_CRATE_LICENSE_Raise _ e) by done.
      case_decide; [|done]. cbn [mbind result_bind]. apply Hcheck. }
  destruct (get_GIT_CRATES crates distdir) as [g|e] eqn:Hg.
  - rewrite (re_sub_GIT_CRATES _ g) by done. cbn [mbind result_bind].
    apply Hlicense.
  - rewrite (re_sub_GIT_CRATES_Raise _ e) by done.
    case_decide; [|done]. cbn [mbind result_bind]. apply Hlicense.
Qed.

End Update.

Lemma update_ebuild_CRATES_count_witness :
  @update_ebuild Conj.licensing (Conj.runtime false)
    (line "EAPI=8" ++ line "inherit cargo") Conj.pkg
    [Conj.file_crate "foo" "1.0"] (Conj.distdir Conj.licenses) true None ∅
  = Raise (RuntimeError (lit "CRATES= matched 0 times, 1 expected")).
Proof.
  destruct (update_ebuild_CRATES_count (H:=Conj.licensing)
              (H0:=Conj.runtime false)
              (line "EAPI=8" ++ line "inherit cargo") Conj.pkg
              [Conj.file_crate "foo" "1.0"] (Conj.distdir Conj.licenses)
              true None ∅) as (crates_repl & doc1 & Hsub & Hr).
  - by vm_compute.
  - vm_compute in Hsub. injection Hsub as <- <-.
    vm_compute in Hr. vm_compute. exact Hr.
Defined.

(** C4 as it is stated fails when the crate licenses cannot be computed: in
    a document without a CRATES assignment that has the marked LICENSE
    assignment, the exception of the archive reader is raised during the
    substitutions, before the counts are checked. *)
Lemma update_ebuild_CRATES_count_reader_error :
  match_count CRATES_RE Conj.ebuild_without_CRATES = 0 ∧
  @update_ebuild Conj.licensing (Conj.runtime false)
    Conj.ebuild_without_CRATES Conj.pkg [Conj.file_crate "foo" "1.0"]
    Conj.unreadable_distdir true None ∅
  = Raise (OSError (lit "No such file or directory: foo-1.0.crate")) ∧
  ∀ n m, OSError (lit "No such file or directory: foo-1.0.crate")
         ≠ RuntimeError (count_message (lit "CRATES=") n m).
Proof. split_and!; [by vm_compute..|done]. Qed.


Example update_ebuild_removes_GIT_CRATES_example :
  @update_ebuild Conj.licensing (Conj.runtime false) Conj.ebuild_with_git
    Conj.pkg [Conj.file_crate "old" "0.1"] (Conj.distdir Conj.licenses)
    false None ∅
  = Ok Conj.ebuild_without_git.
Proof. vm_compute. reflexivity. Qed.


(** An update that adds a git crate to a document whose other regions are
    up to date. *)
Lemma update_ebuild_inserts_GIT_CRATES_witness :
  let crates := [Conj.file_crate "old" "0.1"; Conj.git_crate "baz"] in
  let distdir := Conj.distdir Conj.licenses in
  let git_crates :=
    [nl; nl] ++ line "declare -A GIT_CRATES=(" ++ [tab]
    ++ line "[baz]='https://example.org/baz;0123abcd;baz-%commit%'"
    ++ lit ")" in
  ∃ values,
    values ≠ [] ∧
    git_crates
    = [nl; nl] ++ lit "declare -A GIT_CRATES=(" ++ [nl] ++ values
        ++ [nl] ++ lit ")" ∧
    ∃ pre q body post,
      Conj.ebuild_without_git
      = pre ++ (lit "CRATES=" ++ q :: body ++ [q]) ++ post ∧
      first_close q body post ∧
      @update_ebuild Conj.licensing (Conj.runtime false)
        Conj.ebuild_without_git Conj.pkg crates distdir false None ∅
      = Ok (pre ++ (lit "CRATES=" ++ q :: body ++ [q])
                ++ git_crates ++ post).
Proof.
  intros crates distdir git_crates.
  apply (update_ebuild_inserts_GIT_CRATES (H:=Conj.licensing)
           (H0:=Conj.runtime false) Conj.ebuild_without_git Conj.pkg crates
           distdir false None ∅
           {| count := 1; repl := λ _, Ok (crates_value crates None) |}
           {| count := 0;
              repl := λ _, @get_crate_LICENSE Conj.licensing
                             (Conj.runtime false) crates distdir ∅ |}
           Conj.ebuild_without_git Conj.ebuild_without_git git_crates).
  - reflexivity.
  - vm_compute. reflexivity.
  - vm_compute. reflexivity.
  - vm_compute. reflexivity.
  - vm_compute. reflexivity.
  - reflexivity.
  - reflexivity.
Defined.

Example update_ebuild_inserts_GIT_CRATES_example :
  @update_ebuild Conj.licensing (Conj.runtime false) Conj.ebuild_without_git
    Conj.pkg [Conj.file_crate "old" "0.1"; Conj.git_crate "baz"]
    (Conj.distdir Conj.licenses) false None ∅
  = Ok (line "EAPI=8" ++ [nl]
        ++ lit "CRATES=" ++ [dq; nl; tab] ++ line "old@0.1" ++ [dq; nl; nl]
        ++ line "declare -A GIT_CRATES=(" ++ [tab]
        ++ line "[baz]='https://example.org/baz;0123abcd;baz-%commit%'"
        ++ line ")" ++ [nl] ++ line "inherit cargo").
Proof. vm_compute. reflexivity. Qed.

(** C6 as it is stated fails when the crate list also changes the CRATES
    value: the document returned is not the document with the block
    inserted after its CRATES assignment. *)
Lemma update_ebuild_insertion_rewrites_CRATES :
  let doc := Conj.ebuild_without_git in
  let crates := [Conj.git_crate "baz"] in
  let distdir := Conj.distdir Conj.licenses in
  match finditer GIT_CRATES_RE doc, finditer GIT_CRATES_APPEND_RE doc,
        get_GIT_CRATES crates distdir,
        @update_ebuild Conj.licensing (Conj.runtime false) doc Conj.pkg
          crates distdir false None ∅
  with
  | [], [(i, m)], Ok git_crates, Ok out =>
      out ≠ take (i + m_len m) doc ++ git_crates ++ drop (i + m_len m) doc
  | _, _, _, _ => False
  end.
Proof. vm_compute. congruence. Qed.

(** ** Scanning a document in segments *)

Section Segments.

Lemma scan_matches_pos re prev s skip pos :
  (find_scan re prev s skip pos).*2 = scan_matches re prev s skip.
Proof.
  unfold scan_matches. generalize 0.
  revert prev skip pos. induction s as [|c s IH]; intros prev skip pos pos'.
  - destruct skip; simpl; [|done]. by destruct (re_match re prev []).
  - destruct skip; simpl; [|apply IH].
    destruct (re_match re prev (c :: s)); simpl; [f_equal|]; apply IH.
Qed.

Lemma finditer_matches re s : (finditer re s).*2 = scan_matches re None s 0.
Proof. apply scan_matches_pos. Qed.

Lemma match_count_matches re s :
  match_count re s = length (scan_matches re None s 0).
Proof. unfold match_count. by rewrite <- finditer_matches, length_fmap. Qed.

Lemma bol_last_char prev a : bol (last_char prev a) = bol_after (bol prev) a.
Proof. unfold last_char, bol_after. by destruct (last a). Qed.

Lemma bol_after_cons pb c a :
  bol_after pb (c :: a) = bol_after (bool_decide (c = nl)) a.
Proof.
  unfold bol_after. destruct a as [|x a]; [done|].
  rewrite last_cons. by destruct (last (x :: a)).
Qed.

Lemma may_start_mono anchored heads s :
  may_start anchored heads true s = false →
  ∀ pb, may_start anchored heads pb s = false.
Proof.
  unfold may_start. intros Hs pb. rewrite orb_true_r in Hs. simpl in Hs.
  rewrite Hs. apply andb_false_r.
Qed.

Lemma quiet_cons anchored heads pb c a b :
  quiet anchored heads pb (c :: a) b →
  may_start anchored heads pb (c :: a ++ b) = false ∧
  quiet anchored heads (bool_decide (c = nl)) a b.
Proof.
  intros Hq. split; [apply (Hq [] c a eq_refl)|].
  intros a1 x a2 ->. rewrite <- bol_after_cons with (pb := pb).
  by apply (Hq (c :: a1) x a2).
Qed.

Lemma quiet_weaken anchored heads a b :
  quiet anchored heads true a b → ∀ pb, quiet anchored heads pb a b.
Proof.
  intros Hq pb a1 c a2 Ha. specialize (Hq a1 c a2 Ha).
  unfold bol_after in *. destruct (last a1); [done|].
  by apply may_start_mono.
Qed.

(** The characters of a match that has been found are passed. *)
Lemma scan_matches_skip re prev a b :
  scan_matches re prev (a ++ b) (length a)
  = scan_matches re (last_char prev a) b 0.
Proof.
  unfold scan_matches. revert prev. induction a as [|c a IH]; intros prev.
  - done.
  - simpl. rewrite last_char_cons, !scan_matches_pos. apply IH.
Qed.

(** A segment in which no match can start is passed. *)
Lemma scan_quiet re anchored heads pb prev a b :
  guarded re anchored heads →
  (bol prev = true → pb = true) →
  quiet anchored heads pb a b →
  scan_matches re prev (a ++ b) 0 = scan_matches re (last_char prev a) b 0.
Proof.
  intros Hg. unfold scan_matches.
  revert prev pb. induction a as [|c a IH]; intros prev pb Hpb Hq; [done|].
  apply quiet_cons in Hq as [Hc Hq]. simpl.
  destruct (re_match re prev (c :: a ++ b)) as [m|] eqn:Hm.
  { apply Hg in Hm. destruct (bol prev).
    - rewrite Hpb in Hc by done. congruence.
    - destruct pb; [|congruence].
      rewrite (may_start_mono _ _ _ Hc false) in Hm. done. }
  rewrite last_char_cons, !scan_matches_pos.
  by apply (IH _ (bool_decide (c = nl))).
Qed.

(** A match is recorded and passed. *)
Lemma scan_match re prev t b m :
  re_match re prev (t ++ b) = Some m →
  m_text m = t →
  t ≠ [] →
  scan_matches re prev (t ++ b) 0
  = m :: scan_matches re (last_char prev t) b 0.
Proof.
  intros Hm Ht Hne. unfold scan_matches.
  destruct t as [|c t]; [done|]. simpl in *. rewrite Hm. simpl. f_equal.
  unfold m_len. rewrite Ht. simpl.
  rewrite last_char_cons, scan_matches_pos. apply scan_matches_skip.
Qed.

Lemma scan_end re anchored heads prev :
  guarded re anchored heads →
  Forall (λ h, h ≠ []) heads →
  scan_matches re prev [] 0 = [].
Proof.
  intros Hg Hh. unfold scan_matches. simpl.
  destruct (re_match re prev []) as [m|] eqn:Hm; [|done].
  apply Hg in Hm. unfold may_start in Hm.
  apply andb_true_iff in Hm as [_ Hm]. apply existsb_exists in Hm
    as (h & Hin & Hs). apply list_elem_of_In in Hin.
  rewrite Forall_forall in Hh. specialize (Hh h Hin). by destruct h.
Qed.

(** *** Known text *)

Lemma conflict_startswith h s b :
  conflict h s = true → startswith h (s ++ b) = false.
Proof.
  revert s. induction h as [|x h IH]; intros [|y s]; simpl; try done.
  case_decide; [apply IH|done].
Qed.

Lemma quiet_lit_sound anchored heads pb a la b :
  quiet_lit anchored heads pb a la = true →
  quiet anchored heads pb a (la ++ b).
Proof.
  revert pb. induction a as [|c a IH]; intros pb Hq a1 x a2 Ha.
  { by destruct a1. }
  cbn [quiet_lit] in Hq. apply andb_true_iff in Hq as [Hc Hq].
  destruct a1 as [|y a1]; simplify_eq/=.
  - unfold may_start, bol_after. simpl.
    apply orb_true_iff in Hc as [Hc|Hc].
    + apply andb_true_iff in Hc as [-> ->%negb_true_iff]. done.
    + apply andb_false_iff. right. apply not_true_iff_false.
      intros (h & Hin & Hs)%existsb_exists.
      rewrite forallb_forall in Hc. specialize (Hc h Hin).
      apply (conflict_startswith _ _ b) in Hc.
      cbn [app] in Hc. rewrite <- app_assoc in Hc. congruence.
  - rewrite bol_after_cons. by apply (IH _ Hq a1 x a2).
Qed.

(** *** Indented text *)

Lemma indented_app pb a c b :
  indented pb (a ++ c :: b) = true →
  bol_after pb a = true → c = tab ∨ c = nl.
Proof.
  revert pb. induction a as [|x a IH]; intros pb; simpl.
  - unfold bol_after. simpl. intros Hi ->. simpl in Hi.
    apply andb_true_iff in Hi as [Hc _].
    apply orb_true_iff in Hc as [?%bool_decide_eq_true|?%bool_decide_eq_true];
      auto.
  - intros [_ Hi]%andb_true_iff. rewrite bol_after_cons. by apply IH.
Qed.

Lemma quiet_indented_anchored heads pb v b :
  Forall (λ h, ∃ c t, h = c :: t ∧ c ≠ tab ∧ c ≠ nl) heads →
  indented pb v = true →
  quiet true heads pb v b.
Proof.
  intros Hh Hi a1 c a2 ->. unfold may_start. simpl.
  destruct (bol_after pb a1) eqn:Hb; [|done]. simpl.
  apply (indented_app _ _ _ _ Hi) in Hb.
  apply not_true_iff_false. intros (h & Hin & Hs)%existsb_exists.
  apply list_elem_of_In in Hin. rewrite Forall_forall in Hh.
  destruct (Hh h Hin) as (x & t & -> & Hx & Hx'). simpl in Hs.
  rewrite decide_False in Hs; [done|]. intros ->. by destruct Hb.
Qed.

Lemma quiet_indented_GIT pb v la b :
  indented pb v = true →
  forallb (λ h, conflict h (nl :: la)) GIT_CRATES_heads = true →
  forallb (λ h, conflict h (nl :: nl :: la)) GIT_CRATES_heads = true →
  quiet false GIT_CRATES_heads pb v (la ++ b).
Proof.
  intros Hi Hla Hla' a1 c a2 ->. unfold may_start. cbn [negb orb andb].
  unfold GIT_CRATES_heads in *. cbn [forallb existsb] in *.
  apply andb_true_iff in Hla as [H2 [H1 _]%andb_true_iff].
  apply andb_true_iff in Hla' as [H2' [H1' _]%andb_true_iff].
  apply (conflict_startswith _ _ b) in H1, H2, H1', H2'.
  cbn [app] in *.
  destruct (decide (c = nl)) as [->|Hc];
    [|simpl; by rewrite !decide_False by (by intros <-)].
  destruct a2 as [|c' a2]; [cbn [app]; by rewrite H1, H2|].
  assert (c' = tab ∨ c' = nl) as [->| ->]; [|done|].
  { apply (indented_app pb (a1 ++ [nl]) c' a2).
    - by rewrite <- app_assoc.
    - unfold bol_after. by rewrite last_snoc. }
  destruct a2 as [|c'' a2]; [cbn [app]; by rewrite H1', H2'|].
  assert (c'' = tab ∨ c'' = nl) as [->| ->]; [|done..].
  apply (indented_app pb ((a1 ++ [nl]) ++ [nl]) c'' a2).
  - by rewrite <- !app_assoc.
  - unfold bol_after. by rewrite last_snoc.
Qed.

Lemma quiet_unanchored heads pb pb' a b :
  quiet false heads pb a b → quiet false heads pb' a b.
Proof. intros Hq a1 c a2 Ha. by apply (Hq a1 c a2). Qed.

(** *** The steps of a scan *)

Lemma scan_lit re anchored heads prev a la b :
  guarded re anchored heads →
  quiet_lit anchored heads true a la = true →
  scan_matches re prev (a ++ la ++ b) 0
  = scan_matches re (last_char prev a) (la ++ b) 0.
Proof.
  intros Hg Hq. apply (scan_quiet _ anchored heads true); [done..|].
  by apply quiet_lit_sound.
Qed.

Lemma scan_lit0 re anchored heads prev a b :
  guarded re anchored heads →
  quiet_lit anchored heads true a [] = true →
  scan_matches re prev (a ++ b) 0 = scan_matches re (last_char prev a) b 0.
Proof. apply (scan_lit _ _ _ _ _ []). Qed.

Lemma scan_indented re heads prev v b :
  guarded re true heads →
  Forall (λ h, ∃ c t, h = c :: t ∧ c ≠ tab ∧ c ≠ nl) heads →
  bol prev = false →
  indented false v = true →
  scan_matches re prev (v ++ b) 0 = scan_matches re (last_char prev v) b 0.
Proof.
  intros Hg Hh Hb Hv. apply (scan_quiet _ true heads false); [done| |].
  - by rewrite Hb.
  - by apply quiet_indented_anchored.
Qed.

Lemma scan_indented_GIT re prev pb v la b :
  guarded re false GIT_CRATES_heads →
  indented pb v = true →
  forallb (λ h, conflict h (nl :: la)) GIT_CRATES_heads = true →
  forallb (λ h, conflict h (nl :: nl :: la)) GIT_CRATES_heads = true →
  scan_matches re prev (v ++ la ++ b) 0
  = scan_matches re (last_char prev v) (la ++ b) 0.
Proof.
  intros Hg Hv Hla Hla'.
  apply (scan_quiet _ false GIT_CRATES_heads true); [done..|].
  apply (quiet_unanchored _ pb). by apply quiet_indented_GIT.
Qed.

(** *** The tests of the four patterns *)

Lemma quoted_region_guarded head prev s m :
  quoted_region head prev s = Some m →
  may_start true [head] (bol prev) s = true.
Proof.
  unfold quoted_region, may_start. simpl.
  destruct (bol prev); [|done]. by destruct (startswith head s).
Qed.

Lemma CRATES_RE_guarded : guarded CRATES_RE true [lit "CRATES="].
Proof.
  intros prev s m. rewrite CRATES_RE_match. apply quoted_region_guarded.
Qed.

Lemma CRATE_LICENSE_RE_guarded :
  guarded CRATE_LICENSE_RE true [CRATE_LICENSE_head].
Proof.
  intros prev s m. rewrite CRATE_LICENSE_RE_match.
  apply quoted_region_guarded.
Qed.

Lemma GIT_CRATES_RE_guarded : guarded GIT_CRATES_RE false GIT_CRATES_heads.
Proof.
  intros prev s m. rewrite GIT_CRATES_RE_match.
  intros (ws & body & rest & Hws & -> & _)%git_region_Some.
  unfold may_start. cbn [negb orb andb]. apply existsb_exists.
  exists (ws ++ lit "declare -A GIT_CRATES=("). split.
  - apply list_elem_of_In. unfold GIT_CRATES_heads.
    rewrite !elem_of_cons, elem_of_nil in Hws.
    destruct Hws as [->|[->|[]]]; [by left|by right; left].
  - apply startswith_app.
Qed.

(** *** Segments in a row *)

Lemma bol_after_app pb a b :
  bol_after pb (a ++ b) = bol_after (bol_after pb a) b.
Proof. unfold bol_after. rewrite last_app. by destruct (last b). Qed.

Lemma quiet_nil anchored heads pb b : quiet anchored heads pb [] b.
Proof. intros a1 c a2 Ha. by destruct a1. Qed.

Lemma quiet_app anchored heads pb a a' b :
  quiet anchored heads pb a (a' ++ b) →
  quiet anchored heads (bol_after pb a) a' b →
  quiet anchored heads pb (a ++ a') b.
Proof.
  intros Ha Ha' a1 c a2 E.
  apply app_eq_inv in E as [(k & -> & E)|(k & -> & E)].
  - destruct k as [|x k]; simpl in E.
    + rewrite app_nil_r in *. by apply (Ha' [] c a2).
    + injection E as <- ->. rewrite <- app_assoc. by apply (Ha a1 c k).
  - rewrite bol_after_app. by apply (Ha' k c a2).
Qed.

Lemma quiet_last_sound anchored heads pb a :
  quiet_last anchored heads pb a = true → quiet anchored heads pb a [].
Proof.
  revert pb. induction a as [|c a IH]; intros pb Hq a1 x a2 Ha.
  { by destruct a1. }
  cbn [quiet_last] in Hq. apply andb_true_iff in Hq as [Hc Hq].
  destruct a1 as [|y a1]; simplify_eq/=.
  - rewrite app_nil_r. by apply negb_true_iff in Hc.
  - rewrite bol_after_cons. by apply (IH _ Hq a1 x a2).
Qed.

(** A document in which no match can start has none. *)
Lemma scan_quiet_all re anchored heads a :
  guarded re anchored heads →
  Forall (λ h, h ≠ []) heads →
  quiet anchored heads true a [] →
  scan_matches re None a 0 = [].
Proof.
  intros Hg Hh Hq. rewrite <- (app_nil_r a).
  rewrite (scan_quiet _ _ _ true _ _ _ Hg) by done.
  by apply (scan_end _ _ _ _ Hg).
Qed.

(** A document with one match, between two parts in which no match can
    start. *)
Lemma scan_one re anchored heads a t b m :
  guarded re anchored heads →
  Forall (λ h, h ≠ []) heads →
  quiet anchored heads true a (t ++ b) →
  re_match re (last_char None a) (t ++ b) = Some m →
  m_text m = t →
  t ≠ [] →
  quiet anchored heads (bol_after true (a ++ t)) b [] →
  scan_matches re None (a ++ t ++ b) 0 = [m].
Proof.
  intros Hg Hh Ha Hm Ht Hne Hb.
  rewrite (scan_quiet _ _ _ true _ _ _ Hg) by done.
  rewrite (scan_match _ _ _ _ _ Hm Ht Hne). f_equal.
  rewrite <- (app_nil_r b).
  rewrite (scan_quiet _ _ _ (bol_after true (a ++ t)) _ _ _ Hg); [| |done].
  - by apply (scan_end _ _ _ _ Hg).
  - intros Hbol. rewrite bol_after_app. by rewrite !bol_last_char in Hbol.
Qed.

(** *** Known text and values in a row *)

Lemma flatten_app segs segs' :
  flatten (segs ++ segs') = flatten segs ++ flatten segs'.
Proof.
  induction segs as [|x segs IH]; [done|].
  simpl. by rewrite IH, app_assoc.
Qed.

Lemma known_prefix segs la b :
  ∃ b0, flatten segs ++ la ++ b = known segs la ++ b0.
Proof.
  induction segs as [|[a|v] segs [b0 IH]]; simpl.
  - by exists b.
  - exists b0. by rewrite <- !app_assoc, IH.
  - by eexists.
Qed.

Lemma quiet_segs_sound anchored heads pb pb' segs la b :
  quiet_segs anchored heads pb segs la = true →
  (pb' = true → pb = true) →
  Forall value_ok segs →
  quiet anchored heads pb' (flatten segs) (la ++ b).
Proof.
  revert pb pb'.
  induction segs as [|[a|v] segs IH]; intros pb pb' Hq Hpb Hok;
    [apply quiet_nil|..];
    cbn [quiet_segs] in Hq; apply andb_true_iff in Hq as [Hx Hq];
    apply Forall_cons in Hok as [Hv Hok]; cbn [flatten segment_text];
    apply quiet_app;
    try (destruct (known_prefix segs la b) as [b0 ->]).
  - apply (quiet_lit_sound _ _ _ _ _ b0) in Hx.
    destruct pb; [by apply quiet_weaken|].
    destruct pb'; [by specialize (Hpb eq_refl)|done].
  - apply (IH (bol_after pb a)); [done| |done].
    unfold bol_after. destruct (last a); auto.
  - unfold quiet_value in Hx. destruct anchored.
    + apply andb_true_iff in Hx as [Hb Hh]. apply negb_true_iff in Hb.
      subst pb. destruct pb'; [by specialize (Hpb eq_refl)|].
      apply quiet_indented_anchored; [|done].
      apply Forall_forall. intros h Hin%list_elem_of_In.
      rewrite forallb_forall in Hh. specialize (Hh h Hin).
      destruct h as [|c t]; [done|].
      apply andb_true_iff in Hh as [Ht Hn].
      apply negb_true_iff, bool_decide_eq_false in Ht, Hn. by exists c, t.
    + apply andb_true_iff in Hx as [Hx H2].
      apply andb_true_iff in Hx as [->%bool_decide_eq_true H1].
      apply (quiet_unanchored _ false). by apply quiet_indented_GIT.
  - by apply (IH true).
Qed.

Lemma last_char_flatten prev segs :
  last_char prev (flatten segs)
  = foldl (λ p x, last_char p (segment_text x)) prev segs.
Proof.
  revert prev. induction segs as [|x segs IH]; intros prev; [done|].
  simpl. by rewrite <- last_char_app, IH.
Qed.

(** A document that ends in the known text [a]. *)
Lemma quiet_segs_last anchored heads pb segs a :
  quiet_segs anchored heads pb segs a = true →
  quiet_last anchored heads true a = true →
  Forall value_ok segs →
  quiet anchored heads pb (flatten segs ++ a) [].
Proof.
  intros Hq Ha Hok. apply quiet_app.
  - by apply (quiet_segs_sound _ _ pb).
  - by apply quiet_weaken, quiet_last_sound.
Qed.

End Segments.

(** ** The values that the templates receive *)

(** Membership in a known text is decided by computation. *)
Ltac not_elem :=
  lazymatch goal with
  | |- ?x ∉ ?l =>
      apply (bool_decide_eq_false_1 (x ∈ l)); vm_compute; reflexivity
  end.

Section Fields.

Lemma indented_app_eq pb a b :
  indented pb (a ++ b) = indented pb a && indented (bol_after pb a) b.
Proof.
  revert pb. induction a as [|c a IH]; intros pb; [done|].
  cbn [app indented]. by rewrite IH, bol_after_cons, andb_assoc.
Qed.

Lemma indented_oneline v : nl ∉ v → indented false v = true.
Proof.
  induction v as [|c v IH]; [done|]. intros [Hc Hv]%not_elem_of_cons.
  simpl. rewrite bool_decide_eq_false_2 by (by intros ->). auto.
Qed.

Lemma bol_after_oneline pb v : v ≠ [] → nl ∉ v → bol_after pb v = false.
Proof.
  intros Hv Hnl. unfold bol_after. destruct (last v) as [c|] eqn:Hl.
  - apply bool_decide_eq_false_2. intros ->. apply Hnl.
    apply last_Some in Hl as [l' ->]. set_solver.
  - by apply last_None in Hl.
Qed.

Lemma indented_true_false v : indented true v = true → indented false v = true.
Proof. destruct v; [done|]. simpl. by intros [_ ->]%andb_true_iff. Qed.

(** *** Numbers *)

Lemma lit_String c s : lit (String c s) = c :: lit s.
Proof. done. Qed.

Lemma str_of_nat_oneline n : nl ∉ str_of_nat n.
Proof.
  unfold str_of_nat, NilZero.string_of_uint.
  assert (∀ d, nl ∉ lit (NilEmpty.string_of_uint d)) as Hd.
  { induction d; simpl; rewrite ?lit_String, ?not_elem_of_cons;
      [apply not_elem_of_nil|by split..]. }
  destruct (Nat.to_uint n); try apply Hd.
  rewrite lit_String, not_elem_of_cons. split; [done|apply not_elem_of_nil].
Qed.

(** *** Closing delimiters *)

Lemma first_close_intro q body rest :
  q ≠ nl → eol rest = true → ends_line q body = false →
  first_close q body rest.
Proof.
  intros Hq Heol He. split; [done|]. intros b1 b2 ->.
  destruct b2 as [|c b2]; simpl.
  - by apply bool_decide_eq_false_2.
  - apply bool_decide_eq_false_2. intros ->.
    induction b1 as [|x b1 IH]; simpl in He.
    + by rewrite !bool_decide_eq_true_2 in He.
    + apply orb_false_iff in He as [_ He]. auto.
Qed.

Lemma ends_line_not_elem q v : q ∉ v → ends_line q v = false.
Proof.
  induction v as [|c v IH]; [done|]. intros [Hc Hv]%not_elem_of_cons.
  simpl. rewrite bool_decide_eq_false_2 by done. auto.
Qed.

(** A line that does not end in [q], and the newline after it. *)
Lemma ends_line_line q l rest :
  q ≠ nl → nl ∉ l → last l ≠ Some q →
  ends_line q (l ++ nl :: rest) = ends_line q rest.
Proof.
  intros Hq Hnl Hl. induction l as [|c l IH]; simpl.
  - by rewrite bool_decide_eq_false_2 by (by intros <-).
  - apply not_elem_of_cons in Hnl as [Hc Hnl].
    rewrite IH; [|done|].
    + destruct l as [|c' l]; simpl.
      * rewrite bool_decide_eq_false_2; [done|]. by intros ->.
      * apply not_elem_of_cons in Hnl as [Hc' _].
        rewrite (bool_decide_eq_false_2 (Some c' = Some nl)) by congruence.
        by rewrite andb_false_r.
    + destruct l; [done|]. by rewrite last_cons_cons in Hl.
Qed.

(** *** Escaping *)

Lemma sub_scan_chars re (cs : text) (mk : ascii → Match)
    (call : unit → Match → result (unit * text)) (r : ascii → text) :
  (∀ prev c s, re_match re prev (c :: s)
               = if bool_decide (c ∈ cs) then Some (mk c) else None) →
  (∀ prev, re_match re prev [] = None) →
  (∀ c, m_len (mk c) = 1) →
  (∀ c, call () (mk c) = Ok ((), r c)) →
  ∀ s prev,
    sub_scan re call () prev s 0
    = Ok ((), flat_map (λ c, if bool_decide (c ∈ cs) then r c else [c]) s).
Proof.
  intros Hm Hnil Hlen Hcall. induction s as [|c s IH]; intros prev; simpl.
  - by rewrite Hnil.
  - rewrite Hm. destruct (bool_decide (c ∈ cs)).
    + rewrite Hcall. simpl. rewrite Hlen, IH. done.
    + by rewrite IH.
Qed.

Lemma bash_dquote_escape_eq value :
  bash_dquote_escape value
  = Ok (flat_map (λ c, if bool_decide (c ∈ lit "$`" ++ [dq; bslash])
                       then [bslash; c] else [c]) value).
Proof.
  unfold bash_dquote_escape, re_sub.
  rewrite (sub_scan_chars _ (lit "$`" ++ [dq; bslash])
             (λ c, {| m_text := [c]; m_groups := [("1", [c])] |})
             _ (λ c, [bslash; c])); try done.
  intros prev c s'. unfold re_match, DQUOTE_SPECIAL_RE. cbn [exec].
  destruct (bool_decide _); [|done]. by rewrite !take_one_sub.
Qed.

Lemma url_dquote_escape_eq value :
  url_dquote_escape value
  = Ok (flat_map (λ c, if bool_decide (c ∈ lit "$`" ++ [dq; bslash] ++ whitespace)
                       then quote_plus [c] else [c]) value).
Proof.
  unfold url_dquote_escape, re_sub.
  rewrite (sub_scan_chars _ (lit "$`" ++ [dq; bslash] ++ whitespace)
             (λ c, {| m_text := [c]; m_groups := [] |})
             _ (λ c, quote_plus [c])); try done.
  intros prev c s'. unfold re_match, DQUOTE_SPECIAL_PLUS_WS_RE. cbn [exec].
  destruct (bool_decide _); [|done]. by rewrite !take_one_sub.
Qed.

(** The two examples of the specification. *)
Example bash_dquote_escape_example :
  bash_dquote_escape (lit "He said " ++ [dq] ++ lit "hi" ++ [dq] ++ lit " $HOME")
  = Ok (lit "He said " ++ [bslash; dq] ++ lit "hi" ++ [bslash; dq]
          ++ lit " " ++ [bslash] ++ lit "$HOME").
Proof. reflexivity. Qed.

Example collapse_whitespace_example :
  collapse_whitespace (lit "a   b" ++ [nl; tab] ++ lit "c") = lit "a b c".
Proof. reflexivity. Qed.

(** The no-break space and the next-line character are whitespace as
    well. *)
Example collapse_whitespace_latin1 :
  collapse_whitespace (lit "a" ++ ["160"%char] ++ lit "b" ++ ["133"%char]
                         ++ lit "c")
  = lit "a b c".
Proof. reflexivity. Qed.

Example url_dquote_escape_example :
  url_dquote_escape (lit "https://example.org/a b$c")
  = Ok (lit "https://example.org/a+b%24c").
Proof. vm_compute. reflexivity. Qed.

(** A character above the ASCII range is encoded as the two bytes that it
    has in UTF-8. *)
Example url_dquote_escape_latin1 :
  url_dquote_escape (lit "a" ++ ["160"%char] ++ lit "b")
  = Ok (lit "a%C2%A0b").
Proof. vm_compute. reflexivity. Qed.

Lemma flat_map_not_elem (f : ascii → text) x v :
  (∀ c, c ∈ v → x ∉ f c) → x ∉ flat_map f v.
Proof.
  intros Hf Hx. apply list_elem_of_In, in_flat_map in Hx as (c & Hc & Hx).
  apply (Hf c); by apply list_elem_of_In.
Qed.

Lemma join_not_elem x sep l :
  x ∉ sep → Forall (λ w, x ∉ w) l → x ∉ join sep l.
Proof.
  intros Hsep. induction 1 as [|w l Hw Hl IH]; [apply not_elem_of_nil|].
  simpl. destruct l as [|w' l]; [done|].
  rewrite !not_elem_of_app. auto.
Qed.

Lemma split_go_no_space cur s :
  Forall (λ c, is_space c = false) cur →
  Forall (Forall (λ c, is_space c = false)) (split_go cur s).
Proof.
  revert cur. induction s as [|c s IH]; intros cur Hcur; simpl.
  - destruct cur; [done|]. repeat constructor. by apply Forall_reverse.
  - destruct (is_space c) eqn:Hc.
    + destruct cur; [by apply IH|].
      constructor; [by apply Forall_reverse|by apply IH].
    + apply IH. by constructor.
Qed.

Lemma collapse_whitespace_oneline value : nl ∉ collapse_whitespace value.
Proof.
  unfold collapse_whitespace. apply join_not_elem.
  - not_elem.
  - eapply Forall_impl; [apply (split_go_no_space [] value); constructor|].
    intros w Hw Hnl. rewrite Forall_forall in Hw. by apply Hw in Hnl.
Qed.

Lemma description_oneline value d :
  bash_dquote_escape (collapse_whitespace value) = Ok d → nl ∉ d.
Proof.
  rewrite bash_dquote_escape_eq. intros [= <-].
  apply flat_map_not_elem. intros c Hc.
  assert (c ≠ nl) by (intros ->; by apply (collapse_whitespace_oneline value)).
  destruct (bool_decide _); rewrite !not_elem_of_cons;
    split_and!; try done; apply not_elem_of_nil.
Qed.

Lemma quote_plus_oneline c : nl ∉ quote_plus [c].
Proof.
  destruct c as [[] [] [] [] [] [] [] []]; not_elem.
Qed.

Lemma homepage_oneline value h :
  url_dquote_escape value = Ok h → nl ∉ h.
Proof.
  rewrite url_dquote_escape_eq. intros [= <-].
  apply flat_map_not_elem. intros c Hc.
  case_bool_decide as Hcs; [apply quote_plus_oneline|].
  rewrite not_elem_of_cons. split; [|apply not_elem_of_nil].
  intros <-. apply Hcs.
  apply (bool_decide_eq_true_1 (nl ∈ _)). reflexivity.
Qed.

(** *** Lines *)

Lemma join_cons_app sep l L tail :
  join sep (l :: L) ++ sep ++ tail = l ++ sep ++ join sep L ++
    match L with [] => tail | _ :: _ => sep ++ tail end.
Proof.
  simpl. destruct L as [|l' L]; [done|]. by rewrite <- !app_assoc.
Qed.

(** What holds after every line of a joined text that ends in a newline. *)
Lemma join_lines_ind (P : text → Prop) (Q : text → Prop) L tail :
  (∀ l rest, Q l → P rest → P (l ++ nl :: rest)) →
  Forall Q L →
  P (nl :: tail) → P tail →
  P (join [nl] L ++ nl :: tail).
Proof.
  intros Hstep HL Hnl Htail. induction HL as [|l L Hl HL IH]; [done|].
  destruct L as [|l' L].
  - simpl. by apply Hstep.
  - change (join [nl] (l :: l' :: L)) with (l ++ [nl] ++ join [nl] (l' :: L)).
    rewrite <- !app_assoc. by apply Hstep.
Qed.

Lemma indented_tab_line pb l rest :
  tab_line l → indented true rest = true →
  indented pb (l ++ nl :: rest) = true.
Proof.
  intros (e & -> & He) Hrest. cbn [app indented].
  rewrite bool_decide_eq_true_2, orb_true_r by done. cbn [orb andb].
  rewrite bool_decide_eq_false_2 by done.
  rewrite indented_app_eq, (indented_oneline _ He). cbn [andb indented].
  by rewrite !(bool_decide_eq_true_2 (nl = nl)), orb_true_r by done.
Qed.

Lemma indented_join_lines L tail :
  Forall tab_line L → indented true tail = true →
  indented true (join [nl] L ++ nl :: tail) = true.
Proof.
  intros HL Htail.
  apply (join_lines_ind (λ t, indented true t = true) tab_line); try done.
  intros l rest. apply indented_tab_line.
Qed.

Lemma ends_line_join_lines q L tail :
  q ≠ nl →
  Forall (λ l, (nl ∉ l) ∧ (last l ≠ Some q)) L →
  ends_line q tail = false →
  ends_line q (join [nl] L ++ nl :: tail) = false.
Proof.
  intros Hq HL Htail.
  apply (join_lines_ind (λ t, ends_line q t = false)
           (λ l, (nl ∉ l) ∧ (last l ≠ Some q))); try done.
  - intros l rest [Hl Hlast] Hrest. by rewrite ends_line_line.
  - simpl. by rewrite bool_decide_eq_false_2 by (by intros <-).
Qed.

(** *** CRATES *)

Lemma get_CRATES_plain crates :
  Forall (λ e, (nl ∉ e) ∧ (dq ∉ e)) (file_entries crates) →
  plain_value (get_CRATES crates).
Proof.
  intros He. destruct crates as [|c crates]; [split; [not_elem|reflexivity]|].
  rewrite get_CRATES_cons. set (entries := file_entries (c :: crates)) in *.
  assert (Forall (λ e, (nl ∉ e) ∧ (dq ∉ e)) (sorted entries)) as Hs
    by by rewrite sorted_Permutation.
  split.
  - rewrite !not_elem_of_app. split_and!; [not_elem| |not_elem].
    apply join_not_elem; [not_elem|]. apply Forall_fmap.
    eapply Forall_impl; [exact Hs|]. intros e [_ Hdq]. simpl.
    rewrite not_elem_of_cons. by split.
  - cbn [app indented].
    rewrite !(bool_decide_eq_true_2 (nl = nl)) by done. cbn [negb orb andb].
    apply indented_join_lines; [|done].
    apply Forall_fmap. eapply Forall_impl; [exact Hs|].
    intros e [Hnl _]. by exists e.
Qed.

(** *** GIT_CRATES *)

Lemma shlex_quote_oneline s : nl ∉ s → nl ∉ shlex_quote s.
Proof.
  intros Hs. unfold shlex_quote. destruct s as [|c s]; [not_elem|].
  destruct (forallb shlex_safe (c :: s)); [done|].
  rewrite !not_elem_of_app. split_and!; [not_elem| |not_elem].
  apply flat_map_not_elem. intros x Hx. case_decide; [not_elem|].
  rewrite not_elem_of_cons. split; [|apply not_elem_of_nil].
  by intros <-.
Qed.

Lemma shlex_quote_last s : last (shlex_quote s) ≠ Some ")"%char.
Proof.
  unfold shlex_quote. destruct s as [|c s]; [done|].
  destruct (forallb shlex_safe (c :: s)) eqn:Hsafe.
  - intros Hl. apply last_Some in Hl as [l' Hl].
    rewrite forallb_forall in Hsafe.
    assert (In ")"%char (c :: s)) as Hin
      by (rewrite Hl; apply in_or_app; right; by left).
    by apply Hsafe in Hin.
  - by rewrite (assoc_L (++)), last_snoc.
Qed.

Lemma git_lines_ok crates distdir lines :
  Forall (λ c, is_git_crate c = true →
               (nl ∉ crate_name c) ∧
               (∀ e, get_git_crate_entry distdir c = Ok e → nl ∉ e))
    crates →
  git_lines crates distdir = Ok lines →
  Forall git_line_ok lines.
Proof.
  unfold git_lines. intros Hcrates. revert lines.
  induction Hcrates as [|c crates Hc _ IH]; intros lines;
    cbn [List.filter].
  - intros [= <-]. constructor.
  - destruct (is_git_crate c) eqn:Hgit; [|apply IH].
    rewrite mapM_cons_Ok.
    intros (l & ls & (entry & He & ->)%git_line_inv & Hls%IH & ->).
    destruct Hc as [Hname Hentry]; [done|].
    apply Hentry, shlex_quote_oneline in He as Hq.
    constructor; [|done]. set (name := crate_name c) in *.
    set (q := shlex_quote entry) in *.
    assert (nl ∉ lit "[" ++ name ++ lit "]=" ++ q) as Hnl.
    { rewrite !not_elem_of_app. split_and!; [not_elem|done|not_elem|done]. }
    split_and!.
    + by eexists.
    + cbn [app]. rewrite not_elem_of_cons. by split.
    + rewrite !last_app.
      pose proof (shlex_quote_last entry) as Hl. fold q in Hl.
      destruct (last q) eqn:Eq; [done|].
      apply last_None in Eq. unfold q, shlex_quote in Eq.
      destruct entry as [|x e]; [done|].
      destruct (forallb _ _); [done|]. by destruct (flat_map _ _).
Qed.

(** The GIT_CRATES block is empty, or the declaration around the lines of
    the values. *)
Lemma get_GIT_CRATES_shape crates distdir g :
  Forall (λ c, is_git_crate c = true →
               (nl ∉ crate_name c) ∧
               (∀ e, get_git_crate_entry distdir c = Ok e → nl ∉ e))
    crates →
  get_GIT_CRATES crates distdir = Ok g →
  g = [] ∨
  ∃ values,
    g = ([nl; nl] ++ lit "declare -A GIT_CRATES=(") ++ ([nl] ++ values ++ [nl])
          ++ lit ")" ∧
    values ≠ [] ∧
    indented true (values ++ [nl]) = true ∧
    ends_line ")" ([nl] ++ values ++ [nl]) = false.
Proof.
  intros Hc (ls & Hls & ->)%get_GIT_CRATES_Ok. unfold GIT_CRATES_block.
  pose proof (git_lines_ok _ _ _ Hc Hls) as Hl.
  rewrite <- sorted_Permutation in Hl.
  set (L := sorted ls) in *.
  destruct (join [nl] L) as [|x v] eqn:Hj; [by left|right].
  exists (x :: v). rewrite <- Hj. split_and!.
  - by rewrite <- !app_assoc.
  - by rewrite Hj.
  - apply indented_join_lines; [|done].
    eapply Forall_impl; [exact Hl|]. by intros l [? _].
  - cbn [app ends_line head]. cbn [andb orb].
    rewrite (bool_decide_eq_false_2 (nl = ")"%char)) by done. cbn [andb orb].
    apply ends_line_join_lines; [done| |done].
    eapply Forall_impl; [exact Hl|]. by intros l (_ & ? & ?).
Qed.

End Fields.

(** ** Rendering and then updating *)

Section RoundTrip.

Lemma template_segments year version C g desc home name plv clv :
  EBUILD_TEMPLATE_START year version C (flatten (Segment.git g)) desc home
    (flatten (Segment.tarball name)) plv
  ++ flatten (Segment.license_block clv) ++ EBUILD_TEMPLATE_END
  = flatten (Segment.front year version ++ Segment.crates C ++ Segment.git g
             ++ Segment.middle desc home name plv
             ++ Segment.license_block clv)
    ++ EBUILD_TEMPLATE_END.
Proof.
  rewrite !flatten_app. unfold EBUILD_TEMPLATE_START, Segment.middle.
  rewrite !flatten_app. cbn [flatten segment_text Segment.front Segment.crates].
  unfold Segment.copyright, Segment.authors, Segment.eapi, Segment.inherit,
    Segment.homepage, Segment.src_uri, Segment.license.
  rewrite <- !app_assoc. cbn [app]. by rewrite ?app_nil_r.
Qed.

Lemma tarball_segments name :
  EBUILD_TEMPLATE_CRATE_TARBALL name = flatten (Segment.tarball (Some name)).
Proof.
  unfold EBUILD_TEMPLATE_CRATE_TARBALL. cbn [Segment.tarball flatten segment_text].
  unfold Segment.tarball_open, Segment.tarball_close.
  rewrite <- !app_assoc. cbn [app]. by rewrite ?app_nil_r.
Qed.

Lemma license_segments clv :
  EBUILD_TEMPLATE_CRATE_LICENSE clv
  = flatten (Segment.license_block (Some clv)).
Proof.
  unfold EBUILD_TEMPLATE_CRATE_LICENSE.
  cbn [Segment.license_block flatten segment_text].
  unfold CRATE_LICENSE_head. rewrite <- !app_assoc. cbn [app].
  by rewrite ?app_nil_r.
Qed.

(** A substitution that finds at most one match, and returns its text. *)
Lemma replace_scan_fixed re r s :
  length (scan_matches re None s 0) ≤ 1 →
  Forall (λ m, r m = m_text m) (scan_matches re None s 0) →
  replace_scan re r None s 0 = s.
Proof.
  unfold scan_matches. intros Hl Hr.
  destruct (find_scan re None s 0 0) as [|[i m] [|]] eqn:Hf.
  - by rewrite (replace_scan_none _ _ _ _ _ _ Hf).
  - destruct (replace_scan_single re r _ _ _ _ _ _ Hf)
      as (a & b & -> & _ & _ & _ & ->).
    simpl in Hr. apply Forall_cons in Hr as [-> _]. done.
  - simpl in Hl. lia.
Qed.

(** *** The matches in a rendered document *)

Section Document.
Variables (year version C desc home plv : text) (g name clv : option text).

Let segs : list segment :=
  Segment.front year version ++ Segment.crates C ++ Segment.git g
  ++ Segment.middle desc home name plv ++ Segment.license_block clv.

Let doc : text := flatten segs ++ EBUILD_TEMPLATE_END.

Hypothesis Hvalues : Forall value_ok segs.
Hypothesis HC : dq ∉ C.
Hypothesis Hg : ∀ b, g = Some b → ends_line ")" b = false.
Hypothesis Hclv : ∀ v, clv = Some v → dq ∉ v.

Local Ltac known_last := rewrite last_char_flatten; reflexivity.

Local Ltac values_ok :=
  let H := fresh in
  pose proof Hvalues as H; unfold segs in H;
  rewrite ?Forall_app in H; rewrite ?Forall_app; tauto.

Lemma scan_CRATES :
  scan_matches CRATES_RE None doc 0 = [Segment.CRATES_match C].
Proof using All.
  set (rest := Segment.git g ++ Segment.middle desc home name plv
               ++ Segment.license_block clv).
  assert (doc = flatten (Segment.front year version)
                ++ (lit "CRATES=" ++ dq :: C ++ [dq])
                ++ flatten rest ++ EBUILD_TEMPLATE_END) as ->.
  { unfold doc, segs. fold rest. rewrite !flatten_app.
    cbn [flatten segment_text Segment.crates].
    rewrite <- !app_assoc. cbn [app]. by rewrite <- ?app_assoc. }
  apply (scan_one _ true [lit "CRATES="]).
  - apply CRATES_RE_guarded.
  - by repeat constructor.
  - apply (quiet_segs_sound true _ true true _ []);
      [vm_compute; reflexivity|done|values_ok].
  - rewrite CRATES_RE_match.
    assert (∀ b, (lit "CRATES=" ++ dq :: C ++ [dq]) ++ b
                 = lit "CRATES=" ++ dq :: C ++ dq :: b) as ->.
    { intros b. rewrite <- app_assoc. cbn [app]. by rewrite <- app_assoc. }
    apply quoted_region_intro.
    + known_last.
    + rewrite !elem_of_cons. auto.
    + apply first_close_intro; [done| |by apply ends_line_not_elem].
      unfold rest. by destruct g.
  - done.
  - done.
  - apply quiet_weaken, quiet_segs_last;
      [unfold rest; destruct g, name, clv; vm_compute; reflexivity
      |vm_compute; reflexivity|unfold rest; values_ok].
Qed.

Lemma scan_GIT_CRATES :
  scan_matches GIT_CRATES_RE None doc 0
  = match g with
    | Some b => [Segment.GIT_CRATES_match b]
    | None => []
    end.
Proof using All.
  assert (Forall (λ h : text, h ≠ []) GIT_CRATES_heads) as Hheads
    by by repeat constructor.
  destruct g as [b|] eqn:Eg.
  - set (rest := Segment.middle desc home name plv
                 ++ Segment.license_block clv).
    assert (doc = flatten (Segment.front year version ++ Segment.crates C)
                  ++ (([nl; nl] ++ lit "declare -A GIT_CRATES=(")
                        ++ b ++ lit ")")
                  ++ flatten rest ++ EBUILD_TEMPLATE_END) as ->.
    { unfold doc, segs. fold rest. rewrite !flatten_app.
      cbn [flatten segment_text Segment.git]. unfold Segment.git_open.
      rewrite <- !app_assoc. cbn [app]. by rewrite <- ?app_assoc. }
    apply (scan_one _ false GIT_CRATES_heads).
    + apply GIT_CRATES_RE_guarded.
    + done.
    + apply (quiet_segs_sound false _ true true _ []);
        [vm_compute; reflexivity|done|values_ok].
    + rewrite GIT_CRATES_RE_match. unfold git_region.
      assert (∀ r, (([nl; nl] ++ lit "declare -A GIT_CRATES=(")
                      ++ b ++ lit ")") ++ r
                   = ([nl; nl] ++ lit "declare -A GIT_CRATES=(")
                       ++ b ++ ")"%char :: r) as ->.
      { intros r. by rewrite <- !app_assoc. }
      rewrite git_block_intro; [done|].
      apply first_close_intro; [done|done|by apply Hg].
    + done.
    + done.
    + apply quiet_weaken, quiet_segs_last;
        [unfold rest; destruct name, clv; vm_compute; reflexivity
        |vm_compute; reflexivity|unfold rest; values_ok].
  - apply (scan_quiet_all _ false GIT_CRATES_heads);
      [apply GIT_CRATES_RE_guarded|done|].
    apply quiet_segs_last;
      [unfold segs; destruct name, clv; vm_compute; reflexivity
      |vm_compute; reflexivity|done].
Qed.

Lemma scan_CRATE_LICENSE :
  scan_matches CRATE_LICENSE_RE None doc 0
  = match clv with
    | Some v => [Segment.CRATE_LICENSE_match v]
    | None => []
    end.
Proof using All.
  assert (Forall (λ h : text, h ≠ []) [CRATE_LICENSE_head]) as Hheads
    by by repeat constructor.
  destruct clv as [v|] eqn:Ev.
  - set (before := Segment.front year version ++ Segment.crates C
                   ++ Segment.git g ++ Segment.middle desc home name plv).
    assert (doc = flatten before
                  ++ (CRATE_LICENSE_head ++ dq :: v ++ [dq])
                  ++ [nl] ++ EBUILD_TEMPLATE_END) as ->.
    { unfold doc, segs, before. rewrite !flatten_app.
      cbn [flatten segment_text Segment.license_block].
      rewrite <- !app_assoc. cbn [app]. by rewrite <- ?app_assoc. }
    apply (scan_one _ true [CRATE_LICENSE_head]).
    + apply CRATE_LICENSE_RE_guarded.
    + done.
    + apply (quiet_segs_sound true _ true true _ []);
        [unfold before; destruct g, name; vm_compute; reflexivity|done
        |unfold before; values_ok].
    + rewrite CRATE_LICENSE_RE_match.
      assert (∀ r, (CRATE_LICENSE_head ++ dq :: v ++ [dq]) ++ r
                   = CRATE_LICENSE_head ++ dq :: v ++ dq :: r) as ->.
      { intros r. rewrite <- app_assoc. cbn [app]. by rewrite <- app_assoc. }
      apply (quoted_region_intro CRATE_LICENSE_head).
      * unfold before. destruct g, name; known_last.
      * rewrite !elem_of_cons. auto.
      * apply first_close_intro; [done|done|].
        by apply ends_line_not_elem, Hclv.
    + done.
    + done.
    + apply quiet_weaken, quiet_last_sound. vm_compute. reflexivity.
  - apply (scan_quiet_all _ true [CRATE_LICENSE_head]);
      [apply CRATE_LICENSE_RE_guarded|done|].
    apply quiet_segs_last;
      [unfold segs; destruct g, name; vm_compute; reflexivity
      |vm_compute; reflexivity|done].
Qed.

(** Each substitution puts back what it finds. *)

Lemma replace_CRATES :
  replace_scan CRATES_RE (counting_repl C) None doc 0 = doc ∧
  match_count CRATES_RE doc = 1.
Proof using All.
  rewrite match_count_matches. split; [|by rewrite scan_CRATES].
  apply replace_scan_fixed; rewrite scan_CRATES; [done|].
  by repeat constructor.
Qed.

Lemma replace_GIT_CRATES :
  replace_scan GIT_CRATES_RE (git_repl (flatten (Segment.git g))) None doc 0
  = doc ∧
  match_count GIT_CRATES_RE doc = (if g is Some _ then 1 else 0).
Proof using All.
  rewrite match_count_matches. split; [|rewrite scan_GIT_CRATES; by destruct g].
  apply replace_scan_fixed; rewrite scan_GIT_CRATES; destruct g as [b|];
    simpl; [lia|lia|by repeat constructor|constructor].
Qed.

Lemma replace_CRATE_LICENSE v :
  (∀ v', clv = Some v' → v = v') →
  replace_scan CRATE_LICENSE_RE (counting_repl v) None doc 0 = doc ∧
  match_count CRATE_LICENSE_RE doc = (if clv is Some _ then 1 else 0).
Proof using All.
  intros Hv. rewrite match_count_matches.
  split; [|rewrite scan_CRATE_LICENSE; by destruct clv].
  apply replace_scan_fixed; rewrite scan_CRATE_LICENSE;
    destruct clv as [v'|]; simpl; [lia|lia| |constructor].
  rewrite (Hv v' eq_refl). by repeat constructor.
Qed.

End Document.

Lemma get_GIT_CRATES_segments crates distdir git_crates :
  Forall (λ c, is_git_crate c = true →
               (nl ∉ crate_name c) ∧
               (∀ e, get_git_crate_entry distdir c = Ok e → nl ∉ e))
    crates →
  get_GIT_CRATES crates distdir = Ok git_crates →
  ∃ g, git_crates = flatten (Segment.git g) ∧
       Forall value_ok (Segment.git g) ∧
       ∀ b, g = Some b → ends_line ")" b = false.
Proof.
  intros Hc Hgc.
  destruct (get_GIT_CRATES_shape _ _ _ Hc Hgc)
    as [->|(values & -> & _ & Hi & He)].
  - exists None. split_and!; [done|constructor|done].
  - exists (Some ([nl] ++ values ++ [nl])). split_and!.
    + cbn [Segment.git flatten segment_text]. unfold Segment.git_open.
      by rewrite app_nil_r, <- !app_assoc.
    + repeat constructor. exact Hi.
    + by intros b [= <-].
Qed.

Lemma crates_value_plain crates crate_tarball :
  Forall (λ e, (nl ∉ e) ∧ (dq ∉ e)) (file_entries crates) →
  plain_value (crates_value crates crate_tarball).
Proof.
  intros He. unfold crates_value. apply get_CRATES_plain.
  destruct crate_tarball; [constructor|done].
Qed.

Section FixedPoint.
Context `{Licensing} `{Runtime}.

(** C1, as the code has it: when the values that are rendered are plain,
    the document that [get_ebuild] renders is returned unchanged, byte for
    byte, by [update_ebuild] with the same inputs.  The values are plain
    when the program version, the entries of the crates, the names and
    entries of the git crates and the name of the tarball have no newline,
    the entries of the crates have no double quote, every line after the
    first of the two LICENSE values is empty or starts with a tab, and the
    value of the crate licenses has no double quote. *)
Theorem get_ebuild_update_ebuild (pkg_meta : PackageMetadata)
    (crates : list Crate) (distdir : Distdir) (crate_license : bool)
    (crate_tarball : option Path) (license_overrides : gmap text text)
    (doc : text) :
  nl ∉ prog_version →
  Forall (λ e, (nl ∉ e) ∧ (dq ∉ e)) (file_entries crates) →
  Forall (λ c, is_git_crate c = true →
               (nl ∉ crate_name c) ∧
               (∀ e, get_git_crate_entry distdir c = Ok e → nl ∉ e))
    crates →
  (∀ p, crate_tarball = Some p → nl ∉ path_name p) →
  (∀ v, get_package_LICENSE (pm_license pkg_meta) = Ok v →
        indented false v = true) →
  (∀ v, crate_license = true →
        get_crate_LICENSE crates distdir license_overrides = Ok v →
        plain_value v) →
  get_ebuild pkg_meta crates distdir crate_license crate_tarball
    license_overrides = Ok doc →
  update_ebuild doc pkg_meta crates distdir crate_license crate_tarball
    license_overrides = Ok doc.
Proof.
  intros Hver Hentries Hgit Htar Hplv Hclv Hdoc.
  unfold get_ebuild in Hdoc.
  destruct (get_crate_LICENSE crates distdir license_overrides)
    as [clv|] eqn:Eclv; [|done].
  cbn [mbind result_bind] in Hdoc.
  destruct (bash_dquote_escape _) as [desc|] eqn:Edesc; [|done].
  destruct (url_dquote_escape _) as [home|] eqn:Ehome; [|done].
  destruct (get_GIT_CRATES crates distdir) as [git_crates|] eqn:Egc; [|done].
  destruct (get_package_LICENSE _) as [plv|] eqn:Eplv; [|done].
  cbn [mbind result_bind] in Hdoc.
  apply (f_equal (λ r, match r with Ok d => d | Raise _ => [] end)) in Hdoc.
  cbv beta iota in Hdoc.
  destruct (get_GIT_CRATES_segments _ _ _ Hgit Egc)
    as (g & Eg & Hgok & Hgend).
  set (name := path_name <$> crate_tarball).
  set (l := if crate_license then Some clv else None).
  set (C := crates_value crates crate_tarball) in *.
  assert (doc = flatten (Segment.front (str_of_nat today_year) prog_version
                         ++ Segment.crates C ++ Segment.git g
                         ++ Segment.middle desc home name plv
                         ++ Segment.license_block l)
                ++ EBUILD_TEMPLATE_END) as Edoc.
  { rewrite <- Hdoc, Eg, <- template_segments.
    f_equal; [|f_equal].
    - f_equal. unfold name. destruct crate_tarball; [|done].
      apply tarball_segments.
    - unfold l. destruct crate_license; [|done]. apply license_segments. }
  assert (Forall value_ok
            (Segment.front (str_of_nat today_year) prog_version
             ++ Segment.crates C ++ Segment.git g
             ++ Segment.middle desc home name plv
             ++ Segment.license_block l)) as Hvalues.
  { unfold Segment.middle. rewrite !Forall_app. split_and!; [| |done|..].
    - repeat constructor; apply indented_oneline;
        [apply str_of_nat_oneline|done].
    - repeat constructor. apply (crates_value_plain _ _ Hentries).
    - repeat constructor; apply indented_oneline;
        [by eapply description_oneline|by eapply homepage_oneline].
    - unfold name. destruct crate_tarball as [p|]; [|constructor].
      repeat constructor. apply indented_oneline. by apply Htar.
    - repeat constructor. by apply Hplv.
    - unfold l. destruct crate_license; [|constructor].
      repeat constructor. by apply Hclv. }
  assert (dq ∉ C) as HC by apply (crates_value_plain _ _ Hentries).
  assert (∀ v, l = Some v → dq ∉ v) as Hl.
  { unfold l. intros v. destruct crate_license; [|done].
    intros [= <-]. by apply Hclv. }
  destruct (replace_CRATES _ _ _ _ _ _ _ _ _ Hvalues HC Hgend Hl)
    as [RC NC].
  destruct (replace_GIT_CRATES _ _ _ _ _ _ _ _ _ Hvalues HC Hgend Hl)
    as [RG NG].
  destruct (replace_CRATE_LICENSE _ _ _ _ _ _ _ _ _ Hvalues HC Hgend Hl clv)
    as [RL NL].
  { unfold l. intros v'. destruct crate_license; [by intros [= <-]|done]. }
  rewrite <- Edoc in RC, NC, RG, NG, RL, NL.
  rewrite update_ebuild_unfold. unfold update_ebuild_pure. fold C.
  rewrite RC, Egc. cbn [git_patch mbind result_bind].
  rewrite Eg, RG, Eclv. cbn [license_patch mbind result_bind].
  rewrite RL, NC, check_count_Ok. cbn [mbind result_bind].
  rewrite NL.
  assert ((if l is Some _ then 1 else 0) = (if crate_license then 1 else 0))
    as -> by (unfold l; by destruct crate_license).
  rewrite check_count_Ok. cbn [mbind result_bind]. rewrite NG.
  destruct g as [b|]; [|done].
  rewrite decide_False by done. by rewrite check_count_Ok.
Qed.

End FixedPoint.

End RoundTrip.

Lemma get_ebuild_update_ebuild_witness :
  let crates := [Conj.file_crate "foo" "1.0"; Conj.git_crate "baz"] in
  let distdir := Conj.distdir Conj.licenses in
  @get_ebuild Conj.licensing (Conj.runtime false) Conj.pkg crates distdir
    true None ∅ = Ok Conj.rendered ∧
  @update_ebuild Conj.licensing (Conj.runtime false) Conj.rendered Conj.pkg
    crates distdir true None ∅ = Ok Conj.rendered.
Proof.
  intros crates distdir.
  assert (@get_ebuild Conj.licensing (Conj.runtime false) Conj.pkg crates
            distdir true None ∅ = Ok Conj.rendered) as Hdoc
    by (vm_compute; reflexivity).
  split; [exact Hdoc|].
  apply (get_ebuild_update_ebuild (H:=Conj.licensing)
           (H0:=Conj.runtime false) Conj.pkg crates distdir true None ∅
           Conj.rendered).
  - not_elem.
  - repeat constructor; not_elem.
  - apply Forall_cons. split; [intros Hc; vm_compute in Hc; discriminate|].
    apply Forall_cons. split; [|constructor].
    intros _. split; [not_elem|]. intros e [= <-]. not_elem.
  - discriminate.
  - intros v Hv. vm_compute in Hv. injection Hv as <-. reflexivity.
  - intros v _ Hv. vm_compute in Hv. injection Hv as <-.
    split; [not_elem|reflexivity].
  - exact Hdoc.
Defined.

(** C1 as it is stated fails for a crate whose entry ends in a double quote:
    the entry is rendered as it is, the CRATES value that the patcher finds
    ends at that quote, and the document returned has one more line. *)
Lemma get_ebuild_update_ebuild_quote :
  let crates := [Conj.quoted_crate] in
  let distdir := Conj.distdir Conj.licenses in
  ∃ doc out,
    @get_ebuild Conj.licensing (Conj.runtime false) Conj.pkg crates distdir
      false None ∅ = Ok doc ∧
    @update_ebuild Conj.licensing (Conj.runtime false) doc Conj.pkg crates
      distdir false None ∅ = Ok out ∧
    out ≠ doc.
Proof.
  intros crates distdir. eexists _, _. split_and!.
  - vm_compute. reflexivity.
  - vm_compute. reflexivity.
  - vm_compute. congruence.
Qed.

(** ** Escaping *)

Section Escaping.

Lemma flat_map_length_filter (P : ascii → bool) (f : ascii → text) v n :
  (∀ c, length (f c) = if P c then S n else 1) →
  length (flat_map f v) = length v + n * length (filter (λ c, P c = true) v).
Proof.
  intros Hf. induction v as [|c v IH]; [simpl; lia|].
  cbn [flat_map]. rewrite length_app, Hf, IH, filter_cons.
  destruct (P c) eqn:Hc.
  - rewrite decide_True by done. simpl. lia.
  - rewrite decide_False by congruence. simpl. lia.
Qed.

Lemma dquote_read_escaped value :
  dquote_read (flat_map (λ c, if bool_decide (c ∈ lit "$`" ++ [dq; bslash])
                              then [bslash; c] else [c]) value)
  = Some value.
Proof.
  induction value as [|c value IH]; [done|]. cbn [flat_map].
  fold dquote_special in *. case_bool_decide as Hc.
  - cbn [app dquote_read]. rewrite decide_True by done.
    rewrite bool_decide_eq_true_2 by done. by rewrite IH.
  - cbn [app dquote_read]. rewrite decide_False.
    + rewrite bool_decide_eq_false_2 by done. by rewrite IH.
    + intros ->. apply Hc.
      apply (bool_decide_eq_true_1 (bslash ∈ dquote_special)).
      vm_compute. reflexivity.
Qed.

(** X1: the text that [bash_dquote_escape] returns is read back as the text
    it was given: every special character of the result follows a backslash
    that escapes it, and no other backslash is added. *)
Theorem bash_dquote_escape_read (value : text) :
  ∃ escaped,
    bash_dquote_escape value = Ok escaped ∧
    dquote_read escaped = Some value.
Proof.
  rewrite bash_dquote_escape_eq. eexists. split; [done|].
  apply dquote_read_escaped.
Qed.

(** X2: two different texts are never escaped to the same text. *)
Theorem bash_dquote_escape_injective (v1 v2 escaped : text) :
  bash_dquote_escape v1 = Ok escaped →
  bash_dquote_escape v2 = Ok escaped →
  v1 = v2.
Proof.
  rewrite !bash_dquote_escape_eq. intros H1 H2.
  assert (Some v1 = Some v2) as [=]; [|done].
  rewrite <- (dquote_read_escaped v1), <- (dquote_read_escaped v2).
  f_equal. congruence.
Qed.

(** X3: a text is returned as it is exactly when it has none of the four
    special characters; each special character makes the result one
    character longer. *)
Theorem bash_dquote_escape_plain (value : text) :
  bash_dquote_escape value = Ok value ↔
  Forall (λ c, c ∉ lit "$`" ++ [dq; bslash]) value.
Proof.
  rewrite bash_dquote_escape_eq.
  set (f := λ c : ascii, if bool_decide (c ∈ lit "$`" ++ [dq; bslash])
                         then [bslash; c] else [c]).
  split.
  - intros [= E]. apply (f_equal length) in E.
    rewrite (flat_map_length_filter
               (λ c, bool_decide (c ∈ lit "$`" ++ [dq; bslash])) f _ 1) in E
      by (intros c; unfold f; by destruct (bool_decide _)).
    assert (filter (λ c, bool_decide (c ∈ lit "$`" ++ [dq; bslash]) = true)
              value = []) as Hnil by (apply length_zero_iff_nil; lia).
    apply Forall_forall. intros c Hc Hs.
    assert (c ∈ filter (λ c, bool_decide (c ∈ lit "$`" ++ [dq; bslash]) = true)
                  value) as Hin
      by (apply list_elem_of_filter; split; [by apply bool_decide_eq_true_2|done]).
    rewrite Hnil in Hin. by apply elem_of_nil in Hin.
  - intros Hv. f_equal. induction Hv as [|c v Hc Hv IH]; [done|].
    cbn [flat_map]. unfold f at 1.
    rewrite bool_decide_eq_false_2 by done. simpl. by rewrite IH.
Qed.

Lemma bash_dquote_escape_injective_witness :
  bash_dquote_escape (lit "a$b") = Ok (lit "a" ++ [bslash] ++ lit "$b") ∧
  lit "a$b" = lit "a$b".
Proof.
  split; [vm_compute; reflexivity|].
  apply (bash_dquote_escape_injective _ _ (lit "a" ++ [bslash] ++ lit "$b"));
    vm_compute; reflexivity.
Defined.

(** *** URLs *)



(** X5: a space is written as a plus sign, and a plus sign is kept: the two
    texts are rendered the same. *)
Theorem url_dquote_escape_space_plus (a b : text) :
  url_dquote_escape (a ++ lit " " ++ b) = url_dquote_escape (a ++ lit "+" ++ b).
Proof.
  rewrite !url_dquote_escape_eq, !flat_map_app. done.
Qed.

(** *** Whitespace *)

Lemma split_go_word cur w :
  Forall (λ c, is_space c = false) w →
  split_go cur w = match reverse cur ++ w with [] => [] | x => [x] end.
Proof.
  intros Hw. revert cur. induction Hw as [|c w Hc Hw IH]; intros cur; simpl.
  - rewrite app_nil_r. destruct cur as [|x cur]; [done|].
    rewrite reverse_cons. by destruct (reverse cur).
  - rewrite Hc, IH, reverse_cons, <- app_assoc. done.
Qed.

Lemma split_go_nonempty cur s : Forall (λ w, w ≠ []) (split_go cur s).
Proof.
  assert (∀ (x : ascii) t, reverse (x :: t) ≠ []) as Hrev.
  { intros x t E. apply (f_equal length) in E.
    rewrite length_reverse in E. done. }
  revert cur. induction s as [|c s IH]; intros cur; simpl.
  - destruct cur; repeat constructor. apply Hrev.
  - destruct (is_space c); [|apply IH].
    destruct cur; [apply IH|]. constructor; [apply Hrev|apply IH].
Qed.

Lemma split_join ws :
  Forall (λ w, w ≠ [] ∧ Forall (λ c, is_space c = false) w) ws →
  split (join (lit " ") ws) = ws.
Proof.
  induction 1 as [|w ws [Hne Hw] Hws IH]; [done|].
  assert (split w = [w]) as Ew.
  { unfold split. rewrite split_go_word by done. by destruct w. }
  destruct ws as [|w' ws]; [done|].
  change (join (lit " ") (w :: w' :: ws))
    with (w ++ " "%char :: join (lit " ") (w' :: ws)).
  by rewrite split_app_space, Ew, IH.
Qed.

Lemma split_words value :
  Forall (λ w, w ≠ [] ∧ Forall (λ c, is_space c = false) w) (split value).
Proof.
  apply Forall_and. split; [apply split_go_nonempty|].
  apply split_go_no_space. constructor.
Qed.

(** X6: [collapse_whitespace] keeps the words of the text: splitting its
    result gives what splitting the text gives. *)
Theorem collapse_whitespace_words (value : text) :
  split (collapse_whitespace value) = split value.
Proof. apply split_join, split_words. Qed.

(** X7: collapsing a text that has been collapsed changes nothing. *)
Theorem collapse_whitespace_idempotent (value : text) :
  collapse_whitespace (collapse_whitespace value) = collapse_whitespace value.
Proof.
  unfold collapse_whitespace.
  by rewrite (split_join _ (split_words value)).
Qed.

End Escaping.

(** ** The GIT_CRATES block *)

Section GitCrates.

Lemma filter_perm {A} (f : A → bool) l l' :
  l ≡ₚ l' → List.filter f l ≡ₚ List.filter f l'.
Proof.
  induction 1 as [|x l l' _ IH|x y l|l l' l'' _ IH1 _ IH2]; simpl.
  - done.
  - destruct (f x); [by constructor|done].
  - destruct (f x), (f y); try done. apply perm_swap.
  - by etrans.
Qed.

Lemma git_lines_perm crates crates' distdir ls :
  crates ≡ₚ crates' →
  git_lines crates distdir = Ok ls →
  ∃ ls', git_lines crates' distdir = Ok ls' ∧ ls ≡ₚ ls'.
Proof.
  intros Hp. unfold git_lines.
  apply mapM_perm, filter_perm, Hp.
Qed.

(** The lines are computed when every entry can be read. *)
Lemma git_lines_readable crates distdir :
  Forall (λ c, is_git_crate c = true →
               ∃ e, get_git_crate_entry distdir c = Ok e) crates →
  ∃ ls, git_lines crates distdir = Ok ls.
Proof.
  unfold git_lines.
  induction 1 as [|c crates Hc _ (ls & IH)]; cbn [List.filter].
  - by exists [].
  - destruct (is_git_crate c); [|by exists ls].
    destruct Hc as [e He]; [done|].
    eexists. apply mapM_cons_Ok. eexists _, _. split_and!; [|exact IH|done].
    unfold git_line. by rewrite He.
Qed.

(** X8: the GIT_CRATES block is empty exactly when the crate list has no
    git crate. *)
Theorem get_GIT_CRATES_empty_iff (crates : list Crate) (distdir : Distdir) :
  get_GIT_CRATES crates distdir = Ok [] ↔ existsb is_git_crate crates = false.
Proof.
  split; [|apply get_GIT_CRATES_no_git].
  intros Hnil. destruct (existsb is_git_crate crates) eqn:Hg; [|done].
  by destruct (get_GIT_CRATES_git _ distdir _ Hg Hnil) as (values & _ & E).
Qed.

(** X9: when the entries of the git crates can be read, the GIT_CRATES
    block is computed; its lines are the lines of the git crates in
    lexicographic order, between the opening and the closing line of the
    declaration, and the block is the same for every permutation of the
    crate list. *)
Theorem get_GIT_CRATES_sorted_stable (crates crates' : list Crate)
    (distdir : Distdir) :
  crates ≡ₚ crates' →
  Forall (λ c, is_git_crate c = true →
               ∃ e, get_git_crate_entry distdir c = Ok e) crates →
  get_GIT_CRATES crates' distdir = get_GIT_CRATES crates distdir ∧
  ∃ ls lines,
    git_lines crates distdir = Ok ls ∧
    lines ≡ₚ ls ∧ Sorted le lines ∧
    get_GIT_CRATES crates distdir
    = Ok match lines with
         | [] => []
         | _ :: _ =>
             [nl; nl] ++ lit "declare -A GIT_CRATES=(" ++ [nl]
               ++ join [nl] lines ++ [nl] ++ lit ")"
         end.
Proof.
  intros Hp [ls Hls]%git_lines_readable.
  destruct (git_lines_perm _ _ _ _ Hp Hls) as (ls' & Hls' & Hperm).
  split.
  - unfold get_GIT_CRATES. rewrite Hls, Hls'. simpl.
    unfold GIT_CRATES_block. by rewrite (sorted_perm _ _ Hperm).
  - exists ls, (sorted ls).
    split; [done|]. split; [apply sorted_Permutation|].
    split; [apply Sorted_sorted|].
    unfold get_GIT_CRATES. rewrite Hls. simpl. f_equal.
    unfold GIT_CRATES_block.
    pose proof (sorted_Permutation ls) as Hs.
    destruct (sorted ls) as [|l lines] eqn:El; [done|].
    assert (l ≠ []) as Hl.
    { destruct (git_lines_nonempty _ _ _ Hls) as [Hne _].
      rewrite Forall_forall in Hne. apply Hne. rewrite <- Hs. by left. }
    pose proof (join_nonempty [nl] l lines Hl) as Hj.
    by destruct (join [nl] (l :: lines)).
Qed.

Lemma get_GIT_CRATES_sorted_stable_witness :
  let crates := [Conj.git_crate "foo"; Conj.file_crate "old" "0.1";
                 Conj.git_crate "baz"] in
  let distdir := Conj.distdir Conj.licenses in
  get_GIT_CRATES (reverse crates) distdir = get_GIT_CRATES crates distdir ∧
  get_GIT_CRATES crates distdir
  = Ok ([nl; nl] ++ line "declare -A GIT_CRATES=("
        ++ [tab]
        ++ line "[baz]='https://example.org/baz;0123abcd;baz-%commit%'"
        ++ [tab]
        ++ line "[foo]='https://example.org/foo;0123abcd;foo-%commit%'"
        ++ lit ")").
Proof.
  intros crates distdir.
  destruct (get_GIT_CRATES_sorted_stable crates (reverse crates) distdir)
    as [Heq _].
  - symmetry. apply reverse_Permutation.
  - repeat (apply Forall_cons; split; [intros _; by eexists|]).
    apply Forall_nil_2.
  - split; [exact Heq|vm_compute; reflexivity].
Defined.

End GitCrates.

(** ** The licenses of the crates *)

Section CrateLicenses.
Context `{Licensing} `{Runtime}.

Lemma mapM_app_Ok {A B} (f : A → result B) l1 l2 bs1 :
  mapM f l1 = Ok bs1 →
  mapM f (l1 ++ l2) = (bs2 ← mapM f l2; Ok (bs1 ++ bs2)).
Proof.
  revert bs1. induction l1 as [|x l1 IH]; intros bs1.
  - intros [= <-]. simpl. by destruct (mapM f l2).
  - rewrite mapM_cons_Ok. intros (b & bs0 & Hx & Hl & ->).
    cbn [app mapM]. rewrite Hx, (IH _ Hl). cbn [mbind result_bind].
    by destruct (mapM f l2).
Qed.


(** X11: the archive of a crate whose name is in the overrides is not
    read: the value is the same in two download directories that give the
    same license for every other crate. *)
Theorem get_crate_LICENSE_overrides (crates : list Crate)
    (distdir distdir' : Distdir) (license_overrides : gmap text text) :
  Forall (λ c, license_overrides !! crate_name c = None →
               get_license_from_crate c distdir
               = get_license_from_crate c distdir') crates →
  get_crate_LICENSE crates distdir license_overrides
  = get_crate_LICENSE crates distdir' license_overrides.
Proof.
  intros Hc. unfold get_crate_LICENSE.
  assert (contributed_licenses crates distdir license_overrides
          = contributed_licenses crates distdir' license_overrides) as ->;
    [|done].
  unfold contributed_licenses.
  induction Hc as [|c crates Hc _ IH]; [done|].
  cbn [mapM]. rewrite IH.
  destruct (license_overrides !! crate_name c); [done|]. by rewrite Hc.
Qed.

(** X12: the first crate, in the order of the list, whose manifest cannot be
    read decides the error.  An exception of the reader is passed on: that
    of opening the archive, that of parsing the manifest, and the
    [KeyError] of [TarFile.extractfile] for an archive that has no member
    at the place of the manifest.  When [extractfile] returns [None], as it
    does for a member that is not a regular file, the [RuntimeError] that
    names the directory of the package and the archive is raised. *)
Theorem get_crate_LICENSE_first_error (crates1 crates2 : list Crate)
    (c : Crate) (distdir : Distdir) (license_overrides : gmap text text)
    (members : list (option text)) :
  contributed_licenses crates1 distdir license_overrides = Ok members →
  license_overrides !! crate_name c = None →
  (∀ e, read_manifest distdir c = Raise e →
        get_crate_LICENSE (crates1 ++ c :: crates2) distdir license_overrides
        = Raise e) ∧
  (read_manifest distdir c = Ok None →
   get_crate_LICENSE (crates1 ++ c :: crates2) distdir license_overrides
   = Raise (RuntimeError (get_package_directory distdir c
                            ++ lit "/Cargo.toml not found in "
                            ++ crate_filename c))).
Proof.
  intros Hm Hc. unfold get_crate_LICENSE, contributed_licenses in *.
  rewrite (mapM_app_Ok _ _ _ _ Hm). cbn [mapM]. rewrite Hc.
  unfold get_license_from_crate.
  split; [intros e Hr|intros Hr]; by rewrite Hr.
Qed.

(** X13: the value of the crate licenses is empty, or starts with the
    newline of a value of several lines, or with a space. *)
Theorem get_crate_LICENSE_leading (crates : list Crate) (distdir : Distdir)
    (license_overrides : gmap text text) (v : text) :
  get_crate_LICENSE crates distdir license_overrides = Ok v →
  v = [] ∨ ∃ c t, v = c :: t ∧ (c = nl ∨ c = " "%char).
Proof.
  unfold get_crate_LICENSE.
  destruct (contributed_licenses _ _ _) as [members|]; [|done].
  cbn [mbind result_bind].
  destruct (spdx_parse _) as [[parsed|]|]; cbn [mbind result_bind];
    [|by intros [= <-]; left|done].
  destruct (format_license_var _ _) as [|c t];
    [intros [= <-]; right; eexists _, _; split; [done|by right]|].
  destruct (startswith [nl] (c :: t)) eqn:Hs; intros [= <-]; right.
  - simpl in Hs. case_decide as Hc; [|done]. exists c, t. auto.
  - eexists _, _. split; [done|]. by right.
Qed.

End CrateLicenses.


Lemma get_crate_LICENSE_overrides_witness :
  let overrides : gmap text text := {[ lit "foo" := lit "Apache-2.0" ]} in
  @get_crate_LICENSE Conj.licensing (Conj.runtime false)
    [Conj.file_crate "foo" "1.0"] (Conj.distdir Conj.licenses) overrides
  = @get_crate_LICENSE Conj.licensing (Conj.runtime false)
      [Conj.file_crate "foo" "1.0"] Conj.bare_distdir overrides.
Proof.
  intros overrides.
  apply (@get_crate_LICENSE_overrides Conj.licensing (Conj.runtime false)).
  constructor; [|constructor].
  intros Hov. vm_compute in Hov. discriminate.
Defined.

Lemma get_crate_LICENSE_first_error_witness :
  let overrides : gmap text text := {[ lit "foo" := lit "MIT" ]} in
  let crates := [Conj.file_crate "foo" "1.0"]
                ++ Conj.file_crate "bad" "0.1" :: [Conj.git_crate "baz"] in
  @get_crate_LICENSE Conj.licensing (Conj.runtime false) crates
    Conj.memberless_distdir overrides
  = Raise (KeyError (lit "filename 'bad/Cargo.toml' not found")) ∧
  @get_crate_LICENSE Conj.licensing (Conj.runtime false) crates
    Conj.bare_distdir overrides
  = Raise (RuntimeError (lit "bad/Cargo.toml not found in bad-0.1.crate")).
Proof.
  intros overrides crates. split.
  - destruct (@get_crate_LICENSE_first_error Conj.licensing
                (Conj.runtime false) [Conj.file_crate "foo" "1.0"]
                [Conj.git_crate "baz"] (Conj.file_crate "bad" "0.1")
                Conj.memberless_distdir overrides [Some (lit "MIT")])
      as [Hraise _].
    + vm_compute. reflexivity.
    + vm_compute. reflexivity.
    + apply Hraise. reflexivity.
  - destruct (@get_crate_LICENSE_first_error Conj.licensing
                (Conj.runtime false) [Conj.file_crate "foo" "1.0"]
                [Conj.git_crate "baz"] (Conj.file_crate "bad" "0.1")
                Conj.bare_distdir overrides [Some (lit "MIT")])
      as [_ Hnone].
    + vm_compute. reflexivity.
    + vm_compute. reflexivity.
    + apply Hnone. reflexivity.
Defined.

Lemma get_crate_LICENSE_leading_witness :
  @get_crate_LICENSE Conj.licensing (Conj.runtime false)
    [Conj.file_crate "foo" "1.0"] (Conj.distdir Conj.licenses) ∅
  = Ok (lit " MIT") ∧
  (lit " MIT" = [] ∨
   ∃ c t, lit " MIT" = c :: t ∧ (c = nl ∨ c = " "%char)).
Proof.
  assert (@get_crate_LICENSE Conj.licensing (Conj.runtime false)
            [Conj.file_crate "foo" "1.0"] (Conj.distdir Conj.licenses) ∅
          = Ok (lit " MIT")) as Hv by (vm_compute; reflexivity).
  split; [exact Hv|].
  exact (@get_crate_LICENSE_leading Conj.licensing (Conj.runtime false)
           _ _ _ _ Hv).
Defined.

(** ** Replacing in a document *)

Section Replacing.

Lemma replace_skip re r prev a b :
  replace_scan re r prev (a ++ b) (length a)
  = replace_scan re r (last_char prev a) b 0.
Proof.
  revert prev. induction a as [|c a IH]; intros prev; [done|].
  simpl. rewrite last_char_cons. apply IH.
Qed.

(** A segment in which no match can start is copied. *)
Lemma replace_quiet re r anchored heads pb prev a b :
  guarded re anchored heads →
  (bol prev = true → pb = true) →
  quiet anchored heads pb a b →
  replace_scan re r prev (a ++ b) 0
  = a ++ replace_scan re r (last_char prev a) b 0.
Proof.
  intros Hg. revert prev pb.
  induction a as [|c a IH]; intros prev pb Hpb Hq; [done|].
  apply quiet_cons in Hq as [Hc Hq]. simpl.
  destruct (re_match re prev (c :: a ++ b)) as [m|] eqn:Hm.
  { apply Hg in Hm. destruct (bol prev).
    - rewrite Hpb in Hc by done. congruence.
    - destruct pb; [|congruence].
      rewrite (may_start_mono _ _ _ Hc false) in Hm. done. }
  rewrite last_char_cons. f_equal.
  by apply (IH _ (bool_decide (c = nl))).
Qed.

(** A match is replaced and passed. *)
Lemma replace_match re r prev t b m :
  re_match re prev (t ++ b) = Some m →
  m_text m = t →
  t ≠ [] →
  replace_scan re r prev (t ++ b) 0
  = r m ++ replace_scan re r (last_char prev t) b 0.
Proof.
  intros Hm Ht Hne. destruct t as [|c t]; [done|].
  simpl in *. rewrite Hm. f_equal. unfold m_len. rewrite Ht. simpl.
  rewrite last_char_cons. apply replace_skip.
Qed.

Lemma replace_end re r anchored heads prev :
  guarded re anchored heads →
  Forall (λ h, h ≠ []) heads →
  replace_scan re r prev [] 0 = [].
Proof.
  intros Hg Hh. simpl.
  destruct (re_match re prev []) as [m|] eqn:Hm; [|done].
  apply Hg in Hm. unfold may_start in Hm.
  apply andb_true_iff in Hm as [_ Hm]. apply existsb_exists in Hm
    as (h & Hin & Hs). apply list_elem_of_In in Hin.
  rewrite Forall_forall in Hh. specialize (Hh h Hin). by destruct h.
Qed.

Lemma single_match_scan re a t b m :
  single_match re a t b m → scan_matches re None (a ++ t ++ b) 0 = [m].
Proof.
  intros (anchored & heads & Hg & Hh & Ha & Hm & Ht & Hne & Hb).
  by apply (scan_one _ anchored heads).
Qed.

Lemma single_match_replace re r a t b m :
  single_match re a t b m →
  replace_scan re r None (a ++ t ++ b) 0 = a ++ r m ++ b.
Proof.
  intros (anchored & heads & Hg & Hh & Ha & Hm & Ht & Hne & Hb).
  rewrite (replace_quiet _ _ _ _ true _ _ _ Hg) by done.
  rewrite (replace_match _ _ _ _ _ _ Hm Ht Hne). do 2 f_equal.
  rewrite <- (app_nil_r b) at 1.
  rewrite (replace_quiet _ _ _ _ (bol_after true (a ++ t)) _ _ _ Hg);
    [| |done].
  - by rewrite (replace_end _ _ _ _ _ Hg), app_nil_r.
  - intros Hbol. rewrite bol_after_app. by rewrite !bol_last_char in Hbol.
Qed.


Lemma find_scan_conv re re' (conv : Match → Match) prev s skip pos :
  (∀ prev s, re_match re' prev s = conv <$> re_match re prev s) →
  (∀ m, m_text (conv m) = m_text m) →
  find_scan re' prev s skip pos
  = prod_map id conv <$> find_scan re prev s skip pos.
Proof.
  intros Hm Ht. revert prev skip pos.
  induction s as [|c s IH]; intros prev [|skip] pos; simpl; try done.
  - rewrite Hm. by destruct (re_match re prev []).
  - rewrite Hm. destruct (re_match re prev (c :: s)) as [m|]; simpl.
    + unfold m_len. rewrite Ht. f_equal. apply IH.
    + apply IH.
Qed.

Lemma append_match_eq prev s :
  re_match GIT_CRATES_APPEND_RE prev s
  = append_match <$> re_match CRATES_RE prev s.
Proof.
  rewrite GIT_CRATES_APPEND_RE_match, CRATES_RE_match.
  unfold quoted_region, quoted_region_tail.
  destruct (bol prev && startswith (lit "CRATES=") s); [|done].
  destruct (drop _ s) as [|q s']; [done|].
  destruct (bool_decide _); [|done].
  by destruct (find_close q s').
Qed.

End Replacing.

(** ** Patching a rendered document *)

Section Patched.
Variables (year version C desc home plv : text) (g name clv : option text).

Hypothesis Hvalues :
  Forall value_ok
    (Segment.front year version ++ Segment.crates C ++ Segment.git g
     ++ Segment.middle desc home name plv ++ Segment.license_block clv).
Hypothesis HC : dq ∉ C.
Hypothesis Hg : ∀ b, g = Some b → ends_line ")" b = false.
Hypothesis Hclv : ∀ v, clv = Some v → dq ∉ v.

Local Ltac known_last := rewrite last_char_flatten; reflexivity.

Local Ltac values_ok :=
  let H := fresh in
  pose proof Hvalues as H;
  rewrite ?Forall_app in H; rewrite ?Forall_app; tauto.

(** The document around the CRATES assignment, around the GIT_CRATES block
    and around the assignment of the crate licenses. *)

Lemma document_CRATES v :
  Segment.document year version v g desc home name plv clv
  = flatten (Segment.front year version)
    ++ (lit "CRATES=" ++ dq :: v ++ [dq])
    ++ flatten (Segment.git g ++ Segment.middle desc home name plv
                ++ Segment.license_block clv) ++ EBUILD_TEMPLATE_END.
Proof.
  unfold Segment.document. rewrite !flatten_app.
  cbn [flatten segment_text Segment.crates].
  rewrite <- !app_assoc. cbn [app]. by rewrite <- ?app_assoc.
Qed.

Lemma document_GIT_CRATES g' :
  Segment.document year version C g' desc home name plv clv
  = flatten (Segment.front year version ++ Segment.crates C)
    ++ flatten (Segment.git g')
    ++ flatten (Segment.middle desc home name plv
                ++ Segment.license_block clv) ++ EBUILD_TEMPLATE_END.
Proof.
  unfold Segment.document. rewrite !flatten_app.
  by rewrite <- !app_assoc.
Qed.

Lemma document_CRATE_LICENSE clv' :
  Segment.document year version C g desc home name plv clv'
  = flatten (Segment.front year version ++ Segment.crates C
             ++ Segment.git g ++ Segment.middle desc home name plv)
    ++ flatten (Segment.license_block clv') ++ EBUILD_TEMPLATE_END.
Proof.
  unfold Segment.document. rewrite !flatten_app.
  by rewrite <- !app_assoc.
Qed.

Lemma single_CRATES :
  single_match CRATES_RE (flatten (Segment.front year version))
    (lit "CRATES=" ++ dq :: C ++ [dq])
    (flatten (Segment.git g ++ Segment.middle desc home name plv
              ++ Segment.license_block clv) ++ EBUILD_TEMPLATE_END)
    (Segment.CRATES_match C).
Proof using All.
  exists true, [lit "CRATES="]. split_and!.
  - apply CRATES_RE_guarded.
  - by repeat constructor.
  - apply (quiet_segs_sound true _ true true _ []);
      [vm_compute; reflexivity|done|values_ok].
  - rewrite CRATES_RE_match.
    assert (∀ b, (lit "CRATES=" ++ dq :: C ++ [dq]) ++ b
                 = lit "CRATES=" ++ dq :: C ++ dq :: b) as ->.
    { intros b. rewrite <- app_assoc. cbn [app]. by rewrite <- app_assoc. }
    apply quoted_region_intro.
    + known_last.
    + rewrite !elem_of_cons. auto.
    + apply first_close_intro; [done| |by apply ends_line_not_elem].
      by destruct g.
  - done.
  - done.
  - apply quiet_weaken, quiet_segs_last;
      [destruct g, name, clv; vm_compute; reflexivity
      |vm_compute; reflexivity|values_ok].
Qed.

Lemma single_GIT_CRATES b :
  g = Some b →
  single_match GIT_CRATES_RE
    (flatten (Segment.front year version ++ Segment.crates C))
    (([nl; nl] ++ lit "declare -A GIT_CRATES=(") ++ b ++ lit ")")
    (flatten (Segment.middle desc home name plv
              ++ Segment.license_block clv) ++ EBUILD_TEMPLATE_END)
    (Segment.GIT_CRATES_match b).
Proof using All.
  intros Eg. exists false, GIT_CRATES_heads. split_and!.
  - apply GIT_CRATES_RE_guarded.
  - by repeat constructor.
  - apply (quiet_segs_sound false _ true true _ []);
      [vm_compute; reflexivity|done|values_ok].
  - rewrite GIT_CRATES_RE_match. unfold git_region.
    assert (∀ r, (([nl; nl] ++ lit "declare -A GIT_CRATES=(")
                    ++ b ++ lit ")") ++ r
                 = ([nl; nl] ++ lit "declare -A GIT_CRATES=(")
                     ++ b ++ ")"%char :: r) as ->.
    { intros r. by rewrite <- !app_assoc. }
    rewrite git_block_intro; [done|].
    apply first_close_intro; [done|done|by apply Hg].
  - done.
  - done.
  - apply quiet_weaken, quiet_segs_last;
      [destruct name, clv; vm_compute; reflexivity
      |vm_compute; reflexivity|values_ok].
Qed.

Lemma single_CRATE_LICENSE v :
  clv = Some v →
  single_match CRATE_LICENSE_RE
    (flatten (Segment.front year version ++ Segment.crates C
              ++ Segment.git g ++ Segment.middle desc home name plv))
    (CRATE_LICENSE_head ++ dq :: v ++ [dq])
    ([nl] ++ EBUILD_TEMPLATE_END)
    (Segment.CRATE_LICENSE_match v).
Proof using All.
  intros Ev. exists true, [CRATE_LICENSE_head]. split_and!.
  - apply CRATE_LICENSE_RE_guarded.
  - by repeat constructor.
  - apply (quiet_segs_sound true _ true true _ []);
      [destruct g, name; vm_compute; reflexivity|done|values_ok].
  - rewrite CRATE_LICENSE_RE_match.
    assert (∀ r, (CRATE_LICENSE_head ++ dq :: v ++ [dq]) ++ r
                 = CRATE_LICENSE_head ++ dq :: v ++ dq :: r) as ->.
    { intros r. rewrite <- app_assoc. cbn [app]. by rewrite <- app_assoc. }
    apply (quoted_region_intro CRATE_LICENSE_head).
    + destruct g, name; known_last.
    + rewrite !elem_of_cons. auto.
    + apply first_close_intro; [done|done|].
      by apply ends_line_not_elem, Hclv.
  - done.
  - done.
  - apply quiet_weaken, quiet_last_sound. vm_compute. reflexivity.
Qed.

(** What each substitution makes of the document. *)

Lemma patched_CRATES v :
  replace_scan CRATES_RE (counting_repl v) None
    (Segment.document year version C g desc home name plv clv) 0
  = Segment.document year version v g desc home name plv clv ∧
  match_count CRATES_RE
    (Segment.document year version C g desc home name plv clv) = 1.
Proof using All.
  rewrite match_count_matches, (document_CRATES C).
  rewrite (single_match_replace _ _ _ _ _ _ single_CRATES).
  rewrite (single_match_scan _ _ _ _ _ single_CRATES).
  split; [|done]. by rewrite (document_CRATES v).
Qed.

Lemma patched_GIT_CRATES g' :
  replace_scan GIT_CRATES_RE (git_repl (flatten (Segment.git g'))) None
    (Segment.document year version C g desc home name plv clv) 0
  = Segment.document year version C (if g is Some _ then g' else None)
      desc home name plv clv ∧
  match_count GIT_CRATES_RE
    (Segment.document year version C g desc home name plv clv)
  = (if g is Some _ then 1 else 0).
Proof using All.
  pose proof single_GIT_CRATES as Hsingle.
  pose proof (scan_GIT_CRATES year version C desc home plv g name clv
                Hvalues HC Hg Hclv) as Hs.
  fold (Segment.document year version C g desc home name plv clv) in Hs.
  pose proof (document_GIT_CRATES g) as Hdoc.
  destruct g as [b|].
  - specialize (Hsingle b eq_refl).
    rewrite match_count_matches, Hdoc.
    change (flatten (Segment.git (Some b)))
      with (([nl; nl] ++ lit "declare -A GIT_CRATES=(") ++ b ++ lit ")").
    rewrite (single_match_replace _ _ _ _ _ _ Hsingle).
    rewrite (single_match_scan _ _ _ _ _ Hsingle).
    split; [|done]. rewrite (document_GIT_CRATES g').
    do 2 f_equal. by destruct g'.
  - rewrite match_count_matches, Hs. split; [|done].
    apply replace_scan_fixed; rewrite Hs; [simpl; lia|constructor].
Qed.

Lemma patched_CRATE_LICENSE v :
  replace_scan CRATE_LICENSE_RE (counting_repl v) None
    (Segment.document year version C g desc home name plv clv) 0
  = Segment.document year version C g desc home name plv
      (if clv is Some _ then Some v else None) ∧
  match_count CRATE_LICENSE_RE
    (Segment.document year version C g desc home name plv clv)
  = (if clv is Some _ then 1 else 0).
Proof using All.
  pose proof single_CRATE_LICENSE as Hsingle.
  pose proof (scan_CRATE_LICENSE year version C desc home plv g name clv
                Hvalues HC Hg Hclv) as Hs.
  fold (Segment.document year version C g desc home name plv clv) in Hs.
  pose proof (document_CRATE_LICENSE clv) as Hdoc.
  destruct clv as [v0|].
  - specialize (Hsingle v0 eq_refl).
    rewrite match_count_matches, Hdoc.
    assert (∀ x, flatten (Segment.license_block (Some x))
                   ++ EBUILD_TEMPLATE_END
                 = (CRATE_LICENSE_head ++ dq :: x ++ [dq])
                     ++ [nl] ++ EBUILD_TEMPLATE_END) as Hblock.
    { intros x. cbn [flatten segment_text Segment.license_block].
      rewrite <- !app_assoc. cbn [app]. by rewrite <- ?app_assoc. }
    rewrite Hblock.
    rewrite (single_match_replace _ _ _ _ _ _ Hsingle).
    rewrite (single_match_scan _ _ _ _ _ Hsingle).
    split; [|done].
    by rewrite (document_CRATE_LICENSE (Some v)), Hblock.
  - rewrite match_count_matches, Hs. split; [|done].
    apply replace_scan_fixed; rewrite Hs; [simpl; lia|constructor].
Qed.


End Patched.

(** ** Updating the document of other crates *)

Section Rerender.
Context `{Licensing} `{Runtime}.

(** The values of a crate list in the document. *)
Lemma plain_crates_values crates distdir crate_tarball git_crates :
  plain_crates crates distdir →
  get_GIT_CRATES crates distdir = Ok git_crates →
  ∃ g,
    git_crates = flatten (Segment.git g) ∧
    Forall value_ok (Segment.crates (crates_value crates crate_tarball)) ∧
    Forall value_ok (Segment.git g) ∧
    (dq ∉ crates_value crates crate_tarball) ∧
    (∀ b, g = Some b → ends_line ")" b = false).
Proof.
  intros [Hentries Hgit] Hgc.
  destruct (get_GIT_CRATES_segments _ _ _ Hgit Hgc)
    as (g & Eg & Hgok & Hgend).
  exists g. split_and!; [done| |done| |done].
  - repeat constructor. apply (crates_value_plain _ _ Hentries).
  - apply (crates_value_plain _ _ Hentries).
Qed.

(** The document that [get_ebuild] returns. *)
Lemma get_ebuild_document pkg_meta crates distdir crate_license crate_tarball
    license_overrides doc :
  plain_inputs pkg_meta crates distdir crate_license crate_tarball
    license_overrides →
  get_ebuild pkg_meta crates distdir crate_license crate_tarball
    license_overrides = Ok doc →
  ∃ g desc home plv clv,
    get_GIT_CRATES crates distdir = Ok (flatten (Segment.git g)) ∧
    bash_dquote_escape
      (collapse_whitespace (or_empty (pm_description pkg_meta))) = Ok desc ∧
    url_dquote_escape (or_empty (pm_homepage pkg_meta)) = Ok home ∧
    get_package_LICENSE (pm_license pkg_meta) = Ok plv ∧
    get_crate_LICENSE crates distdir license_overrides = Ok clv ∧
    doc = Segment.document (str_of_nat today_year) prog_version
            (crates_value crates crate_tarball) g desc home
            (path_name <$> crate_tarball) plv
            (if crate_license then Some clv else None) ∧
    Forall value_ok (Segment.front (str_of_nat today_year) prog_version) ∧
    Forall value_ok
      (Segment.middle desc home (path_name <$> crate_tarball) plv) ∧
    Forall value_ok
      (Segment.license_block (if crate_license then Some clv else None)) ∧
    (∀ v, (if crate_license then Some clv else None) = Some v → dq ∉ v) ∧
    Forall value_ok (Segment.crates (crates_value crates crate_tarball)) ∧
    Forall value_ok (Segment.git g) ∧
    (dq ∉ crates_value crates crate_tarball) ∧
    (∀ b, g = Some b → ends_line ")" b = false).
Proof.
  intros (Hver & Hcrates & Htar & Hplv & Hclv) Hdoc.
  unfold get_ebuild in Hdoc.
  destruct (get_crate_LICENSE crates distdir license_overrides)
    as [clv|] eqn:Eclv; [|done].
  cbn [mbind result_bind] in Hdoc.
  destruct (bash_dquote_escape _) as [desc|] eqn:Edesc; [|done].
  destruct (url_dquote_escape _) as [home|] eqn:Ehome; [|done].
  destruct (get_GIT_CRATES crates distdir) as [git_crates|] eqn:Egc; [|done].
  destruct (get_package_LICENSE _) as [plv|] eqn:Eplv; [|done].
  cbn [mbind result_bind] in Hdoc.
  apply (f_equal (λ r, match r with Ok d => d | Raise _ => [] end)) in Hdoc.
  cbv beta iota in Hdoc.
  destruct (plain_crates_values _ _ crate_tarball _ Hcrates Egc)
    as (g & Eg & HCok & Hgok & HC & Hgend).
  exists g, desc, home, plv, clv. split_and!; try done.
  - by rewrite Eg.
  - rewrite <- Hdoc, Eg. unfold Segment.document.
    rewrite <- template_segments. f_equal; [|f_equal].
    + f_equal. destruct crate_tarball; [|done]. apply tarball_segments.
    + destruct crate_license; [|done]. apply license_segments.
  - repeat constructor; apply indented_oneline;
      [apply str_of_nat_oneline|done].
  - unfold Segment.middle. rewrite !Forall_app. split_and!.
    + repeat constructor; apply indented_oneline;
        [by eapply description_oneline|by eapply homepage_oneline].
    + destruct crate_tarball as [p|]; [|constructor].
      repeat constructor. apply indented_oneline. by apply Htar.
    + repeat constructor. by apply Hplv.
  - destruct crate_license; [|constructor].
    repeat constructor. by apply Hclv.
  - intros v. destruct crate_license; [|done].
    intros [= <-]. by apply Hclv.
Qed.

Lemma values_ok_app front crates git middle block :
  Forall value_ok front → Forall value_ok crates → Forall value_ok git →
  Forall value_ok middle → Forall value_ok block →
  Forall value_ok (front ++ crates ++ git ++ middle ++ block).
Proof. intros. by rewrite !Forall_app. Qed.


(** X18: a document rendered with [crate_license] on has the marker of the
    crate licenses once, and one rendered with it off has none: updating it
    with the other setting fails with the error that names the assignment
    of the crate licenses.  This holds for every new crate list that is
    plain, when what the substitutions call can be computed: the entries of
    the new git crates when the document has a GIT_CRATES block, and the
    new crate licenses when the document has their marker. *)
Theorem update_ebuild_flag_mismatch (pkg_meta pkg_meta' : PackageMetadata)
    (crates crates' : list Crate) (distdir distdir' : Distdir)
    (crate_license : bool) (crate_tarball : option Path)
    (license_overrides overrides' : gmap text text) (doc : text) :
  plain_inputs pkg_meta crates distdir crate_license crate_tarball
    license_overrides →
  get_ebuild pkg_meta crates distdir crate_license crate_tarball
    license_overrides = Ok doc →
  plain_crates crates' distdir' →
  (existsb is_git_crate crates = true →
   ∃ v, get_GIT_CRATES crates' distdir' = Ok v) →
  (crate_license = true →
   ∃ v, get_crate_LICENSE crates' distdir' overrides' = Ok v) →
  update_ebuild doc pkg_meta' crates' distdir' (negb crate_license)
    crate_tarball overrides'
  = Raise (RuntimeError
             (count_message (lit "Crate LICENSE+= (with marker comment)")
                (if crate_license then 1 else 0)
                (if crate_license then 0 else 1))).
Proof.
  intros Hplain Hdoc Hcrates' Hgit Hlicense.
  destruct (get_ebuild_document _ _ _ _ _ _ _ Hplain Hdoc)
    as (g & desc & home & plv & clv & Eg & _ & _ & _ & _ & ->
        & Hfront & Hmiddle & Hblock & Hl & HCok & Hgok & HC & Hgend).
  assert (∃ g',
    git_patch (get_GIT_CRATES crates' distdir')
      (Segment.document (str_of_nat today_year) prog_version
         (crates_value crates' crate_tarball) g desc home
         (path_name <$> crate_tarball) plv
         (if crate_license then Some clv else None))
    = (if g is Some _
       then Ok (replace_scan GIT_CRATES_RE
                  (git_repl (flatten (Segment.git g'))) None
                  (Segment.document (str_of_nat today_year) prog_version
                     (crates_value crates' crate_tarball) g desc home
                     (path_name <$> crate_tarball) plv
                     (if crate_license then Some clv else None)) 0)
       else git_patch (get_GIT_CRATES crates' distdir')
              (Segment.document (str_of_nat today_year) prog_version
                 (crates_value crates' crate_tarball) g desc home
                 (path_name <$> crate_tarball) plv
                 (if crate_license then Some clv else None))) ∧
    Forall value_ok (Segment.crates (crates_value crates' crate_tarball)) ∧
    Forall value_ok (Segment.git g') ∧
    (dq ∉ crates_value crates' crate_tarball) ∧
    (∀ b, g' = Some b → ends_line ")" b = false))
    as (g' & Epatch & HCok' & Hgok' & HC' & Hgend').
  { destruct g as [b|].
    - destruct Hgit as [v Hv].
      { destruct (existsb is_git_crate crates) eqn:Hex; [done|].
        rewrite (get_GIT_CRATES_no_git _ _ Hex) in Eg. by injection Eg. }
      destruct (plain_crates_values _ _ crate_tarball _ Hcrates' Hv)
        as (g' & -> & ? & ? & ? & ?).
      exists g'. by rewrite Hv.
    - exists None. destruct Hcrates' as [Hentries _]. split_and!; try done.
      + repeat constructor. apply (crates_value_plain _ _ Hentries).
      + apply (crates_value_plain _ _ Hentries). }
  clear Hplain Hdoc.
  set (year := str_of_nat today_year) in *.
  set (C := crates_value crates crate_tarball) in *.
  set (C' := crates_value crates' crate_tarball) in *.
  set (name := path_name <$> crate_tarball) in *.
  set (l := if crate_license then Some clv else None) in *.
  set (g2 := if g is Some _ then g' else None).
  assert (Forall value_ok (Segment.git g2) ∧
          ∀ b, g2 = Some b → ends_line ")" b = false) as [Hgok2 Hgend2].
  { unfold g2. destruct g; [done|]. split; [constructor|done]. }
  destruct (patched_CRATES year prog_version C desc home plv g name l
              (values_ok_app _ _ _ _ _ Hfront HCok Hgok Hmiddle Hblock)
              HC Hgend Hl C') as [R1 N1].
  assert (git_patch (get_GIT_CRATES crates' distdir')
            (Segment.document year prog_version C' g desc home name plv l)
          = Ok (Segment.document year prog_version C' g2 desc home name
                  plv l)) as R2.
  { rewrite Epatch. unfold g2. clear Epatch.
    pose proof (λ x, patched_GIT_CRATES year prog_version C' desc home plv g
                  name l
                  (values_ok_app _ _ _ _ _ Hfront HCok' Hgok Hmiddle Hblock)
                  HC' Hgend Hl x) as Hp.
    destruct g as [b|].
    - by destruct (Hp g') as [-> _].
    - unfold git_patch. destruct (get_GIT_CRATES crates' distdir') as [v|e].
      + destruct (Hp None) as [_ N2].
        rewrite (replace_scan_none _ _ _ _ _ 0), drop_0; [done|].
        by apply length_zero_iff_nil.
      + destruct (Hp None) as [_ ->]. by rewrite decide_True. }
  destruct (patched_CRATE_LICENSE year prog_version C' desc home plv g2 name l
              (values_ok_app _ _ _ _ _ Hfront HCok' Hgok2 Hmiddle Hblock)
              HC' Hgend2 Hl []) as [_ N3].
  assert ((if l is Some _ then 1 else 0) = (if crate_license then 1 else 0))
    as Ecount by (unfold l; by destruct crate_license).
  rewrite Ecount in N3.
  rewrite update_ebuild_unfold. unfold update_ebuild_pure. fold C'.
  rewrite R1, R2. cbn [mbind result_bind].
  assert (∃ doc3, license_patch
                    (get_crate_LICENSE crates' distdir' overrides')
                    (Segment.document year prog_version C' g2 desc home name
                       plv l)
                  = Ok doc3) as [doc3 ->].
  { unfold license_patch. rewrite N3. destruct crate_license.
    - destruct Hlicense as [v ->]; [done|]. by eexists.
    - destruct (get_crate_LICENSE _ _ _); [by eexists|].
      rewrite decide_True by done. by eexists. }
  cbn [mbind result_bind]. rewrite N1, check_count_Ok.
  cbn [mbind result_bind]. rewrite N3.
  rewrite (check_count_Raise (lit "Crate LICENSE+= (with marker comment)"))
    by (by destruct crate_license).
  by destruct crate_license.
Qed.

End Rerender.

(** ** What makes rendering and updating fail *)

Section Failures.
Context `{Licensing} `{Runtime}.

(** X14: [get_ebuild] returns a document exactly when the crate licenses,
    the GIT_CRATES block and the license of the package can be computed.
    They are computed in this order, the crate licenses also when
    [crate_license] is off and their value is not rendered, and the first
    error is the one that is raised. *)
Theorem get_ebuild_returns (pkg_meta : PackageMetadata)
    (crates : list Crate) (distdir : Distdir) (crate_license : bool)
    (crate_tarball : option Path) (license_overrides : gmap text text) :
  match get_crate_LICENSE crates distdir license_overrides,
        get_GIT_CRATES crates distdir,
        get_package_LICENSE (pm_license pkg_meta) with
  | Raise e, _, _ | Ok _, Raise e, _ | Ok _, Ok _, Raise e =>
      get_ebuild pkg_meta crates distdir crate_license crate_tarball
        license_overrides = Raise e
  | Ok _, Ok _, Ok _ =>
      ∃ doc, get_ebuild pkg_meta crates distdir crate_license crate_tarball
               license_overrides = Ok doc
  end.
Proof.
  unfold get_ebuild.
  destruct (get_crate_LICENSE _ _ _) as [clv|e]; cbn [mbind result_bind];
    [|done].
  rewrite bash_dquote_escape_eq, url_dquote_escape_eq.
  cbn [mbind result_bind].
  destruct (get_GIT_CRATES _ _) as [g|e]; cbn [mbind result_bind]; [|done].
  destruct (get_package_LICENSE _) as [plv|e]; cbn [mbind result_bind];
    [by eexists|done].
Qed.

(** X16: a document in which the marker of the crate licenses is not found
    as often as [crate_license] asks for, once instead of never or the
    other way round, is not patched: when the CRATES assignment is found
    once, the entries of the git crates can be read, and the crate licenses
    can be computed, or are not looked at, the error names the assignment
    of the crate licenses and the two counts. *)
Theorem update_ebuild_LICENSE_count (ebuild : text)
    (pkg_meta : PackageMetadata) (crates : list Crate) (distdir : Distdir)
    (crate_license : bool) (crate_tarball : option Path)
    (license_overrides : gmap text text) (git_crates doc2 : text) :
  get_GIT_CRATES crates distdir = Ok git_crates →
  doc2 = replace_scan GIT_CRATES_RE (git_repl git_crates) None
           (replace_scan CRATES_RE
              (counting_repl (crates_value crates crate_tarball)) None
              ebuild 0) 0 →
  match_count CRATES_RE ebuild = 1 →
  match_count CRATE_LICENSE_RE doc2 ≠ (if crate_license then 1 else 0) →
  (match_count CRATE_LICENSE_RE doc2 = 0 ∨
   ∃ v, get_crate_LICENSE crates distdir license_overrides = Ok v) →
  update_ebuild ebuild pkg_meta crates distdir crate_license crate_tarball
    license_overrides
  = Raise (RuntimeError
             (count_message (lit "Crate LICENSE+= (with marker comment)")
                (match_count CRATE_LICENSE_RE doc2)
                (if crate_license then 1 else 0))).
Proof.
  intros Hgc -> Hcrates Hcount Hlicense.
  rewrite update_ebuild_unfold. unfold update_ebuild_pure.
  rewrite Hgc. cbn [git_patch mbind result_bind].
  set (doc2 := replace_scan GIT_CRATES_RE _ None _ 0) in *.
  assert (∃ doc3, license_patch
                    (get_crate_LICENSE crates distdir license_overrides) doc2
                  = Ok doc3) as [doc3 ->].
  { unfold license_patch. destruct Hlicense as [Hnone|[v ->]]; [|by eexists].
    destruct (get_crate_LICENSE _ _ _); [by eexists|].
    rewrite decide_True by done. by eexists. }
  cbn [mbind result_bind]. rewrite Hcrates, check_count_Ok.
  cbn [mbind result_bind].
  by rewrite (check_count_Raise
                (lit "Crate LICENSE+= (with marker comment)")) by done.
Qed.

(** X17: a document with more than one GIT_CRATES block, once its CRATES
    value is replaced, is not patched, and the error names GIT_CRATES and
    the number of blocks, when the earlier steps pass: the entries of the
    git crates can be read, the CRATES assignment is found once, the marker
    of the crate licenses is found as often as [crate_license] asks for,
    and the crate licenses can be computed or the marker is absent. *)
Theorem update_ebuild_GIT_CRATES_count (ebuild : text)
    (pkg_meta : PackageMetadata) (crates : list Crate) (distdir : Distdir)
    (crate_license : bool) (crate_tarball : option Path)
    (license_overrides : gmap text text) (git_crates doc1 doc2 : text) :
  get_GIT_CRATES crates distdir = Ok git_crates →
  doc1 = replace_scan CRATES_RE
           (counting_repl (crates_value crates crate_tarball)) None
           ebuild 0 →
  doc2 = replace_scan GIT_CRATES_RE (git_repl git_crates) None doc1 0 →
  match_count CRATES_RE ebuild = 1 →
  match_count CRATE_LICENSE_RE doc2 = (if crate_license then 1 else 0) →
  (match_count CRATE_LICENSE_RE doc2 = 0 ∨
   ∃ v, get_crate_LICENSE crates distdir license_overrides = Ok v) →
  1 < match_count GIT_CRATES_RE doc1 →
  update_ebuild ebuild pkg_meta crates distdir crate_license crate_tarball
    license_overrides
  = Raise (RuntimeError
             (count_message (lit "GIT_CRATES=")
                (match_count GIT_CRATES_RE doc1) 1)).
Proof.
  intros Hgc -> -> Hcrates Hcount Hlicense Hgit.
  rewrite update_ebuild_unfold. unfold update_ebuild_pure.
  rewrite Hgc. cbn [git_patch mbind result_bind].
  set (doc1 := replace_scan CRATES_RE _ None _ 0) in *.
  set (doc2 := replace_scan GIT_CRATES_RE _ None _ 0) in *.
  assert (∃ doc3, license_patch
                    (get_crate_LICENSE crates distdir license_overrides) doc2
                  = Ok doc3) as [doc3 ->].
  { unfold license_patch. destruct Hlicense as [Hnone|[v ->]]; [|by eexists].
    destruct (get_crate_LICENSE _ _ _); [by eexists|].
    rewrite decide_True by done. by eexists. }
  cbn [mbind result_bind]. rewrite Hcrates, check_count_Ok.
  cbn [mbind result_bind]. rewrite Hcount, check_count_Ok.
  cbn [mbind result_bind]. rewrite decide_False by lia.
  by rewrite (check_count_Raise (lit "GIT_CRATES=")) by lia.
Qed.

(** X21: in a document with one CRATES assignment, no GIT_CRATES block and
    no marker of the crate licenses, an update without git crates and with
    [crate_license] off replaces the value between the two quotes of the
    assignment, keeps the quotes as they are, single or double, and changes
    nothing else; the licenses of the crates are not computed. *)
Theorem update_ebuild_replaces_CRATES (ebuild : text)
    (pkg_meta : PackageMetadata) (crates : list Crate) (distdir : Distdir)
    (crate_tarball : option Path) (license_overrides : gmap text text)
    (pre body post : text) (q : ascii) (m : Match) (doc1 : text) :
  ebuild = pre ++ (lit "CRATES=" ++ q :: body ++ [q]) ++ post →
  finditer CRATES_RE ebuild = [(length pre, m)] →
  m_text m = lit "CRATES=" ++ q :: body ++ [q] →
  existsb is_git_crate crates = false →
  doc1 = pre ++ (lit "CRATES=" ++ q :: crates_value crates crate_tarball
                   ++ [q]) ++ post →
  match_count GIT_CRATES_RE doc1 = 0 →
  match_count CRATE_LICENSE_RE doc1 = 0 →
  update_ebuild ebuild pkg_meta crates distdir false crate_tarball
    license_overrides = Ok doc1.
Proof.
  intros Hebuild Hfind Htext Hgit Hdoc1 Hnogit Hnomarker.
  assert (replace_scan CRATES_RE
            (counting_repl (crates_value crates crate_tarball)) None ebuild 0
          = doc1) as R1.
  { destruct (replace_scan_single CRATES_RE
                (counting_repl (crates_value crates crate_tarball))
                _ _ _ _ _ _ Hfind) as (a & b & Es & Ei & _ & Hm & ->).
    simpl in Ei. rewrite Htext in Es, Hm.
    assert (a = pre ∧ b = post) as [-> ->].
    { rewrite Hebuild in Es. apply app_inj_1 in Es as [-> Es]; [|done].
      by apply app_inv_head in Es as ->. }
    rewrite CRATES_RE_match in Hm.
    apply quoted_region_Some in Hm
      as (q' & body' & rest & _ & _ & Es' & -> & _).
    rewrite drop_0, Hdoc1. f_equal. unfold counting_repl. cbn [m_groups].
    rewrite group_lookup_eq, group_lookup_ne, group_lookup_eq by done.
    cbn [default]. unfold id.
    assert (q' = q) as ->.
    { rewrite <- !app_assoc in Es'. apply app_inv_head in Es'.
      by injection Es' as ->. }
    rewrite <- !app_assoc. cbn [app]. by rewrite <- ?app_assoc. }
  rewrite update_ebuild_unfold. unfold update_ebuild_pure.
  rewrite R1, (get_GIT_CRATES_no_git _ _ Hgit).
  cbn [git_patch mbind result_bind].
  assert (replace_scan GIT_CRATES_RE (git_repl []) None doc1 0 = doc1) as ->.
  { rewrite (replace_scan_none _ _ _ _ _ 0), drop_0; [done|].
    by apply length_zero_iff_nil. }
  assert (license_patch (get_crate_LICENSE crates distdir license_overrides)
            doc1 = Ok doc1) as ->.
  { unfold license_patch. destruct (get_crate_LICENSE _ _ _) as [v|e].
    - rewrite (replace_scan_none _ _ _ _ _ 0), drop_0; [done|].
      by apply length_zero_iff_nil.
    - by rewrite decide_True. }
  cbn [mbind result_bind].
  assert (match_count CRATES_RE ebuild = 1) as ->
    by (unfold match_count; by rewrite Hfind).
  rewrite check_count_Ok. cbn [mbind result_bind].
  rewrite Hnomarker, check_count_Ok. cbn [mbind result_bind].
  by rewrite Hnogit, decide_True.
Qed.

End Failures.

(** ** Where the patterns match *)

Section Anchors.

Lemma find_scan_bol re prev s skip pos i m :
  (∀ prev s m, re_match re prev s = Some m → bol prev = true) →
  (i, m) ∈ find_scan re prev s skip pos →
  (i = pos ∧ bol prev = true) ∨ ∃ j, i = pos + S j ∧ s !! j = Some nl.
Proof.
  intros Hre. revert prev skip pos.
  assert (∀ c, bol (Some c) = true → c = nl) as Hbol
    by (intros c; apply bool_decide_eq_true_1).
  induction s as [|c s IH]; intros prev skip pos Hin.
  - destruct skip; simpl in Hin; [|by apply elem_of_nil in Hin].
    destruct (re_match re prev []) as [m'|] eqn:Hm;
      [|by apply elem_of_nil in Hin].
    apply list_elem_of_singleton in Hin as [= -> ->]. left. eauto.
  - assert (∀ k, (i, m) ∈ find_scan re (Some c) s k (S pos) →
                 ∃ j, i = pos + S j ∧ (c :: s) !! j = Some nl) as Htail.
    { intros k [[-> Hc]|(j & -> & Hj)]%IH.
      - exists 0. rewrite (Hbol c Hc). split; [lia|done].
      - exists (S j). split; [lia|done]. }
    destruct skip; simpl in Hin; [|right; by apply (Htail skip)].
    destruct (re_match re prev (c :: s)) as [m'|] eqn:Hm;
      [|right; by apply (Htail 0)].
    apply elem_of_cons in Hin as [[= -> ->]|Hin]; [left; eauto|].
    right. by apply (Htail (pred (m_len m'))).
Qed.

Lemma guarded_bol re heads prev s m :
  guarded re true heads → re_match re prev s = Some m → bol prev = true.
Proof.
  intros Hg Hm. apply Hg in Hm. unfold may_start in Hm.
  by apply andb_true_iff in Hm as [Hb _].
Qed.

(** X19: the assignments of CRATES and of the crate licenses are found at
    the start of a line only: a match starts at the start of the document
    or right after a newline. *)
Theorem finditer_anchored (re : regex) (s : text) (i : nat) (m : Match) :
  re ∈ [CRATES_RE; CRATE_LICENSE_RE; GIT_CRATES_APPEND_RE] →
  (i, m) ∈ finditer re s →
  i = 0 ∨ ∃ j, i = S j ∧ s !! j = Some nl.
Proof.
  intros Hre Hin.
  assert (∀ prev t m', re_match re prev t = Some m' → bol prev = true)
    as Hbol.
  { intros prev t m' Hm. rewrite !elem_of_cons, elem_of_nil in Hre.
    destruct Hre as [->|[->|[->|[]]]].
    - by apply (guarded_bol _ _ _ _ _ CRATES_RE_guarded Hm).
    - by apply (guarded_bol _ _ _ _ _ CRATE_LICENSE_RE_guarded Hm).
    - rewrite append_match_eq in Hm.
      destruct (re_match CRATES_RE prev t) as [m0|] eqn:Hm0; [|done].
      by apply (guarded_bol _ _ _ _ _ CRATES_RE_guarded Hm0). }
  unfold finditer in Hin.
  apply (find_scan_bol _ _ _ _ _ _ _ Hbol) in Hin
    as [[-> _]|(j & -> & Hj)]; [by left|by right; exists j].
Qed.

(** X20: the pattern that is used to append the GIT_CRATES block finds the
    CRATES assignments that [CRATES_RE] finds: the same positions and the
    same texts. *)
Theorem GIT_CRATES_APPEND_RE_finds_CRATES (s : text) :
  prod_map id m_text <$> finditer GIT_CRATES_APPEND_RE s
  = prod_map id m_text <$> finditer CRATES_RE s.
Proof.
  unfold finditer.
  rewrite (find_scan_conv CRATES_RE _ append_match)
    by (apply append_match_eq || done).
  rewrite <- list_fmap_compose. apply list_fmap_ext. by intros ? [j m] ?.
Qed.

End Anchors.

(** Plain inputs of the small library are found plain by computation. *)
Ltac plain_by_computation :=
  unfold plain_inputs, plain_crates; split_and!;
  [ not_elem
  | repeat constructor; not_elem
  | repeat (apply Forall_cons; split); try apply Forall_nil_2;
    (intros Hc; vm_compute in Hc; discriminate Hc)
    || (intros _; split;
        [not_elem
        |intros e He; vm_compute in He; injection He as <-; not_elem])
  | intros p Hp; try discriminate Hp; injection Hp as <-; not_elem
  | intros v Hv; vm_compute in Hv; injection Hv as <-; reflexivity
  | intros v Hc Hv; try discriminate Hc; vm_compute in Hv;
    injection Hv as <-; split; [not_elem|reflexivity] ].


Lemma update_ebuild_LICENSE_count_witness :
  @update_ebuild Conj.licensing (Conj.runtime false) Conj.ebuild_without_git
    Conj.pkg [Conj.file_crate "old" "0.1"] (Conj.distdir Conj.licenses)
    true None ∅
  = Raise (RuntimeError
             (lit "Crate LICENSE+= (with marker comment) matched 0 times, 1 expected")).
Proof.
  etrans.
  - apply (update_ebuild_LICENSE_count (H:=Conj.licensing)
             (H0:=Conj.runtime false) Conj.ebuild_without_git Conj.pkg
             [Conj.file_crate "old" "0.1"] (Conj.distdir Conj.licenses)
             true None ∅ [] _ eq_refl eq_refl).
    + vm_compute. reflexivity.
    + vm_compute. lia.
    + left. vm_compute. reflexivity.
  - vm_compute. reflexivity.
Defined.

Lemma update_ebuild_GIT_CRATES_count_witness :
  @update_ebuild Conj.licensing (Conj.runtime false) Conj.ebuild_two_git
    Conj.pkg [Conj.file_crate "old" "0.1"; Conj.git_crate "baz"]
    (Conj.distdir Conj.licenses) false None ∅
  = Raise (RuntimeError (lit "GIT_CRATES= matched 2 times, 1 expected")).
Proof.
  etrans.
  - eapply (update_ebuild_GIT_CRATES_count (H:=Conj.licensing)
              (H0:=Conj.runtime false) Conj.ebuild_two_git Conj.pkg
              [Conj.file_crate "old" "0.1"; Conj.git_crate "baz"]
              (Conj.distdir Conj.licenses) false None ∅).
    + vm_compute. reflexivity.
    + reflexivity.
    + reflexivity.
    + vm_compute. reflexivity.
    + vm_compute. reflexivity.
    + left. vm_compute. reflexivity.
    + vm_compute. lia.
  - vm_compute. reflexivity.
Defined.

Lemma update_ebuild_flag_mismatch_witness :
  let crates := [Conj.file_crate "foo" "1.0"; Conj.git_crate "baz"] in
  let distdir := Conj.distdir Conj.licenses in
  @get_ebuild Conj.licensing (Conj.runtime false) Conj.pkg crates distdir
    true None ∅ = Ok Conj.rendered ∧
  @update_ebuild Conj.licensing (Conj.runtime false) Conj.rendered Conj.pkg
    [Conj.file_crate "bar" "0.2"] distdir false None ∅
  = Raise (RuntimeError
             (lit "Crate LICENSE+= (with marker comment) matched 1 times, 0 expected")).
Proof.
  intros crates distdir.
  assert (@get_ebuild Conj.licensing (Conj.runtime false) Conj.pkg crates
            distdir true None ∅ = Ok Conj.rendered) as Hdoc
    by (vm_compute; reflexivity).
  split; [exact Hdoc|]. etrans.
  - apply (update_ebuild_flag_mismatch (H:=Conj.licensing)
             (H0:=Conj.runtime false) Conj.pkg Conj.pkg crates
             [Conj.file_crate "bar" "0.2"] distdir distdir true None ∅ ∅
             Conj.rendered).
    + plain_by_computation.
    + exact Hdoc.
    + split; [repeat constructor; not_elem|].
      apply Forall_cons. split; [|apply Forall_nil_2].
      intros Hc. vm_compute in Hc. discriminate Hc.
    + intros _. eexists. vm_compute. reflexivity.
    + intros _. eexists. vm_compute. reflexivity.
  - vm_compute. reflexivity.
Defined.

Lemma finditer_anchored_witness :
  8 = 0 ∨ ∃ j, 8 = S j ∧ Conj.ebuild_with_git !! j = Some nl.
Proof.
  apply (finditer_anchored CRATES_RE Conj.ebuild_with_git 8
           (Segment.CRATES_match ([nl; tab] ++ line "old@0.1"))).
  - rewrite !elem_of_cons. by left.
  - vm_compute. left.
Defined.

Lemma update_ebuild_replaces_CRATES_witness :
  @update_ebuild Conj.licensing (Conj.runtime false)
    Conj.ebuild_single_quoted Conj.pkg
    [Conj.file_crate "foo" "1.0"; Conj.file_crate "bar" "0.2"]
    Conj.bare_distdir false None ∅
  = Ok (line "EAPI=8" ++ [nl]
        ++ lit "CRATES=" ++ [sq; nl; tab] ++ line "bar@0.2"
        ++ [tab] ++ line "foo@1.0" ++ [sq; nl; nl]
        ++ line "inherit cargo").
Proof.
  apply (update_ebuild_replaces_CRATES (H:=Conj.licensing)
           (H0:=Conj.runtime false) Conj.ebuild_single_quoted Conj.pkg
           [Conj.file_crate "foo" "1.0"; Conj.file_crate "bar" "0.2"]
           Conj.bare_distdir None ∅
           (line "EAPI=8" ++ [nl]) ([nl; tab] ++ line "old@0.1")
           ([nl; nl] ++ line "inherit cargo") sq
           {| m_text := lit "CRATES=" ++ sq :: ([nl; tab] ++ line "old@0.1")
                          ++ [sq];
              m_groups := [("start", lit "CRATES=" ++ [sq]);
                           ("delim", [sq])] |});
    vm_compute; reflexivity.
Defined.
